(** * pdf-pages-count: a model of the page-count resolution engine

    The development embeds the CommonJS module of the repository (the
    revision with accurate page-tree traversal, [countPdfPagesSync] and
    everything it calls) as executable Rocq functions and proves the
    properties of the specification about them.

    Conventions of the embedding.

    - A Node [Buffer] is a [list Z] of octets.  [buffer.toString("latin1")]
      maps every octet to the character with the same code, so a latin-1
      string is the same [list Z]; positions in one are positions in the
      other.
    - Positions and counts are [Z].  A JavaScript number that may be [NaN]
      or [null] is an [option Z] ([None] for [NaN]/[null]).  Integers are
      exact: the model does not round digit strings beyond 2^53 the way
      IEEE doubles do.  32-bit operators ([<<], [|], [>>>]) wrap as in
      JavaScript.
    - [throw] is the [Throw] constructor of [result]; [try { } catch (_) { }]
      is a match that discards the exception.
    - Recursion over the page tree consumes one stack frame per call; the
      engine's finite stack is the parameter [stack], and running out of it
      raises [RangeError], as JavaScript engines do.
    - [zlib.inflateSync] is not code of the repository: it is the section
      variable [inflateSync].
    - The methods of [Buffer], [String] and [RegExp] that the module calls
      are modelled in [Js] and [Regex] after their documented behaviour.
      Other limits of the engine (the longest string, the largest buffer)
      are not modelled. *)

From Stdlib Require Import ZArith Lia Bool List String Ascii.
From stdpp Require Import base option list gmap strings.

Local Open Scope Z_scope.

(** ** JavaScript values and built-ins used by the module *)

Module Js.

(** Exceptions.  The module throws [Error] and [TypeError]; zlib and the
    engine (stack exhaustion) contribute the other two. *)
Inductive exn :=
| Error (msg : string)
| TypeError (msg : string)
| ZlibError
| RangeError.

Inductive result (A : Type) :=
| Ok (a : A)
| Throw (e : exn).
Arguments Ok {A} a.
Arguments Throw {A} e.

Definition bind {A B} (r : result A) (k : A -> result B) : result B :=
  match r with
  | Ok a => k a
  | Throw e => Throw e
  end.

(** [try { body } catch (_) { }]: the exception, if any, is dropped. *)
Definition try_ {A} (r : result A) : option A :=
  match r with
  | Ok a => Some a
  | Throw _ => None
  end.

(** The latin-1 bytes of a literal. *)
Definition bytes (s : string) : list Z :=
  map (fun a => Z.of_N (N_of_ascii a)) (list_ascii_of_string s).

Definition len (b : list Z) : Z := Z.of_nat (length b).

(** [b[i]]: [undefined] ([None]) outside the buffer. *)
Definition at_ (b : list Z) (i : Z) : option Z :=
  if i <? 0 then None else b !! Z.to_nat i.

(** [b[i] === c] *)
Definition is_ (o : option Z) (c : Z) : bool :=
  match o with
  | Some x => x =? c
  | None => false
  end.

(** [buffer.toString("latin1", start, end)]: [start] is raised to 0 and
    [end] lowered to the length; an empty range gives the empty string. *)
Definition toString (b : list Z) (start end_ : Z) : list Z :=
  let start' := Z.max 0 start in
  let end' := Z.min end_ (len b) in
  take (Z.to_nat (end' - start')) (drop (Z.to_nat start') b).

(** Index adjustment of [slice] (Buffer and String alike): [NaN] is 0, a
    negative index counts from the end, everything is clamped. *)
Definition adjustOffset (offset : option Z) (length : Z) : Z :=
  match offset with
  | None => 0
  | Some o =>
      if o <? 0 then Z.max 0 (o + length)
      else if o <? length then o else length
  end.

Definition slice (b : list Z) (start end_ : option Z) : list Z :=
  let s := adjustOffset start (len b) in
  let e := adjustOffset end_ (len b) in
  take (Z.to_nat (e - s)) (drop (Z.to_nat s) b).

Fixpoint startsWith (needle s : list Z) : bool :=
  match needle, s with
  | [], _ => true
  | _ :: _, [] => false
  | c :: needle', d :: s' => (c =? d) && startsWith needle' s'
  end.

(** First occurrence of [needle] in [s], counted from [i]. *)
Fixpoint find_from (needle s : list Z) (i : Z) : Z :=
  if startsWith needle s then i
  else match s with
       | [] => -1
       | _ :: s' => find_from needle s' (i + 1)
       end.

(** [s.indexOf(needle, pos)] on a string: [pos] is clamped to [0, len]. *)
Definition indexOf (s needle : list Z) (pos : Z) : Z :=
  let p := Z.max 0 (Z.min pos (len s)) in
  find_from needle (drop (Z.to_nat p) s) p.

(** [buffer.indexOf(Buffer.from(needle), pos)]: a negative offset counts
    from the end; an offset at which the needle no longer fits gives -1. *)
Definition bufferIndexOf (b needle : list Z) (pos : Z) : Z :=
  let p := if pos <? 0 then Z.max 0 (pos + len b) else pos in
  if len b <? p + len needle then -1
  else find_from needle (drop (Z.to_nat p) b) p.

(** Last occurrence of [needle] starting at an index in [0, from]. *)
Fixpoint rfind_upto (needle s : list Z) (i from last : Z) : Z :=
  if from <? i then last
  else
    let last' := if startsWith needle s then i else last in
    match s with
    | [] => last'
    | _ :: s' => rfind_upto needle s' (i + 1) from last'
    end.

(** [s.lastIndexOf(needle, pos)] on a string. *)
Definition lastIndexOf (s needle : list Z) (pos : Z) : Z :=
  rfind_upto needle s 0 (Z.max 0 (Z.min pos (len s))) (-1).

(** [buffer.lastIndexOf(needle, pos)]: a negative offset counts from the
    end (no match when it falls before the start); an offset too close to
    the end searches the whole buffer. *)
Definition bufferLastIndexOf (b needle : list Z) (pos : Z) : Z :=
  if (pos <? 0) && (pos + len b <? 0) then -1
  else
    let p := if pos <? 0 then pos + len b
             else if pos + len needle <=? len b then pos
             else len b - 1 in
    rfind_upto needle b 0 p (-1).

(** White space and line terminators among the latin-1 characters:
    what [\s], [trim] and [parseInt] skip. *)
Definition isSpace (c : Z) : bool :=
  (c =? 0x09) || (c =? 0x0a) || (c =? 0x0b) || (c =? 0x0c) || (c =? 0x0d)
  || (c =? 0x20) || (c =? 0xa0).

Definition isDigit (c : Z) : bool := (0x30 <=? c) && (c <=? 0x39).

(** [\w] *)
Definition isWord (c : Z) : bool :=
  isDigit c || ((0x41 <=? c) && (c <=? 0x5a))
  || ((0x61 <=? c) && (c <=? 0x7a)) || (c =? 0x5f).

Fixpoint trimStart (s : list Z) : list Z :=
  match s with
  | c :: s' => if isSpace c then trimStart s' else s
  | [] => []
  end.

Definition trim (s : list Z) : list Z :=
  rev (trimStart (rev (trimStart s))).

(** [s.split(/\s+/)]: the pieces between maximal runs of white space. *)
Fixpoint split_go (s : list Z) (cur : list Z) (inRun : bool) : list (list Z) :=
  match s with
  | [] => [rev cur]
  | c :: s' =>
      if isSpace c then
        if inRun then split_go s' cur true
        else rev cur :: split_go s' [] true
      else split_go s' (c :: cur) false
  end.

Definition splitSpaces (s : list Z) : list (list Z) := split_go s [] false.

Fixpoint takeDigits (s : list Z) : list Z :=
  match s with
  | c :: s' => if isDigit c then c :: takeDigits s' else []
  | [] => []
  end.

Definition digitsValue (ds : list Z) : Z :=
  fold_left (fun acc d => acc * 10 + (d - 0x30)) ds 0.

(** [parseInt(s, 10)]: leading white space, an optional sign, then the
    longest run of decimal digits; [NaN] when there is no digit. *)
Definition parseInt (s : list Z) : option Z :=
  let s1 := trimStart s in
  let '(sign, s2) :=
    match s1 with
    | c :: r => if c =? 0x2d then (-1, r)
                else if c =? 0x2b then (1, r) else (1, s1)
    | [] => (1, s1)
    end in
  match takeDigits s2 with
  | [] => None
  | ds => Some (sign * digitsValue ds)
  end.

(** [Number.isInteger(n) && n > 0] *)
Definition isPositiveInteger (n : option Z) : bool :=
  match n with
  | Some v => 0 <? v
  | None => false
  end.

(** 32-bit operators. *)
Definition toInt32 (z : Z) : Z := (z + 2 ^ 31) mod 2 ^ 32 - 2 ^ 31.
Definition toUint32 (z : Z) : Z := z mod 2 ^ 32.
Definition shl (a n : Z) : Z := toInt32 (toInt32 a * 2 ^ (n mod 32)).
Definition bor (a b : Z) : Z := Z.lor (toInt32 a) (toInt32 b).

End Js.
Import Js.

Notation "x <- r ;; k" := (bind r (fun x => k))
  (at level 100, r at next level, right associativity).

(** ** Regular expressions

    The module's regular expressions use literals, the classes [\s], [\d],
    [.], [[nf]] and [[^>]], the quantifiers [*], [+], [*?] and [{n}] on a
    single class, the assertions [^] and [\b], and capture groups that are
    neither nested nor quantified.  A pattern is therefore a list of atoms,
    matched by backtracking in JavaScript's priority order: a greedy
    quantifier tries the longest repetition first, a lazy one the shortest. *)

Module Regex.

Inductive atom :=
| One (p : Z -> bool)            (* one character of a class *)
| Star (p : Z -> bool)           (* p*  *)
| Plus (p : Z -> bool)           (* p+  *)
| StarLazy (p : Z -> bool)       (* p*? *)
| Times (n : nat) (p : Z -> bool) (* p{n} *)
| Bol                            (* ^   *)
| WordBoundary                   (* \b  *)
| GroupOpen                      (* (   *)
| GroupClose.                    (* )   *)

(** Where the matcher stands: the character before it, the text after it,
    and the index. *)
Record cursor := Cursor { before : option Z; rest : list Z; here : Z }.

(** Captures so far, last group first; [opened] holds the cursor at the
    pending open parenthesis. *)
Record captures := Captures { opened : option cursor; groups : list (list Z) }.

Definition kont := cursor -> captures -> option (Z * list (list Z)).

Definition accept : kont :=
  fun cur caps => Some (here cur, rev (groups caps)).

Fixpoint greedy (p : Z -> bool) (k : kont) (b : option Z) (s : list Z) (i : Z)
    (caps : captures) : option (Z * list (list Z)) :=
  match s with
  | c :: s' =>
      if p c then
        match greedy p k (Some c) s' (i + 1) caps with
        | Some r => Some r
        | None => k (Cursor b s i) caps
        end
      else k (Cursor b s i) caps
  | [] => k (Cursor b s i) caps
  end.

Fixpoint lazy (p : Z -> bool) (k : kont) (b : option Z) (s : list Z) (i : Z)
    (caps : captures) : option (Z * list (list Z)) :=
  match k (Cursor b s i) caps with
  | Some r => Some r
  | None =>
      match s with
      | c :: s' => if p c then lazy p k (Some c) s' (i + 1) caps else None
      | [] => None
      end
  end.

Definition one (p : Z -> bool) (k : kont) : kont :=
  fun cur caps =>
    match rest cur with
    | c :: s' => if p c then k (Cursor (Some c) s' (here cur + 1)) caps else None
    | [] => None
    end.

Fixpoint times (n : nat) (p : Z -> bool) (k : kont) : kont :=
  match n with
  | O => k
  | S n' => one p (times n' p k)
  end.

Definition wordAt (o : option Z) : bool :=
  match o with
  | Some c => isWord c
  | None => false
  end.

Definition step (a : atom) (k : kont) : kont :=
  match a with
  | One p => one p k
  | Star p => fun cur caps => greedy p k (before cur) (rest cur) (here cur) caps
  | Plus p => one p (fun cur caps => greedy p k (before cur) (rest cur) (here cur) caps)
  | StarLazy p => fun cur caps => lazy p k (before cur) (rest cur) (here cur) caps
  | Times n p => times n p k
  | Bol => fun cur caps => if before cur is None then k cur caps else None
  | WordBoundary =>
      fun cur caps =>
        if xorb (wordAt (before cur)) (wordAt (head (rest cur)))
        then k cur caps else None
  | GroupOpen => fun cur caps => k cur (Captures (Some cur) (groups caps))
  | GroupClose =>
      fun cur caps =>
        match opened caps with
        | Some o =>
            k cur (Captures None
                     (take (Z.to_nat (here cur - here o)) (rest o) :: groups caps))
        | None => k cur caps
        end
  end.

Fixpoint run (re : list atom) (k : kont) : kont :=
  match re with
  | [] => k
  | a :: re' => step a (run re' k)
  end.

(** A match: where it starts, where it ends, and the captured groups. *)
Record found := Found { index : Z; stop : Z; group : list (list Z) }.

(** Leftmost match at or after the cursor. *)
Fixpoint search (re : list atom) (b : option Z) (s : list Z) (i : Z) : option found :=
  match run re accept (Cursor b s i) (Captures None []) with
  | Some (e, gs) => Some (Found i e gs)
  | None =>
      match s with
      | [] => None
      | c :: s' => search re (Some c) s' (i + 1)
      end
  end.

(** [re.exec(s)] with [re.lastIndex = from]. *)
Definition exec (re : list atom) (s : list Z) (from : Z) : option found :=
  if len s <? from then None
  else search re (if from <=? 0 then None else s !! (Z.to_nat from - 1)%nat)
         (drop (Z.to_nat from) s) (Z.max 0 from).

(** [s.match(re)] for a pattern without the [g] flag. *)
Definition match_ (re : list atom) (s : list Z) : option found := exec re s 0.

(** [re.test(s)] *)
Definition test (re : list atom) (s : list Z) : bool :=
  if match_ re s is Some _ then true else false.

(** [while ((m = re.exec(s)) !== null) ...] for a pattern with the [g]
    flag: the successive matches, each search resuming where the previous
    match stopped.  None of the module's global patterns matches the empty
    string, so [length s] rounds are enough. *)
Fixpoint execLoop (n : nat) (re : list atom) (s : list Z) (from : Z) : list found :=
  match n with
  | O => []
  | S n' =>
      match exec re s from with
      | None => []
      | Some m => m :: execLoop n' re s (stop m)
      end
  end.

Definition execAll (re : list atom) (s : list Z) : list found :=
  execLoop (length s) re s 0.

(** Literal text inside a pattern. *)
Definition lit (s : string) : list atom := map (fun c => One (Z.eqb c)) (bytes s).

Definition anyChar : Z -> bool := fun _ => true.
(** [.] without the [s] flag: anything but a line terminator. *)
Definition dot : Z -> bool := fun c => negb ((c =? 0x0a) || (c =? 0x0d)).
Definition oneOf (s : string) : Z -> bool :=
  fun c => existsb (Z.eqb c) (bytes s).
Definition notOneOf (s : string) : Z -> bool := fun c => negb (oneOf s c).

(** [(\d+)] and [\s+] occur everywhere. *)
Definition digitsGroup : list atom := [GroupOpen; Plus isDigit; GroupClose].
Definition spaces : list atom := [Plus isSpace].
Definition optSpaces : list atom := [Star isSpace].

(** [parseInt(m[i], 10)] on the [i]-th group (1-based, as in JavaScript). *)
Definition groupInt (m : found) (i : nat) : option Z :=
  parseInt (nth (i - 1) (group m) []).

End Regex.
Import Regex.

(** ** The patterns of the module *)

(** JavaScript: "/\/Type\s*\/Pages\b/" *)
Definition typePagesRe : list atom :=
  lit "/Type" ++ optSpaces ++ lit "/Pages" ++ [WordBoundary].
(** JavaScript: "/\/Type\s*\/Page\b/" *)
Definition typePageRe : list atom :=
  lit "/Type" ++ optSpaces ++ lit "/Page" ++ [WordBoundary].
(** JavaScript: "/\/Type\s*\/XRef\b/" *)
Definition typeXRefRe : list atom :=
  lit "/Type" ++ optSpaces ++ lit "/XRef" ++ [WordBoundary].
(** JavaScript: "/\/Type\s*\/ObjStm\b/" *)
Definition typeObjStmRe : list atom :=
  lit "/Type" ++ optSpaces ++ lit "/ObjStm" ++ [WordBoundary].
(** JavaScript: "/\/Count\s+(\d+)/" *)
Definition countRe : list atom := lit "/Count" ++ spaces ++ digitsGroup.
(** JavaScript: "/FlateDecode/" *)
Definition flateRe : list atom := lit "FlateDecode".
(** JavaScript: "/^(\d{10})\s+(\d{5})\s+([nf])/" *)
Definition xrefEntryRe : list atom :=
  [Bol; GroupOpen; Times 10 isDigit; GroupClose] ++ spaces
  ++ [GroupOpen; Times 5 isDigit; GroupClose] ++ spaces
  ++ [GroupOpen; One (oneOf "nf"); GroupClose].
(** JavaScript: "/^(\d+)\s+(\d+)\s+obj\b/" *)
Definition objHeaderRe : list atom :=
  [Bol] ++ digitsGroup ++ spaces ++ digitsGroup ++ spaces ++ lit "obj"
  ++ [WordBoundary].
(** JavaScript: "/(\d+)\s+(\d+)\s+R/g" *)
Definition refRe : list atom :=
  digitsGroup ++ spaces ++ digitsGroup ++ spaces ++ lit "R".
(** JavaScript: "/\/Kids\s*\[(.*?)\]/s" *)
Definition kidsRe : list atom :=
  lit "/Kids" ++ optSpaces ++ lit "["
  ++ [GroupOpen; StarLazy anyChar; GroupClose] ++ lit "]".
(** JavaScript: "/\/W\s*\[\s*(\d+)\s+(\d+)\s+(\d+)\s*\]/" *)
Definition wRe : list atom :=
  lit "/W" ++ optSpaces ++ lit "[" ++ optSpaces ++ digitsGroup ++ spaces
  ++ digitsGroup ++ spaces ++ digitsGroup ++ optSpaces ++ lit "]".
(** JavaScript: "/\/Index\s*\[(.*?)\]/" *)
Definition indexRe : list atom :=
  lit "/Index" ++ optSpaces ++ lit "["
  ++ [GroupOpen; StarLazy dot; GroupClose] ++ lit "]".
(** JavaScript: "/\/Size\s+(\d+)/" *)
Definition sizeRe : list atom := lit "/Size" ++ spaces ++ digitsGroup.
(** JavaScript: "/\/DecodeParms\s*<<(G)>>/s", the group G being "[^>]*" *)
Definition decodeParmsRe : list atom :=
  lit "/DecodeParms" ++ optSpaces ++ lit "<<"
  ++ [GroupOpen; Star (notOneOf ">"); GroupClose] ++ lit ">>".
(** JavaScript: "/\/Predictor\s+(\d+)/" *)
Definition predictorRe : list atom := lit "/Predictor" ++ spaces ++ digitsGroup.
(** JavaScript: "/\/Columns\s+(\d+)/" *)
Definition columnsRe : list atom := lit "/Columns" ++ spaces ++ digitsGroup.
(** [new RegExp(`/\\s*${escapeRegExp(key)}\\s+(\\d+)\\s+(\\d+)\\s+R`)]:
    [escapeRegExp] makes the key a literal. *)
Definition keyRefRe (key : string) : list atom :=
  lit "/" ++ optSpaces ++ lit key ++ spaces ++ digitsGroup ++ spaces
  ++ digitsGroup ++ spaces ++ lit "R".
(** [new RegExp(`/\\s*${escapeRegExp(key)}\\s+(\\d+)`)] *)
Definition keyIntRe (key : string) : list atom :=
  lit "/" ++ optSpaces ++ lit key ++ spaces ++ digitsGroup.

(** ** Lexical primitives *)

Fixpoint sameString (a b : list Z) : bool :=
  match a, b with
  | [], [] => true
  | c :: a', d :: b' => (c =? d) && sameString a' b'
  | _, _ => false
  end.

Definition findStartXref (buffer : list Z) : Z :=
  let needle := bytes "startxref" in
  let start := Z.max 0 (len buffer - 2 * 1024 * 1024) in
  let pos := bufferLastIndexOf buffer needle (len buffer - 1) in
  if pos =? -1 then bufferLastIndexOf buffer needle start else pos.

Definition isPdfWhitespace (c : option Z) : bool :=
  is_ c 0x00 || is_ c 0x09 || is_ c 0x0a || is_ c 0x0c || is_ c 0x0d
  || is_ c 0x20.

(** The loop of [skipWhitespace]; it runs at most [len buffer - pos] times. *)
Fixpoint skipWhitespace_loop (n : nat) (buffer : list Z) (pos : Z) : Z :=
  match n with
  | O => pos
  | S n' =>
      if pos <? len buffer then
        if isPdfWhitespace (at_ buffer pos)
        then skipWhitespace_loop n' buffer (pos + 1)
        else pos
      else pos
  end.

Definition skipWhitespace (buffer : list Z) (pos : Z) : Z :=
  skipWhitespace_loop (Z.to_nat (len buffer - pos)) buffer pos.

(** Both branches return [pos]. *)
Definition skipWhitespaceBackwardSafe (buffer : list Z) (pos : Z) : Z :=
  if pos <=? 0 then 0
  else if isPdfWhitespace (at_ buffer (pos - 1)) then pos else pos.

Definition readAscii (buffer : list Z) (pos len : Z) : list Z :=
  toString buffer pos (pos + len).

Fixpoint readLineAscii_loop (n : nat) (buffer : list Z) (end_ : Z) : Z :=
  match n with
  | O => end_
  | S n' =>
      if end_ <? len buffer then
        let c := at_ buffer end_ in
        if is_ c 0x0a || is_ c 0x0d then end_
        else readLineAscii_loop n' buffer (end_ + 1)
      else end_
  end.

Definition readLineAscii (buffer : list Z) (pos : Z) : list Z :=
  if len buffer <=? pos then []
  else
    let end_ := readLineAscii_loop (Z.to_nat (len buffer - pos)) buffer pos in
    toString buffer pos end_.

Fixpoint advanceToNextLine_loop (n : nat) (buffer : list Z) (p : Z) : Z :=
  match n with
  | O => p
  | S n' =>
      if p <? len buffer then
        let c := at_ buffer p in
        let p := p + 1 in
        if is_ c 0x0a then p
        else if is_ c 0x0d then
          if is_ (at_ buffer p) 0x0a then p + 1 else p
        else advanceToNextLine_loop n' buffer p
      else p
  end.

Definition advanceToNextLine (buffer : list Z) (pos : Z) : Z :=
  advanceToNextLine_loop (Z.to_nat (len buffer - pos)) buffer pos.

Definition peekKeyword (buffer : list Z) (pos : Z) (kw : string) : bool :=
  sameString (toString buffer pos (pos + len (bytes kw))) (bytes kw).

Fixpoint readNumberAscii_loop (n : nat) (buffer : list Z) (p : Z) : Z :=
  match n with
  | O => p
  | S n' =>
      if (p <? len buffer)
         && (if at_ buffer p is Some c then (0x30 <=? c) && (c <=? 0x39) else false)
      then readNumberAscii_loop n' buffer (p + 1)
      else p
  end.

(** [{ value, end }] *)
Definition readNumberAscii (buffer : list Z) (pos : Z) : option Z * Z :=
  let p := pos in
  let p := if is_ (at_ buffer p) 0x2b || is_ (at_ buffer p) 0x2d then p + 1 else p in
  let start := p in
  let p := readNumberAscii_loop (Z.to_nat (len buffer - p)) buffer p in
  if p =? start then (None, pos)
  else (parseInt (toString buffer pos p), p).

Definition parseStartXrefOffset (buffer : list Z) (startXrefPos : Z) : result Z :=
  let pos := startXrefPos + len (bytes "startxref") in
  let pos := skipWhitespace buffer pos in
  match fst (readNumberAscii buffer pos) with
  | None => Throw (Error "startxref offset not found")
  | Some value => Ok value
  end.

Definition isPair (buffer : list Z) (p c : Z) : bool :=
  is_ (at_ buffer p) c && is_ (at_ buffer (p + 1)) c.

Fixpoint readDictString_loop (n : nat) (buffer : list Z) (p depth : Z) : Z :=
  match n with
  | O => p
  | S n' =>
      if p <? len buffer then
        if isPair buffer p 0x3c then readDictString_loop n' buffer (p + 2) (depth + 1)
        else if isPair buffer p 0x3e then
          if depth - 1 =? 0 then p + 2
          else readDictString_loop n' buffer (p + 2) (depth - 1)
        else readDictString_loop n' buffer (p + 1) depth
      else p
  end.

(** [{ dictString, endPos }] *)
Definition readDictString (buffer : list Z) (pos : Z) : result (list Z * Z) :=
  if negb (isPair buffer pos 0x3c) then Throw (Error "Expected <<")
  else
    let p := readDictString_loop (Z.to_nat (len buffer - pos)) buffer pos 0 in
    Ok (toString buffer pos p, p).

(** An indirect reference [N G R]. *)
Record ref := Ref { obj : Z; gen : Z }.

Definition refOfMatch (m : found) : option ref :=
  match groupInt m 1, groupInt m 2 with
  | Some o, Some g => Some (Ref o g)
  | _, _ => None
  end.

Definition parseIndirectRefFromDict (dictString : list Z) (key : string) : option ref :=
  match match_ (keyRefRe key) dictString with
  | None => None
  | Some m => refOfMatch m
  end.

Definition parseIntFromDict (dictString : list Z) (key : string) : option Z :=
  match match_ (keyIntRe key) dictString with
  | None => None
  | Some m => groupInt m 1
  end.

(** [{ header, dictString, raw }] *)
Record indirectObject :=
  IndirectObject { header : list Z; dictString : list Z; raw : list Z }.

Definition readIndirectObject (buffer : list Z) (offset expectedObj expectedGen : Z)
    : result indirectObject :=
  let pos := offset in
  let headerLine := trim (readLineAscii buffer pos) in
  match match_ objHeaderRe headerLine with
  | None => Throw (Error "Invalid object header")
  | Some m =>
      (* the comparison with the expected numbers has an empty body *)
      let pos := advanceToNextLine buffer pos in
      let pos := skipWhitespace buffer pos in
      if negb (isPair buffer pos 0x3c) then Throw (Error "Object dictionary not found")
      else
        d <- readDictString buffer pos ;;
        let endIdx := bufferIndexOf buffer (bytes "endobj") pos in
        let raw := slice buffer (Some offset)
                     (Some (if 0 <? endIdx then endIdx + len (bytes "endobj")
                            else Z.min (len buffer) (pos + 4096))) in
        Ok (IndirectObject headerLine (fst d) raw)
  end.

(** ** Heuristic scanners *)

(** The body shared by [scanMaxPagesCount] and the scan inside inflated
    streams: for each [/Type /Pages] match, the first [/Count N] in the
    window from 1024 characters before to 50000 after; the maximum [N]. *)
Definition nearestCountStep (s : list Z) (maxCount : Z) (m : found) : Z :=
  let windowStart := Z.max 0 (index m - 1024) in
  let windowEnd := Z.min (len s) (index m + 50000) in
  let window := slice s (Some windowStart) (Some windowEnd) in
  match match_ countRe window with
  | Some cm =>
      match groupInt cm 1 with
      | Some count => if maxCount <? count then count else maxCount
      | None => maxCount
      end
  | None => maxCount
  end.

Definition maxNearestCount (s : list Z) : Z :=
  fold_left (nearestCountStep s) (execAll typePagesRe s) 0.

Definition maxCountStep (maxCount : Z) (m : found) : Z :=
  match groupInt m 1 with
  | Some count => if maxCount <? count then count else maxCount
  | None => maxCount
  end.

Definition scanMaxPagesCount (buffer : list Z) : Z :=
  let s := buffer in
  let maxCount := maxNearestCount s in
  if 0 <? maxCount then maxCount
  else
    let maxCount := fold_left maxCountStep (execAll countRe s) maxCount in
    if maxCount =? 0 then 0 else maxCount.

(** [while (buffer[dataStart] === 0x20 || ... 0x0d || ... 0x0a) dataStart += 1] *)
Fixpoint skipStreamEol_loop (n : nat) (buffer : list Z) (dataStart : Z) : Z :=
  match n with
  | O => dataStart
  | S n' =>
      let c := at_ buffer dataStart in
      if is_ c 0x20 || is_ c 0x0d || is_ c 0x0a
      then skipStreamEol_loop n' buffer (dataStart + 1)
      else dataStart
  end.

Definition skipStreamEol (buffer : list Z) (dataStart : Z) : Z :=
  skipStreamEol_loop (Z.to_nat (len buffer - dataStart)) buffer dataStart.

(** The dictionary heuristically captured before a [stream] keyword. *)
Definition precedingDict (s : list Z) (streamIdx : Z) : list Z :=
  let dictOpen := lastIndexOf s (bytes "<<") streamIdx in
  let dictClose := lastIndexOf s (bytes ">>") streamIdx in
  if negb (dictOpen =? -1) && negb (dictClose =? -1) && (dictOpen <? dictClose)
  then slice s (Some dictOpen) (Some (dictClose + 2))
  else [].

(** The body that a round of [scanMaxPagesCountFromObjectStreams] hands to
    [zlib.inflateSync] for the stream keyword at [streamIdx]: [None] when the
    preceding dictionary does not advertise FlateDecode, when there is no
    [endstream], or when the body is empty or above the 10 MiB cap. *)
Definition flateStreamBody (buffer : list Z) (streamIdx : Z) : option (list Z) :=
  let s := buffer in
  let dictString := precedingDict s streamIdx in
  let hasFlate := test flateRe dictString in
  if hasFlate then
    let dataStart := skipStreamEol buffer (streamIdx + len (bytes "stream")) in
    let endStreamIdx := indexOf s (bytes "endstream") dataStart in
    if negb (endStreamIdx =? -1) then
      let dataEnd := endStreamIdx in
      let streamBuf := slice buffer (Some dataStart) (Some dataEnd) in
      if (0 <? len streamBuf) && (len streamBuf <=? 10 * 1024 * 1024)
      then Some streamBuf
      else None
    else None
  else None.

Section Engine.

(** [zlib.inflateSync]: the inflated bytes, or an exception. *)
Variable inflateSync : list Z -> result (list Z).

(** What one round of the loop of [scanMaxPagesCountFromObjectStreams] does
    with the stream keyword at [streamIdx]: [None] when the round leaves
    [globalMax] alone (no body to inflate, or an inflate error, which is
    caught), [Some localMax] when the body was inflated and scanned. *)
Definition streamLocalMax (buffer : list Z) (streamIdx : Z) : option Z :=
  match flateStreamBody buffer streamIdx with
  | Some streamBuf =>
      match inflateSync streamBuf with
      | Ok inflated => Some (maxNearestCount inflated)
      | Throw _ => None
      end
  | None => None
  end.

(** The [while (true)] loop; every round moves [pos] past one [stream]
    keyword, so it runs at most [length buffer] times. *)
Fixpoint scanStreams_loop (n : nat) (buffer : list Z) (pos globalMax : Z) : Z :=
  match n with
  | O => globalMax
  | S n' =>
      let streamIdx := indexOf buffer (bytes "stream") pos in
      if streamIdx =? -1 then globalMax
      else
        match streamLocalMax buffer streamIdx with
        | Some localMax =>
            let globalMax := if globalMax <? localMax then localMax else globalMax in
            if 0 <? globalMax then globalMax
            else scanStreams_loop n' buffer (streamIdx + len (bytes "stream")) globalMax
        | None =>
            scanStreams_loop n' buffer (streamIdx + len (bytes "stream")) globalMax
        end
  end.

Definition scanMaxPagesCountFromObjectStreams (buffer : list Z) : Z :=
  scanStreams_loop (S (length buffer)) buffer 0 0.

(** One round of [scanDeflatedStreamsForPattern]: the number of matches of
    the pattern in the inflated body, 0 when the round does nothing. *)
Definition streamHits (buffer : list Z) (regexGlobal : list atom) (streamIdx : Z) : Z :=
  let s := buffer in
  let dictString := precedingDict s streamIdx in
  if test flateRe dictString then
    let dataStart := skipStreamEol buffer (streamIdx + len (bytes "stream")) in
    let endStreamIdx := indexOf s (bytes "endstream") dataStart in
    if negb (endStreamIdx =? -1) then
      let dataEnd := endStreamIdx in
      let blen := dataEnd - dataStart in
      if (0 <? blen) && (blen <=? 10 * 1024 * 1024) then
        match inflateSync (slice buffer (Some dataStart) (Some dataEnd)) with
        | Ok inflated => Z.of_nat (length (execAll regexGlobal inflated))
        | Throw _ => 0
        end
      else 0
    else 0
  else 0.

Fixpoint scanDeflated_loop (n : nat) (buffer : list Z) (regexGlobal : list atom)
    (pos hits : Z) : Z :=
  match n with
  | O => hits
  | S n' =>
      let streamIdx := indexOf buffer (bytes "stream") pos in
      if streamIdx =? -1 then hits
      else scanDeflated_loop n' buffer regexGlobal
             (streamIdx + len (bytes "stream"))
             (hits + streamHits buffer regexGlobal streamIdx)
  end.

Definition scanDeflatedStreamsForPattern (buffer : list Z) (regexGlobal : list atom) : Z :=
  scanDeflated_loop (S (length buffer)) buffer regexGlobal 0 0.

Definition countPagesByPageObjects (buffer : list Z) : Z :=
  let s := buffer in
  let total := Z.of_nat (length (execAll typePageRe s)) in
  let textHits := scanDeflatedStreamsForPattern buffer typePageRe in
  total + textHits.

(** ** Classic cross-reference tables *)

(** A direct entry [{ offset, gen }] of the offset map. *)
Record entry := Entry { offset : Z; entryGen : Z }.

(** The three groups of an entry line that matches [xrefEntryRe]:
    [parseInt(m[1], 10)], [parseInt(m[2], 10)] and [m[3]]. *)
Definition matchXrefEntry (line : list Z) : option (Z * Z * list Z) :=
  match match_ xrefEntryRe line with
  | Some m =>
      match groupInt m 1, groupInt m 2 with
      | Some offset, Some gen => Some (offset, gen, nth 2 (group m) [])
      | _, _ => None (* not reached: both groups are digits *)
      end
  | None => None
  end.

(** What one entry line does to the map in [parsePageCountViaClassicXref]:
    the body of [if (m) { ... }]. *)
Definition classicRecord (line : list Z) (objNum : Z)
    (objectOffsets : gmap (option Z) entry) : gmap (option Z) entry :=
  match matchXrefEntry line with
  | Some (offset, gen, flag) =>
      if sameString flag (bytes "n")
      then <[Some objNum := Entry offset gen]> objectOffsets
      else objectOffsets
  | None => objectOffsets
  end.

(** The [for] loop over the entries of a subsection in
    [parsePageCountViaClassicXref]; [n] counts the rounds left. *)
Fixpoint classicEntries_loop (n : nat) (buffer : list Z) (firstObj i pos : Z)
    (objectOffsets : gmap (option Z) entry) : result (gmap (option Z) entry * Z) :=
  match n with
  | O => Ok (objectOffsets, pos)
  | S n' =>
      let line := readLineAscii buffer pos in
      if line is [] then Throw (Error "Unexpected EOF in xref entries")
      else
        let objectOffsets := classicRecord line (firstObj + i) objectOffsets in
        classicEntries_loop n' buffer firstObj (i + 1)
          (advanceToNextLine buffer pos) objectOffsets
  end.

(** The [while (pos < buffer.length)] loop over the subsections; every round
    consumes at least the header line. *)
Fixpoint classicSections_loop (n : nat) (buffer : list Z) (pos : Z)
    (objectOffsets : gmap (option Z) entry) : result (gmap (option Z) entry * Z) :=
  match n with
  | O => Ok (objectOffsets, pos)
  | S n' =>
      if pos <? len buffer then
        if peekKeyword buffer pos "trailer" then Ok (objectOffsets, pos)
        else
          let header := readLineAscii buffer pos in
          if header is [] then Ok (objectOffsets, pos)
          else
            let parts := splitSpaces (trim header) in
            if (length parts <? 2)%nat then Ok (objectOffsets, pos)
            else
              match parseInt (nth 0 parts []), parseInt (nth 1 parts []) with
              | Some firstObj, Some count =>
                  if count <? 0 then Throw (Error "Invalid xref subsection header")
                  else
                    let pos := advanceToNextLine buffer pos in
                    r <- classicEntries_loop (Z.to_nat count) buffer firstObj 0 pos
                           objectOffsets ;;
                    classicSections_loop n' buffer (skipWhitespace buffer (snd r)) (fst r)
              | _, _ => Throw (Error "Invalid xref subsection header")
              end
      else Ok (objectOffsets, pos)
  end.

Definition parsePageCountViaClassicXref (buffer : list Z) : result Z :=
  let startXrefPos := findStartXref buffer in
  if startXrefPos <? 0 then Throw (Error "startxref not found")
  else
    xrefOffset <- parseStartXrefOffset buffer startXrefPos ;;
    if (xrefOffset <=? 0) || (len buffer <=? xrefOffset)
    then Throw (Error "Invalid xref offset")
    else
      let xrefStart :=
        if skipWhitespaceBackwardSafe buffer xrefOffset =? xrefOffset
        then xrefOffset else xrefOffset in
      let xrefToken := readAscii buffer xrefStart 4 in
      if negb (sameString xrefToken (bytes "xref"))
      then Throw (Error "Not a classic xref table")
      else
        let pos := xrefStart + 4 in
        let pos := skipWhitespace buffer pos in
        r <- classicSections_loop (length buffer) buffer pos ∅ ;;
        let objectOffsets := fst r in
        let pos := snd r in
        if negb (peekKeyword buffer pos "trailer") then Throw (Error "trailer not found")
        else
          let pos := pos + len (bytes "trailer") in
          let pos := skipWhitespace buffer pos in
          if negb (isPair buffer pos 0x3c) then Throw (Error "trailer dict not found")
          else
            d <- readDictString buffer pos ;;
            match parseIndirectRefFromDict (fst d) "Root" with
            | None => Throw (Error "Root not found in trailer")
            | Some rootRef =>
                match objectOffsets !! Some (obj rootRef) with
                | None => Throw (Error "Root offset not found in xref")
                | Some rootEntry =>
                    rootObj <- readIndirectObject buffer (offset rootEntry)
                                 (obj rootRef) (gen rootRef) ;;
                    match parseIndirectRefFromDict (dictString rootObj) "Pages" with
                    | None => Throw (Error "Pages ref not found in Catalog")
                    | Some pagesRef =>
                        match objectOffsets !! Some (obj pagesRef) with
                        | None => Throw (Error "Pages offset not found in xref")
                        | Some pagesEntry =>
                            pagesObj <- readIndirectObject buffer (offset pagesEntry)
                                          (obj pagesRef) (gen pagesRef) ;;
                            if negb (test typePagesRe (dictString pagesObj))
                            then Throw (Error "Target object is not /Type /Pages")
                            else
                              let count := parseIntFromDict (dictString pagesObj) "Count" in
                              match count with
                              | Some c =>
                                  if c <=? 0 then Throw (Error "Count not found or invalid")
                                  else Ok c
                              | None => Throw (Error "Count not found or invalid")
                              end
                        end
                    end
                end
            end.

(** *** Following the trailer [/Prev] chain *)

(** What one entry line does to the map in
    [buildClassicXrefOffsetsFollowingPrevChain]: the body of
    [if (m && m[3] === "n") { ... }], where [m = line && line.match(...)].
    An object number already in the map is left alone. *)
Definition chainRecord (line : list Z) (objNum : option Z)
    (objectOffsets : gmap (option Z) entry) : gmap (option Z) entry :=
  let m := if line is [] then None else matchXrefEntry line in
  match m with
  | Some (offset, gen, flag) =>
      if sameString flag (bytes "n") then
        if objectOffsets !! objNum is Some _ then objectOffsets
        else <[objNum := Entry offset gen]> objectOffsets
      else objectOffsets
  | None => objectOffsets
  end.

(** The [for] loop over the entries of a subsection; [firstObj] may be
    [NaN], and then so is every object number. *)
Fixpoint chainEntries_loop (n : nat) (buffer : list Z) (firstObj : option Z) (i pos : Z)
    (objectOffsets : gmap (option Z) entry) : gmap (option Z) entry * Z :=
  match n with
  | O => (objectOffsets, pos)
  | S n' =>
      let line := readLineAscii buffer pos in
      let objNum := (fun f => f + i) <$> firstObj in
      let objectOffsets := chainRecord line objNum objectOffsets in
      chainEntries_loop n' buffer firstObj (i + 1)
        (advanceToNextLine buffer pos) objectOffsets
  end.

(** [for (let i = 0; i < count; i += 1)]: no round when [count] is [NaN]. *)
Definition rounds (count : option Z) : nat :=
  match count with
  | Some c => Z.to_nat c
  | None => O
  end.

Fixpoint chainSections_loop (n : nat) (buffer : list Z) (pos : Z)
    (objectOffsets : gmap (option Z) entry) : gmap (option Z) entry * Z :=
  match n with
  | O => (objectOffsets, pos)
  | S n' =>
      if pos <? len buffer then
        if peekKeyword buffer pos "trailer" then (objectOffsets, pos)
        else
          let header := readLineAscii buffer pos in
          if header is [] then (objectOffsets, pos)
          else
            let parts := splitSpaces (trim header) in
            if (length parts <? 2)%nat then (objectOffsets, pos)
            else
              let firstObj := parseInt (nth 0 parts []) in
              let count := parseInt (nth 1 parts []) in
              let pos := advanceToNextLine buffer pos in
              let r := chainEntries_loop (rounds count) buffer firstObj 0 pos
                         objectOffsets in
              chainSections_loop n' buffer (skipWhitespace buffer (snd r)) (fst r)
      else (objectOffsets, pos)
  end.

(** The variables of the [while (offset > 0 && hops < 10)] loop. *)
Record chainState := ChainState {
  objectOffsets : gmap (option Z) entry;
  trailerDictString : list Z;
  chainOffset : Z;
  hops : Z
}.

(** One round of the loop body.  [inl st] is a [break] that leaves the loop
    in state [st]; [inr st] goes on to the next round. *)
Definition chainRound (buffer : list Z) (st : chainState)
    : result (chainState + chainState) :=
  let offset := chainOffset st in
  let token := readAscii buffer offset 4 in
  if negb (sameString token (bytes "xref")) then Ok (inl st)
  else
    let pos := offset + 4 in
    let pos := skipWhitespace buffer pos in
    let r := chainSections_loop (length buffer) buffer pos (objectOffsets st) in
    let st := ChainState (fst r) (trailerDictString st) offset (hops st) in
    let pos := snd r in
    if negb (peekKeyword buffer pos "trailer") then Ok (inl st)
    else
      let pos := pos + len (bytes "trailer") in
      let pos := skipWhitespace buffer pos in
      if negb (isPair buffer pos 0x3c) then Ok (inl st)
      else
        d <- readDictString buffer pos ;;
        let dictString := fst d in
        let trailer := if trailerDictString st is [] then dictString
                       else trailerDictString st in
        let st := ChainState (objectOffsets st) trailer offset (hops st) in
        let prev := parseIntFromDict dictString "Prev" in
        match prev with
        | Some prev =>
            if (prev <=? 0) || (len buffer <=? prev) then Ok (inl st)
            else Ok (inr (ChainState (objectOffsets st) trailer prev (hops st + 1)))
        | None => Ok (inl st)
        end.

Fixpoint chain_loop (n : nat) (buffer : list Z) (st : chainState) : result chainState :=
  match n with
  | O => Ok st
  | S n' =>
      if (0 <? chainOffset st) && (hops st <? 10) then
        r <- chainRound buffer st ;;
        match r with
        | inl st' => Ok st'
        | inr st' => chain_loop n' buffer st'
        end
      else Ok st
  end.

(** [{ objectOffsets, latestTrailerDict }].  The loop condition [hops < 10]
    stops the loop after ten rounds at the latest (lemma [chain_loop_stable]
    below), so eleven evaluations of the condition are all there can be. *)
Definition buildClassicXrefOffsetsFollowingPrevChain (buffer : list Z) (startOffset : Z)
    : result (gmap (option Z) entry * list Z) :=
  st <- chain_loop 11 buffer (ChainState ∅ [] startOffset 0) ;;
  if trailerDictString st is [] then Throw (Error "No trailer found")
  else Ok (objectOffsets st, trailerDictString st).

(** ** Reading arrays and arbitrary object content *)

Definition refsOf (t : list Z) : list ref := omap refOfMatch (execAll refRe t).

Definition parseKidsArray (dictString : list Z) : list ref :=
  match match_ kidsRe dictString with
  | None => []
  | Some m => refsOf (nth 0 (group m) [])
  end.

Definition parseKidsArrayFromArrayString (arrayString : list Z) : list ref :=
  if arrayString is [] then [] else refsOf arrayString.

Fixpoint readArrayString_loop (n : nat) (buffer : list Z) (p depth : Z) : Z :=
  match n with
  | O => p
  | S n' =>
      if p <? len buffer then
        let c := at_ buffer p in
        let p := p + 1 in
        if is_ c 0x5b then readArrayString_loop n' buffer p (depth + 1)
        else if is_ c 0x5d then
          if depth - 1 =? 0 then p
          else readArrayString_loop n' buffer p (depth - 1)
        else readArrayString_loop n' buffer p depth
      else p
  end.

(** [{ arrayString, endPos }] *)
Definition readArrayString (buffer : list Z) (pos : Z) : result (list Z * Z) :=
  if negb (is_ (at_ buffer pos) 0x5b) then Throw (Error "Expected [")
  else
    let p := readArrayString_loop (Z.to_nat (len buffer - pos)) buffer pos 0 in
    Ok (toString buffer pos p, p).

Definition readAnyObjectContent (buffer : list Z) (offset expectedObj expectedGen : Z)
    : result (list Z) :=
  let pos := offset in
  let headerLine := trim (readLineAscii buffer pos) in
  match match_ objHeaderRe headerLine with
  | None => Throw (Error "Invalid object header")
  | Some m =>
      let pos := advanceToNextLine buffer pos in
      let pos := skipWhitespace buffer pos in
      let c := at_ buffer pos in
      if is_ c 0x3c && is_ (at_ buffer (pos + 1)) 0x3c then
        d <- readDictString buffer pos ;;
        Ok (fst d)
      else if is_ c 0x5b then
        a <- readArrayString buffer pos ;;
        Ok (bytes "[" ++ fst a)
      else
        let endIdx := bufferIndexOf buffer (bytes "endobj") pos in
        Ok (toString buffer pos
              (if 0 <? endIdx then endIdx else Z.min (len buffer) (pos + 4096)))
  end.

Definition getArrayContentViaOffsets (buffer : list Z)
    (objOffsets : gmap (option Z) entry) (objNum gen : Z) : result (list Z) :=
  match objOffsets !! Some objNum with
  | None => Throw (Error "Array object not found")
  | Some entry => readAnyObjectContent buffer (offset entry) objNum gen
  end.

(** ** Accurate traversal using a classic xref table *)

(** [Number.isInteger(cnt) && cnt > 0 ? cnt : 0] *)
Definition countOrZero (cnt : option Z) : Z :=
  match cnt with
  | Some c => if 0 <? c then c else 0
  | None => 0
  end.

(** [sum || (Number.isInteger(cnt) && cnt > 0 ? cnt : 0)] *)
Definition sumOrCount (sum : Z) (cnt : option Z) : Z :=
  if sum =? 0 then countOrZero cnt else sum.

(** The kids of a [/Pages] dictionary: the inline array, else the array
    object that [/Kids N G R] refers to. *)
Definition kidsViaOffsets (buffer : list Z) (objOffsets : gmap (option Z) entry)
    (dict : list Z) : result (list ref) :=
  let kids := parseKidsArray dict in
  if kids is [] then
    match parseIndirectRefFromDict dict "Kids" with
    | Some kidsRef =>
        arrStr <- getArrayContentViaOffsets buffer objOffsets (obj kidsRef) (gen kidsRef) ;;
        Ok (parseKidsArrayFromArrayString arrStr)
    | None => Ok kids
    end
  else Ok kids.

(** The [for (const k of kids)] loop of [traversePagesNodeMap]; [recur] is
    the recursive call. *)
Fixpoint sumKidsMap (recur : ref -> result Z) (buffer : list Z)
    (objOffsets : gmap (option Z) entry) (kids : list ref) (sum : Z) : result Z :=
  match kids with
  | [] => Ok sum
  | k :: kids' =>
      match objOffsets !! Some (obj k) with
      | None => sumKidsMap recur buffer objOffsets kids' sum
      | Some childEntry =>
          childObj <- readIndirectObject buffer (offset childEntry) (obj k) (gen k) ;;
          let cdict := dictString childObj in
          if test typePageRe cdict
          then sumKidsMap recur buffer objOffsets kids' (sum + 1)
          else if test typePagesRe cdict then
            let cRef := Ref (obj k) (gen k) in
            v <- recur cRef ;;
            sumKidsMap recur buffer objOffsets kids' (sum + v)
          else sumKidsMap recur buffer objOffsets kids' sum
      end
  end.

(** Every call takes one frame of the engine's stack; with none left the
    engine raises [RangeError]. *)
Fixpoint traversePagesNodeMap (stack : nat) (buffer : list Z)
    (objOffsets : gmap (option Z) entry) (nodeRef : ref) : result Z :=
  match stack with
  | O => Throw RangeError
  | S stack' =>
      match objOffsets !! Some (obj nodeRef) with
      | None => Throw (Error "Node not found")
      | Some entry =>
          o <- readIndirectObject buffer (offset entry) (obj nodeRef) (gen nodeRef) ;;
          let dict := dictString o in
          if test typePageRe dict then Ok 1
          else if negb (test typePagesRe dict) then Ok 0
          else
            let cnt := parseIntFromDict dict "Count" in
            kids <- kidsViaOffsets buffer objOffsets dict ;;
            if kids is [] then Ok (countOrZero cnt)
            else
              sum <- sumKidsMap (traversePagesNodeMap stack' buffer objOffsets)
                       buffer objOffsets kids 0 ;;
              Ok (sumOrCount sum cnt)
      end
  end.

Definition traversePageTreeWithMap (stack : nat) (buffer : list Z)
    (objOffsets : gmap (option Z) entry) (rootRef : ref) : result Z :=
  match objOffsets !! Some (obj rootRef) with
  | None => Throw (Error "Catalog not found")
  | Some catalogEntry =>
      catalog <- readIndirectObject buffer (offset catalogEntry)
                   (obj rootRef) (gen rootRef) ;;
      match parseIndirectRefFromDict (dictString catalog) "Pages" with
      | None => Throw (Error "Pages not found")
      | Some pagesRef => traversePagesNodeMap stack buffer objOffsets pagesRef
      end
  end.

Definition countPagesViaClassicTraversal (stack : nat) (buffer : list Z) : result Z :=
  let startXrefPos := findStartXref buffer in
  if startXrefPos <? 0 then Throw (Error "startxref not found")
  else
    xrefOffset <- parseStartXrefOffset buffer startXrefPos ;;
    if (xrefOffset <=? 0) || (len buffer <=? xrefOffset)
    then Throw (Error "Invalid xref offset")
    else
      r <- buildClassicXrefOffsetsFollowingPrevChain buffer xrefOffset ;;
      let objectOffsets := fst r in
      let latestTrailerDict := snd r in
      match parseIndirectRefFromDict latestTrailerDict "Root" with
      | None => Throw (Error "Root not found")
      | Some rootRef => traversePageTreeWithMap stack buffer objectOffsets rootRef
      end.

(** ** Cross-reference streams *)

(** [{ dictString, streamBuffer }] *)
Record streamObject := StreamObject { streamDict : list Z; streamBuffer : list Z }.

Definition readStreamObject (buffer : list Z) (offset : Z) : result streamObject :=
  let pos := offset in
  let headerLine := trim (readLineAscii buffer pos) in
  match match_ objHeaderRe headerLine with
  | None => Throw (Error "Invalid object header")
  | Some m =>
      let pos := advanceToNextLine buffer pos in
      let pos := skipWhitespace buffer pos in
      if negb (isPair buffer pos 0x3c) then Throw (Error "Object dictionary not found")
      else
        d <- readDictString buffer pos ;;
        let p := snd d in
        let idx := bufferIndexOf buffer (bytes "stream") p in
        if idx =? -1 then Throw (Error "stream keyword not found")
        else
          let dataStart := skipStreamEol buffer (idx + len (bytes "stream")) in
          let endIdx := bufferIndexOf buffer (bytes "endstream") dataStart in
          if endIdx =? -1 then Throw (Error "endstream not found")
          else Ok (StreamObject (fst d) (slice buffer (Some dataStart) (Some endIdx)))
  end.

Definition readWArray (dictString : list Z) : result (Z * Z * Z) :=
  match match_ wRe dictString with
  | None => Throw (Error "W array not found")
  | Some m =>
      match groupInt m 1, groupInt m 2, groupInt m 3 with
      | Some w0, Some w1, Some w2 => Ok (w0, w1, w2)
      | _, _, _ => Throw (Error "W array not found") (* not reached *)
      end
  end.

(** [for (let i = 0; i + 1 < nums.length; i += 2) out.push(nums[i], nums[i + 1])] *)
Fixpoint evenPrefix (nums : list Z) : list Z :=
  match nums with
  | a :: b :: nums' => a :: b :: evenPrefix nums'
  | _ => []
  end.

Definition readIndexArray (dictString : list Z) (size : Z) : list Z :=
  match match_ indexRe dictString with
  | None => [0; size]
  | Some m =>
      let nums := omap parseInt (splitSpaces (trim (nth 0 (group m) []))) in
      let out := evenPrefix nums in
      if out is [] then [0; size] else out
  end.

Definition readSize (dictString : list Z) : result Z :=
  match match_ sizeRe dictString with
  | None => Throw (Error "Size not found")
  | Some m =>
      match groupInt m 1 with
      | Some size => Ok size
      | None => Throw (Error "Size not found") (* not reached *)
      end
  end.

(** [{ predictor, columns }], each [null] when its key is absent. *)
Record decodeParms := DecodeParms { predictor : option Z; columns : option Z }.

Definition parseDecodeParms (dictString : list Z) : option decodeParms :=
  match match_ decodeParmsRe dictString with
  | None => None
  | Some m =>
      let s := nth 0 (group m) [] in
      let predM := match_ predictorRe s in
      let colsM := match_ columnsRe s in
      Some (DecodeParms
              (if predM is Some pm then groupInt pm 1 else None)
              (if colsM is Some cm then groupInt cm 1 else None))
  end.

(** [out[i]], [buf[i] | 0]: a missing byte reads as 0. *)
Definition byteAt (b : list Z) (i : Z) : Z := default 0 (at_ b i).

(** [out[i] = x] on a Buffer: the low eight bits are stored; an index
    outside the buffer is ignored. *)
Definition setByte (out : list Z) (i x : Z) : list Z :=
  if i <? 0 then out else <[Z.to_nat i := Z.land x 255]> out.

(** One byte of a row: the value written to [out[outPos + i]]. *)
Definition unfilter (filter x left up upLeft : Z) : Z :=
  if filter =? 0 then x
  else if filter =? 1 then Z.land (x + left) 255
  else if filter =? 2 then Z.land (x + up) 255
  else if filter =? 3 then Z.land (x + (left + up) / 2) 255
  else if filter =? 4 then
    let a := left in
    let b := up in
    let c := upLeft in
    let p := a + b - c in
    let pa := Z.abs (p - a) in
    let pb := Z.abs (p - b) in
    let pc := Z.abs (p - c) in
    let pr := if (pa <=? pb) && (pa <=? pc) then a else if pb <=? pc then b else c in
    Z.land (x + pr) 255
  else x.

(** The [for (let i = 0; i < rowSize; i += 1)] loop over one row. *)
Fixpoint pngRow_loop (n : nat) (buf out : list Z) (filter inPos outPos prevRowStart i : Z)
    : list Z :=
  match n with
  | O => out
  | S n' =>
      let x := byteAt buf (inPos + i) in
      let left := if 0 <? i then byteAt out (outPos + i - 1) else 0 in
      let up := if 0 <=? prevRowStart then byteAt out (prevRowStart + i) else 0 in
      let upLeft := if (0 <=? prevRowStart) && (0 <? i)
                    then byteAt out (prevRowStart + i - 1) else 0 in
      let out := setByte out (outPos + i) (unfilter filter x left up upLeft) in
      pngRow_loop n' buf out filter inPos outPos prevRowStart (i + 1)
  end.

(** The [while (inPos < buf.length)] loop; every round consumes the filter
    byte of a row. *)
Fixpoint pngRows_loop (n : nat) (buf out : list Z) (rowSize inPos outPos prevRowStart : Z)
    : list Z * Z :=
  match n with
  | O => (out, outPos)
  | S n' =>
      if inPos <? len buf then
        let filter := byteAt buf inPos in
        let inPos := inPos + 1 in
        if len buf <? inPos + rowSize then (out, outPos)
        else
          let out := pngRow_loop (Z.to_nat rowSize) buf out filter inPos outPos
                       prevRowStart 0 in
          pngRows_loop n' buf out rowSize (inPos + rowSize) (outPos + rowSize) outPos
      else (out, outPos)
  end.

Definition pngPredictorDecode (buf : list Z) (columns : Z) : list Z :=
  let rowSize := columns in
  let out := replicate (length buf) 0 in
  let r := pngRows_loop (length buf) buf out rowSize 0 0 (-1) in
  slice (fst r) (Some 0) (Some (snd r)).

Fixpoint readUIntBE_loop (n : nat) (buf : list Z) (pos i acc : Z) : Z :=
  match n with
  | O => acc
  | S n' => readUIntBE_loop n' buf pos (i + 1) (bor (shl acc 8) (byteAt buf (pos + i)))
  end.

Definition readUIntBE (buf : list Z) (pos len : Z) : Z :=
  if len =? 0 then 0
  else toUint32 (readUIntBE_loop (Z.to_nat len) buf pos 0 0).

(** A compressed entry [{ objstm, index }]. *)
Record objStmEntry := ObjStmEntry { objstm : Z; indexInStream : Z }.

(** [{ objToOffset, objToObjStm }] *)
Record xrefMap := XrefMap {
  objToOffset : gmap (option Z) entry;
  objToObjStm : gmap (option Z) objStmEntry
}.

(** The data of the stream after the filters of its dictionary: the part of
    [buildXrefMapFromXrefStream] between reading [/Index] and the entry
    loops, once the stream is inflated. *)
Definition reversePredictor (dp : option decodeParms) (w0 w1 w2 : Z) (data : list Z)
    : list Z :=
  match dp with
  | Some dp =>
      match predictor dp with
      | Some pred =>
          if negb (pred =? 0) && (10 <=? pred) then
            let columns :=
              match columns dp with
              | Some c => if negb (c =? 0) && (0 <? c) then c else w0 + w1 + w2
              | None => w0 + w1 + w2
              end in
            pngPredictorDecode data columns
          else data
      | None => data
      end
  | None => data
  end.

(** The [for (let j = 0; j < count; j += 1)] loop over one subsection. *)
Fixpoint xrefEntries_loop (n : nat) (data : list Z) (w0 w1 w2 objStart j p : Z)
    (m : xrefMap) : xrefMap * Z :=
  match n with
  | O => (m, p)
  | S n' =>
      let type := readUIntBE data p w0 in
      let p := p + w0 in
      let f2 := readUIntBE data p w1 in
      let p := p + w1 in
      let f3 := readUIntBE data p w2 in
      let p := p + w2 in
      let objNum := objStart + j in
      let t := if w0 =? 0 then 1 else type in
      let m :=
        if t =? 1 then XrefMap (<[Some objNum := Entry f2 f3]> (objToOffset m)) (objToObjStm m)
        else if t =? 2
        then XrefMap (objToOffset m) (<[Some objNum := ObjStmEntry f2 f3]> (objToObjStm m))
        else m in
      xrefEntries_loop n' data w0 w1 w2 objStart (j + 1) p m
  end.

(** The [for (let i = 0; i < index.length; i += 2)] loop over [/Index]. *)
Fixpoint xrefIndex_loop (index : list Z) (data : list Z) (w0 w1 w2 p : Z) (m : xrefMap)
    : xrefMap :=
  match index with
  | objStart :: count :: index' =>
      let r := xrefEntries_loop (Z.to_nat count) data w0 w1 w2 objStart 0 p m in
      xrefIndex_loop index' data w0 w1 w2 (snd r) (fst r)
  | _ => m
  end.

Definition buildXrefMapFromXrefStream (xrefObj : streamObject) : result xrefMap :=
  size <- readSize (streamDict xrefObj) ;;
  w <- readWArray (streamDict xrefObj) ;;
  let '(w0, w1, w2) := w in
  let index := readIndexArray (streamDict xrefObj) size in
  let data := streamBuffer xrefObj in
  data <- (if test flateRe (streamDict xrefObj) then
             data <- inflateSync data ;;
             let dp := parseDecodeParms (streamDict xrefObj) in
             Ok (reversePredictor dp w0 w1 w2 data)
           else Ok data) ;;
  Ok (xrefIndex_loop index data w0 w1 w2 0 (XrefMap ∅ ∅)).

(** ** Object streams *)

(** [for (let i = 0; i + 1 < nums.length; i += 2) pairs.push({ obj, off })];
    a token that is not a number is [NaN]. *)
Fixpoint pairsOf (nums : list (option Z)) : list (option Z * option Z) :=
  match nums with
  | a :: b :: nums' => (a, b) :: pairsOf nums'
  | _ => []
  end.

(** The header of an inflated object stream as [{ obj, off }] pairs. *)
Definition objStmPairs (txt : list Z) (first : option Z) : list (option Z * option Z) :=
  let headerPart := slice txt (Some 0) (Some (default 0 first)) in
  let nums := map parseInt (splitSpaces (trim headerPart)) in
  pairsOf nums.

(** The bytes of the embedded object number [index] of the stream. *)
Definition objStmSlice (inflated : list Z) (first : option Z) (index : Z)
    : result (list Z) :=
  let pairs := objStmPairs inflated first in
  match pairs !! Z.to_nat index with
  | None => Throw (Error "ObjStm index out of range")
  | Some entry =>
      (* [null + off] is [0 + off] *)
      let start := o ← snd entry; Some (default 0 first + o) in
      let nextOff :=
        if index + 1 <? Z.of_nat (length pairs) then
          p ← pairs !! Z.to_nat (index + 1); o ← snd p; Some (default 0 first + o)
        else Some (len inflated) in
      Ok (slice inflated start nextOff)
  end.

Definition getObjectDictViaXrefMap (buffer : list Z) (xmap : xrefMap) (objNum gen : Z)
    : result (list Z) :=
  match objToOffset xmap !! Some objNum with
  | Some off =>
      o <- readIndirectObject buffer (offset off) objNum (entryGen off) ;;
      Ok (dictString o)
  | None =>
      match objToObjStm xmap !! Some objNum with
      | None => Throw (Error "Object not found in xref map")
      | Some os =>
          match objToOffset xmap !! Some (objstm os) with
          | None => Throw (Error "Object stream location not found")
          | Some osLoc =>
              osObj <- readStreamObject buffer (offset osLoc) ;;
              if negb (test typeObjStmRe (streamDict osObj))
              then Throw (Error "Not an ObjStm")
              else
                let nVal := parseIntFromDict (streamDict osObj) "N" in
                let firstVal := parseIntFromDict (streamDict osObj) "First" in
                match nVal, firstVal with
                | Some _, Some _ =>
                    match inflateSync (streamBuffer osObj) with
                    | Throw _ => Throw (Error "Failed to inflate ObjStm")
                    | Ok inflated =>
                        slice <- objStmSlice inflated firstVal (indexInStream os) ;;
                        let b := slice in
                        let dictStart := bufferIndexOf b (bytes "<<") 0 in
                        if dictStart =? -1
                        then Throw (Error "Dict not found in embedded object")
                        else
                          d <- readDictString b dictStart ;;
                          Ok (fst d)
                    end
                | _, _ => Throw (Error "ObjStm N/First missing")
                end
          end
      end
  end.

Definition getObjectContentViaXrefMap (buffer : list Z) (xmap : xrefMap) (objNum gen : Z)
    : result (list Z) :=
  match objToOffset xmap !! Some objNum with
  | Some off => readAnyObjectContent buffer (offset off) objNum (entryGen off)
  | None =>
      match objToObjStm xmap !! Some objNum with
      | None => Throw (Error "Object not found in xref map")
      | Some os =>
          match objToOffset xmap !! Some (objstm os) with
          | None => Throw (Error "Object stream location not found")
          | Some osLoc =>
              osObj <- readStreamObject buffer (offset osLoc) ;;
              match inflateSync (streamBuffer osObj) with
              | Throw _ => Throw (Error "Failed to inflate ObjStm")
              | Ok inflated =>
                  objStmSlice inflated (parseIntFromDict (streamDict osObj) "First")
                    (indexInStream os)
              end
          end
      end
  end.

(** ** The [/Prev] chain of cross-reference streams *)

(** [for (const [obj, val] of map.entries()) if (!merged.has(obj)) merged.set(obj, val)] *)
Definition mergeMissing {V} (merged map : gmap (option Z) V) : gmap (option Z) V :=
  map_fold (fun obj val merged => if merged !! obj is Some _ then merged
                                  else <[obj := val]> merged) merged map.

(** The [while] loop of [buildXrefMapFromXrefStreamChain]. *)
Fixpoint streamChain_loop (n : nat) (buffer : list Z) (merged : xrefMap)
    (prev : option Z) (hops : Z) : result xrefMap :=
  match n with
  | O => Ok merged
  | S n' =>
      match prev with
      | Some prev =>
          if (0 <? prev) && (prev <? len buffer) && (hops <? 10) then
            let token := readAscii buffer prev 4 in
            if sameString token (bytes "xref") then
              r <- buildClassicXrefOffsetsFollowingPrevChain buffer prev ;;
              Ok (XrefMap (mergeMissing (objToOffset merged) (fst r)) (objToObjStm merged))
            else
              xo <- readStreamObject buffer prev ;;
              if negb (test typeXRefRe (streamDict xo)) then Ok merged
              else
                map <- buildXrefMapFromXrefStream xo ;;
                let merged :=
                  XrefMap (mergeMissing (objToOffset merged) (objToOffset map))
                          (mergeMissing (objToObjStm merged) (objToObjStm map)) in
                let dict := streamDict xo in
                streamChain_loop n' buffer merged (parseIntFromDict dict "Prev") (hops + 1)
          else Ok merged
      | None => Ok merged
      end
  end.

Definition buildXrefMapFromXrefStreamChain (buffer : list Z) (firstXrefObj : streamObject)
    : result xrefMap :=
  merged <- buildXrefMapFromXrefStream firstXrefObj ;;
  let dict := streamDict firstXrefObj in
  let prev := parseIntFromDict dict "Prev" in
  streamChain_loop 11 buffer merged prev 0.

(** ** Accurate traversal using a cross-reference stream *)

Definition kidsViaXrefMap (buffer : list Z) (xmap : xrefMap) (dict : list Z)
    : result (list ref) :=
  let kids := parseKidsArray dict in
  if kids is [] then
    match parseIndirectRefFromDict dict "Kids" with
    | Some kidsRef =>
        arrStr <- getObjectContentViaXrefMap buffer xmap (obj kidsRef) (gen kidsRef) ;;
        Ok (parseKidsArrayFromArrayString arrStr)
    | None => Ok kids
    end
  else Ok kids.

(** The [for (const k of kids)] loop of [traversePagesNodeXref]. *)
Fixpoint sumKidsXref (recur : ref -> result Z) (buffer : list Z) (xmap : xrefMap)
    (kids : list ref) (sum : Z) : result Z :=
  match kids with
  | [] => Ok sum
  | k :: kids' =>
      cdict <- getObjectDictViaXrefMap buffer xmap (obj k) (gen k) ;;
      if test typePageRe cdict then sumKidsXref recur buffer xmap kids' (sum + 1)
      else if test typePagesRe cdict then
        v <- recur k ;;
        sumKidsXref recur buffer xmap kids' (sum + v)
      else sumKidsXref recur buffer xmap kids' sum
  end.

Fixpoint traversePagesNodeXref (stack : nat) (buffer : list Z) (xmap : xrefMap)
    (nodeRef : ref) : result Z :=
  match stack with
  | O => Throw RangeError
  | S stack' =>
      dict <- getObjectDictViaXrefMap buffer xmap (obj nodeRef) (gen nodeRef) ;;
      if test typePageRe dict then Ok 1
      else if negb (test typePagesRe dict) then Ok 0
      else
        let cnt := parseIntFromDict dict "Count" in
        kids <- kidsViaXrefMap buffer xmap dict ;;
        if kids is [] then Ok (countOrZero cnt)
        else
          sum <- sumKidsXref (traversePagesNodeXref stack' buffer xmap) buffer xmap kids 0 ;;
          Ok (sumOrCount sum cnt)
  end.

Definition traversePageTreeWithXrefStream (stack : nat) (buffer : list Z) (xmap : xrefMap)
    (rootRef : ref) : result Z :=
  catalogDict <- getObjectDictViaXrefMap buffer xmap (obj rootRef) (gen rootRef) ;;
  match parseIndirectRefFromDict catalogDict "Pages" with
  | None => Throw (Error "Pages not found")
  | Some pagesRef => traversePagesNodeXref stack buffer xmap pagesRef
  end.

Definition countPagesViaXrefStreamTraversal (stack : nat) (buffer : list Z) : result Z :=
  let startXrefPos := findStartXref buffer in
  if startXrefPos <? 0 then Throw (Error "startxref not found")
  else
    xrefOffset <- parseStartXrefOffset buffer startXrefPos ;;
    xrefObj <- readStreamObject buffer xrefOffset ;;
    if negb (test typeXRefRe (streamDict xrefObj)) then Throw (Error "Not XRef stream")
    else
      match parseIndirectRefFromDict (streamDict xrefObj) "Root" with
      | None => Throw (Error "Root not found in trailer")
      | Some rootRef =>
          xmap <- buildXrefMapFromXrefStreamChain buffer xrefObj ;;
          traversePageTreeWithXrefStream stack buffer xmap rootRef
      end.

(** ** The [/Count] fast path through a cross-reference stream *)

Definition parsePageCountViaXrefStream (buffer : list Z) : result Z :=
  let startXrefPos := findStartXref buffer in
  if startXrefPos <? 0 then Throw (Error "startxref not found")
  else
    xrefOffset <- parseStartXrefOffset buffer startXrefPos ;;
    if (xrefOffset <=? 0) || (len buffer <=? xrefOffset)
    then Throw (Error "Invalid xref offset")
    else
      xrefObj <- readStreamObject buffer xrefOffset ;;
      if negb (test typeXRefRe (streamDict xrefObj)) then Throw (Error "Not an XRef stream")
      else
        match parseIndirectRefFromDict (streamDict xrefObj) "Root" with
        | None => Throw (Error "Root not in XRef trailer")
        | Some rootRef =>
            xmap <- buildXrefMapFromXrefStream xrefObj ;;
            catalogDict <- getObjectDictViaXrefMap buffer xmap (obj rootRef) (gen rootRef) ;;
            match parseIndirectRefFromDict catalogDict "Pages" with
            | None => Throw (Error "Pages ref not in Catalog")
            | Some pagesRef =>
                pagesDict <- getObjectDictViaXrefMap buffer xmap
                               (obj pagesRef) (gen pagesRef) ;;
                match parseIntFromDict pagesDict "Count" with
                | Some count =>
                    if count <=? 0 then Throw (Error "Count not found") else Ok count
                | None => Throw (Error "Count not found")
                end
            end
        end.

(** ** The orchestrator *)

Inductive strategy :=
| XrefStreamTraversal   (* 1) page tree via xref stream *)
| ClassicTraversal      (* 2) page tree via classic xref *)
| ClassicCount          (* 3) /Count via classic xref, guarded *)
| XrefStreamCount       (* 4) /Count via xref stream, guarded *)
| NearestCountScan      (* 5) scanMaxPagesCount *)
| InflatedStreamScan    (* 5) scanMaxPagesCountFromObjectStreams *)
| PageObjectCounter.    (* 5) countPagesByPageObjects *)

(** A run of [countPdfPagesSync]: the strategies it started, in order, and
    how it ended. *)
Definition execution : Type := list strategy * result Z.

(** Strategy [s] was started before the execution [next]. *)
Definition after (s : strategy) (next : execution) : execution :=
  (s :: fst next, snd next).

(** One block of the waterfall.  The block starts strategy [s]; [returned]
    is [Some n] when the block executes [return n], and [None] when control
    falls through to the rest of the function. *)
Definition orElse (s : strategy) (returned : option Z) (next : execution) : execution :=
  match returned with
  | Some n => ([s], Ok n)
  | None => after s next
  end.

(** [if (Number.isInteger(n) && n > 0) return n] *)
Definition positive (n : Z) : option Z := if 0 <? n then Some n else None.

(** [const approx = countPagesByPageObjects(buffer); return approx > n ? approx : n] *)
Definition guarded (buffer : list Z) (n : Z) : Z :=
  let approx := countPagesByPageObjects buffer in
  if n <? approx then approx else n.

Definition countPdfPagesSync_run (stack : nat) (buffer : list Z) : execution :=
  orElse XrefStreamTraversal
    (n ← try_ (countPagesViaXrefStreamTraversal stack buffer); positive n) $
  orElse ClassicTraversal
    (n ← try_ (countPagesViaClassicTraversal stack buffer); positive n) $
  orElse ClassicCount
    (n ← try_ (parsePageCountViaClassicXref buffer);
     if 0 <? n then Some (guarded buffer n) else None) $
  orElse XrefStreamCount
    (n ← try_ (parsePageCountViaXrefStream buffer);
     if 0 <? n then Some (guarded buffer n) else None) $
  orElse NearestCountScan (positive (scanMaxPagesCount buffer)) $
  orElse InflatedStreamScan (positive (scanMaxPagesCountFromObjectStreams buffer)) $
  orElse PageObjectCounter (positive (countPagesByPageObjects buffer)) $
  ([], Throw (Error "PDF page count not found")).

(** [countPdfPagesSync(input)] for a Buffer input ([loadToBufferSync] returns
    a Buffer unchanged). *)
Definition countPdfPagesSync (stack : nat) (buffer : list Z) : result Z :=
  snd (countPdfPagesSync_run stack buffer).

End Engine.

(** ** A stand-in for zlib in the examples

    Concrete documents need a concrete [inflateSync].  [Stored.inflate]
    decodes the zlib streams that consist of stored (uncompressed) deflate
    blocks, checks the header and the Adler-32 trailer, and rejects every
    other stream; [Stored.deflate] writes such a stream (what zlib produces
    at compression level 0 for short inputs). *)

Module Stored.

Definition adler32 (data : list Z) : Z :=
  let ab := fold_left (fun ab x =>
                         let a := (fst ab + x) mod 65521 in
                         (a, (snd ab + a) mod 65521)) data (1, 0) in
  snd ab * 65536 + fst ab.

Definition deflate (data : list Z) : list Z :=
  let n := len data in
  let a := adler32 data in
  [0x78; 0x01; 0x01; n mod 256; n / 256; 255 - n mod 256; 255 - n / 256]
  ++ data
  ++ [a / 2 ^ 24; (a / 2 ^ 16) mod 256; (a / 2 ^ 8) mod 256; a mod 256].

Fixpoint blocks (n : nat) (s acc : list Z) : option (list Z * list Z) :=
  match n with
  | O => None
  | S n' =>
      match s with
      | hdr :: l0 :: l1 :: n0 :: n1 :: s' =>
          let size := l0 + 256 * l1 in
          if (Z.land hdr 6 =? 0) && (n0 + 256 * n1 =? 65535 - size)
             && (size <=? len s') then
            let acc := acc ++ take (Z.to_nat size) s' in
            if Z.testbit hdr 0 then Some (acc, drop (Z.to_nat size) s')
            else blocks n' (drop (Z.to_nat size) s') acc
          else None
      | _ => None
      end
  end.

Definition inflate (s : list Z) : result (list Z) :=
  match s with
  | cmf :: flg :: body =>
      if (Z.land cmf 15 =? 8) && ((cmf * 256 + flg) mod 31 =? 0)
         && negb (Z.testbit flg 5) then
        match blocks (length body) body [] with
        | Some (data, [a3; a2; a1; a0]) =>
            if adler32 data =? ((a3 * 256 + a2) * 256 + a1) * 256 + a0
            then Ok data else Throw ZlibError
        | _ => Throw ZlibError
        end
      else Throw ZlibError
  | _ => Throw ZlibError
  end.

End Stored.

(** ** Example documents *)

(** The bytes of a text given line by line, each line ended by LF. *)
Definition lines (ls : list string) : list Z :=
  concat (map (fun l => bytes l ++ [0x0a]) ls).

(** A one-page document with a classic cross-reference table. *)
Definition pdfOnePage : list Z :=
  lines ["%PDF-1.4";
         "1 0 obj";
         "<< /Type /Catalog /Pages 2 0 R >>";
         "endobj";
         "2 0 obj";
         "<< /Type /Pages /Kids [3 0 R] /Count 1 >>";
         "endobj";
         "3 0 obj";
         "<< /Type /Page /Parent 2 0 R >>";
         "endobj";
         "xref";
         "0 4";
         "0000000000 65535 f ";
         "0000000009 00000 n ";
         "0000000058 00000 n ";
         "0000000115 00000 n ";
         "trailer";
         "<< /Size 4 /Root 1 0 R >>";
         "startxref";
         "162";
         "%%EOF"].

(** Five page objects under a root that reports [/Count 1]; the sixth kid has
    a cross-reference entry that points at the file header, so reading it
    fails. *)
Definition pdfTruncatedCount : list Z :=
  lines ["%PDF-1.4";
         "1 0 obj";
         "<< /Type /Catalog /Pages 2 0 R >>";
         "endobj";
         "2 0 obj";
         "<< /Type /Pages /Count 1 /Kids [3 0 R 4 0 R 5 0 R 6 0 R 7 0 R 8 0 R] >>";
         "endobj";
         "3 0 obj";
         "<< /Type /Page /Parent 2 0 R >>";
         "endobj";
         "4 0 obj";
         "<< /Type /Page /Parent 2 0 R >>";
         "endobj";
         "5 0 obj";
         "<< /Type /Page /Parent 2 0 R >>";
         "endobj";
         "6 0 obj";
         "<< /Type /Page /Parent 2 0 R >>";
         "endobj";
         "7 0 obj";
         "<< /Type /Page /Parent 2 0 R >>";
         "endobj";
         "xref";
         "0 9";
         "0000000000 65535 f ";
         "0000000009 00000 n ";
         "0000000058 00000 n ";
         "0000000145 00000 n ";
         "0000000192 00000 n ";
         "0000000239 00000 n ";
         "0000000286 00000 n ";
         "0000000333 00000 n ";
         "0000000000 00000 n ";
         "trailer";
         "<< /Size 9 /Root 1 0 R >>";
         "startxref";
         "380";
         "%%EOF"].

(** A root [/Pages] node with [/Count 7] whose only kid is a [/Pages] node
    without kids and without [/Count]. *)
Definition pdfEmptyKid : list Z :=
  lines ["%PDF-1.4";
         "1 0 obj";
         "<< /Type /Catalog /Pages 2 0 R >>";
         "endobj";
         "2 0 obj";
         "<< /Type /Pages /Kids [3 0 R] /Count 7 >>";
         "endobj";
         "3 0 obj";
         "<< /Type /Pages /Parent 2 0 R >>";
         "endobj";
         "xref";
         "0 4";
         "0000000000 65535 f ";
         "0000000009 00000 n ";
         "0000000058 00000 n ";
         "0000000115 00000 n ";
         "trailer";
         "<< /Size 4 /Root 1 0 R >>";
         "startxref";
         "163";
         "%%EOF"].

(** A root [/Pages] node that lists itself among its kids. *)
Definition pdfSelfLoop : list Z :=
  lines ["%PDF-1.4";
         "1 0 obj";
         "<< /Type /Catalog /Pages 2 0 R >>";
         "endobj";
         "2 0 obj";
         "<< /Type /Pages /Kids [2 0 R] /Count 1 >>";
         "endobj";
         "xref";
         "0 3";
         "0000000000 65535 f ";
         "0000000009 00000 n ";
         "0000000058 00000 n ";
         "trailer";
         "<< /Size 3 /Root 1 0 R >>";
         "startxref";
         "115";
         "%%EOF"].

(** A root [/Pages] node that lists itself as its second kid; its first kid has
    a cross-reference entry that points at the file header. *)
Definition pdfBrokenLoop : list Z :=
  lines ["%PDF-1.4";
         "1 0 obj";
         "<< /Type /Catalog /Pages 2 0 R >>";
         "endobj";
         "2 0 obj";
         "<< /Type /Pages /Kids [3 0 R 2 0 R] /Count 1 >>";
         "endobj";
         "xref";
         "0 4";
         "0000000000 65535 f ";
         "0000000009 00000 n ";
         "0000000058 00000 n ";
         "0000000000 00000 n ";
         "trailer";
         "<< /Size 4 /Root 1 0 R >>";
         "startxref";
         "121";
         "%%EOF"].

(** A document whose trailer [/Prev] points at its own cross-reference table. *)
Definition pdfCyclicPrev : list Z :=
  lines ["%PDF-1.4";
         "1 0 obj";
         "<< /Type /Catalog /Pages 2 0 R >>";
         "endobj";
         "2 0 obj";
         "<< /Type /Pages /Kids [3 0 R] /Count 1 >>";
         "endobj";
         "3 0 obj";
         "<< /Type /Page /Parent 2 0 R >>";
         "endobj";
         "xref";
         "0 4";
         "0000000000 65535 f ";
         "0000000009 00000 n ";
         "0000000058 00000 n ";
         "0000000115 00000 n ";
         "trailer";
         "<< /Size 4 /Root 1 0 R /Prev 162 >>";
         "startxref";
         "162";
         "%%EOF"].

(** A document with an incremental update: the second revision replaces
    object 2 and adds a second page; its trailer points back with [/Prev]. *)
Definition pdfUpdated : list Z :=
  lines ["%PDF-1.4";
         "1 0 obj";
         "<< /Type /Catalog /Pages 2 0 R >>";
         "endobj";
         "2 0 obj";
         "<< /Type /Pages /Kids [3 0 R] /Count 1 >>";
         "endobj";
         "3 0 obj";
         "<< /Type /Page /Parent 2 0 R >>";
         "endobj";
         "xref";
         "0 4";
         "0000000000 65535 f ";
         "0000000009 00000 n ";
         "0000000058 00000 n ";
         "0000000115 00000 n ";
         "trailer";
         "<< /Size 4 /Root 1 0 R >>";
         "startxref";
         "162";
         "%%EOF";
         "2 0 obj";
         "<< /Type /Pages /Kids [3 0 R 4 0 R] /Count 2 >>";
         "endobj";
         "4 0 obj";
         "<< /Type /Page /Parent 2 0 R >>";
         "endobj";
         "xref";
         "2 1";
         "0000000305 00000 n ";
         "4 1";
         "0000000368 00000 n ";
         "trailer";
         "<< /Size 5 /Root 1 0 R /Prev 162 >>";
         "startxref";
         "415";
         "%%EOF"].

(** A one-page document whose cross-reference is an (unfiltered) stream. *)
Definition pdfXrefStream : list Z :=
  lines ["%PDF-1.5";
         "1 0 obj";
         "<< /Type /Catalog /Pages 2 0 R >>";
         "endobj";
         "2 0 obj";
         "<< /Type /Pages /Kids [3 0 R] /Count 1 >>";
         "endobj";
         "3 0 obj";
         "<< /Type /Page /Parent 2 0 R >>";
         "endobj";
         "4 0 obj";
         "<< /Type /XRef /Size 5 /W [1 2 1] /Root 1 0 R >>";
         "stream"]
  ++ [0; 0; 0; 255; 1; 0; 9; 0; 1; 0; 58; 0; 1; 0; 115; 0; 1; 0; 162; 0]
  ++ bytes "endstream"
  ++ lines ["";
         "endobj";
         "startxref";
         "162";
         "%%EOF"].

(** A cross-reference stream document whose root reports [/Count 2]; its
    second kid has an entry that points at the file header. *)
Definition pdfXrefStreamGuard : list Z :=
  lines ["%PDF-1.5";
         "1 0 obj";
         "<< /Type /Catalog /Pages 2 0 R >>";
         "endobj";
         "2 0 obj";
         "<< /Type /Pages /Kids [3 0 R 4 0 R] /Count 2 >>";
         "endobj";
         "3 0 obj";
         "<< /Type /Page /Parent 2 0 R >>";
         "endobj";
         "5 0 obj";
         "<< /Type /XRef /Size 6 /W [1 2 1] /Root 1 0 R >>";
         "stream"]
  ++ [0; 0; 0; 255; 1; 0; 9; 0; 1; 0; 58; 0; 1; 0; 121; 0; 1; 0; 0; 0; 1; 0; 168; 0]
  ++ bytes "endstream"
  ++ lines ["";
         "endobj";
         "startxref";
         "168";
         "%%EOF"].

(** The one-page document with a FlateDecode cross-reference stream and
    [/Predictor 12]. *)
Definition pdfPredictor12 : list Z :=
  lines ["%PDF-1.5";
         "1 0 obj";
         "<< /Type /Catalog /Pages 2 0 R >>";
         "endobj";
         "2 0 obj";
         "<< /Type /Pages /Kids [3 0 R] /Count 1 >>";
         "endobj";
         "3 0 obj";
         "<< /Type /Page /Parent 2 0 R >>";
         "endobj";
         "4 0 obj";
         "<< /Type /XRef /Size 5 /W [1 2 1] /Root 1 0 R /Filter /FlateDecode /DecodeParms << /Predictor 12 /Columns 4 >> >>";
         "stream"]
  ++ Stored.deflate [2; 0; 0; 0; 255; 2; 1; 0; 9; 1; 2; 0; 0; 49; 0; 2; 0; 0; 57; 0; 2; 0; 0; 47; 0]
  ++ bytes "endstream"
  ++ lines ["";
         "endobj";
         "startxref";
         "162";
         "%%EOF"].

(** The same document with [/Predictor 10]. *)
Definition pdfPredictor10 : list Z :=
  lines ["%PDF-1.5";
         "1 0 obj";
         "<< /Type /Catalog /Pages 2 0 R >>";
         "endobj";
         "2 0 obj";
         "<< /Type /Pages /Kids [3 0 R] /Count 1 >>";
         "endobj";
         "3 0 obj";
         "<< /Type /Page /Parent 2 0 R >>";
         "endobj";
         "4 0 obj";
         "<< /Type /XRef /Size 5 /W [1 2 1] /Root 1 0 R /Filter /FlateDecode /DecodeParms << /Predictor 10 /Columns 4 >> >>";
         "stream"]
  ++ Stored.deflate [2; 0; 0; 0; 255; 2; 1; 0; 9; 1; 2; 0; 0; 49; 0; 2; 0; 0; 57; 0; 2; 0; 0; 47; 0]
  ++ bytes "endstream"
  ++ lines ["";
         "endobj";
         "startxref";
         "162";
         "%%EOF"].

(** Two FlateDecode streams: the first holds a page tree root with [/Count 2],
    the second one with [/Count 9]. *)
Definition pdfTwoStreams : list Z :=
  lines ["%PDF-1.5";
         "1 0 obj";
         "<< /Filter /FlateDecode >>";
         "stream"]
  ++ Stored.deflate (bytes "<< /Type /Pages /Count 2 >>")
  ++ bytes "endstream"
  ++ lines ["";
         "endobj";
         "2 0 obj";
         "<< /Filter /FlateDecode >>";
         "stream"]
  ++ Stored.deflate (bytes "<< /Type /Pages /Count 9 >>")
  ++ bytes "endstream"
  ++ lines ["";
         "endobj"].

(** A document updated by a writer that uses object streams: the first
    revision has a classic table; the update stores the new version of
    object 2 (now two kids, [/Count 2]) inside the object stream 5, adds the
    page 4, and ends with a cross-reference stream whose [/Prev] points at
    the first revision. *)
Definition pdfCompressedUpdate : list Z :=
  lines ["%PDF-1.5";
         "1 0 obj";
         "<< /Type /Catalog /Pages 2 0 R >>";
         "endobj";
         "2 0 obj";
         "<< /Type /Pages /Kids [3 0 R] /Count 1 >>";
         "endobj";
         "3 0 obj";
         "<< /Type /Page /Parent 2 0 R >>";
         "endobj";
         "xref";
         "0 4";
         "0000000000 65535 f ";
         "0000000009 00000 n ";
         "0000000058 00000 n ";
         "0000000115 00000 n ";
         "trailer";
         "<< /Size 4 /Root 1 0 R >>";
         "startxref";
         "162";
         "%%EOF";
         "4 0 obj";
         "<< /Type /Page /Parent 2 0 R >>";
         "endobj";
         "5 0 obj";
         "<< /Type /ObjStm /N 1 /First 4 /Filter /FlateDecode >>";
         "stream"]
  ++ Stored.deflate (bytes "2 0 << /Type /Pages /Kids [3 0 R 4 0 R] /Count 2 >>")
  ++ bytes "endstream"
  ++ lines ["";
         "endobj";
         "6 0 obj";
         "<< /Type /XRef /Size 7 /W [1 2 1] /Index [2 1 4 3] /Root 1 0 R /Prev 162 >>";
         "stream"]
  ++ [2; 0; 5; 0; 1; 1; 49; 0; 1; 1; 96; 0; 1; 1; 245; 0]
  ++ bytes "endstream"
  ++ lines ["";
         "endobj";
         "startxref";
         "501";
         "%%EOF"].


(** ** The waterfall as the specification describes it *)

(** The seven strategies in the order of the specification. *)
Definition order : list strategy :=
  [XrefStreamTraversal; ClassicTraversal; ClassicCount; XrefStreamCount;
   NearestCountScan; InflatedStreamScan; PageObjectCounter].

(** A list of strategies, each yielding a positive integer or nothing,
    scanned in order: the strategies started, and the first value yielded. *)
Fixpoint firstPositive (yield : strategy -> option Z) (ss : list strategy) : execution :=
  match ss with
  | [] => ([], Throw (Error "PDF page count not found"))
  | s :: ss' =>
      match yield s with
      | Some n => ([s], Ok n)
      | None => after s (firstPositive yield ss')
      end
  end.

Section Yield.

Variable inflateSync : list Z -> result (list Z).

(** What a strategy yields on a buffer: [Some n] when it produces the
    positive integer [n], [None] when it throws or produces nothing
    positive.  Strategies 3 and 4 trust [/Count] but prefer the page-object
    counter when that is strictly larger. *)
Definition yield (stack : nat) (buffer : list Z) (s : strategy) : option Z :=
  match s with
  | XrefStreamTraversal =>
      match countPagesViaXrefStreamTraversal inflateSync stack buffer with
      | Ok n => positive n
      | Throw _ => None
      end
  | ClassicTraversal =>
      match countPagesViaClassicTraversal stack buffer with
      | Ok n => positive n
      | Throw _ => None
      end
  | ClassicCount =>
      match parsePageCountViaClassicXref buffer with
      | Ok n => if 0 <? n
                then Some (Z.max n (countPagesByPageObjects inflateSync buffer))
                else None
      | Throw _ => None
      end
  | XrefStreamCount =>
      match parsePageCountViaXrefStream inflateSync buffer with
      | Ok n => if 0 <? n
                then Some (Z.max n (countPagesByPageObjects inflateSync buffer))
                else None
      | Throw _ => None
      end
  | NearestCountScan => positive (scanMaxPagesCount buffer)
  | InflatedStreamScan => positive (scanMaxPagesCountFromObjectStreams inflateSync buffer)
  | PageObjectCounter => positive (countPagesByPageObjects inflateSync buffer)
  end.

End Yield.

(** ** Cross-reference stream entries as the specification describes them *)

(** The big-endian unsigned integer written by a sequence of octets. *)
Definition bigEndian (bs : list Z) : Z :=
  fold_left (fun acc b => acc * 256 + b) bs 0.

(** The same, kept to 32 bits. *)
Definition bigEndian32 (bs : list Z) : Z := bigEndian bs mod 2 ^ 32.

(** The [w] octets of [data] from position [p]; a position past the end of
    the data contributes 0. *)
Definition fieldBytes (data : list Z) (p w : Z) : list Z :=
  map (fun i => byteAt data (p + i)) (seqZ 0 w).

(** A decoded entry: object number, type, second and third field. *)
Definition decodedEntry : Type := Z * Z * Z * Z.

(** Entry number [j] of a subsection that starts at object [objStart] and at
    position [p] of the data: [w0 + w1 + w2] octets read as three numbers by
    [number]; the type is 1 when [w0] is 0. *)
Definition entryAt (number : list Z -> Z) (data : list Z) (w0 w1 w2 objStart p j : Z)
    : decodedEntry :=
  let q := p + j * (w0 + w1 + w2) in
  (objStart + j,
   if w0 =? 0 then 1 else number (fieldBytes data q w0),
   number (fieldBytes data (q + w0) w1),
   number (fieldBytes data (q + w0 + w1) w2)).

(** The entries of the stream in the order of the [/Index] subsections. *)
Fixpoint indexEntries (number : list Z -> Z) (index data : list Z) (w0 w1 w2 p : Z)
    : list decodedEntry :=
  match index with
  | objStart :: count :: index' =>
      map (entryAt number data w0 w1 w2 objStart p) (seqZ 0 count)
      ++ indexEntries number index' data w0 w1 w2 (p + Z.max 0 count * (w0 + w1 + w2))
  | _ => []
  end.

(** Type 1 records a direct entry, type 2 a compressed one, anything else is
    ignored. *)
Definition recordEntry (m : xrefMap) (e : decodedEntry) : xrefMap :=
  let '(objNum, type, f2, f3) := e in
  if type =? 1
  then XrefMap (<[Some objNum := Entry f2 f3]> (objToOffset m)) (objToObjStm m)
  else if type =? 2
  then XrefMap (objToOffset m) (<[Some objNum := ObjStmEntry f2 f3]> (objToObjStm m))
  else m.

(** A buffer holds octets. *)
Definition isOctet (b : Z) : bool := (0 <=? b) && (b <? 256).
Definition octets (data : list Z) : bool := forallb isOctet data.

(** Data in which one five-byte field holds 2^32. *)
Definition wideFieldData : list Z := [1; 1; 0; 0; 0; 0; 0].

(** ** Objects of the example documents *)

(** The stream object at [offset], or an empty one when there is none. *)
Definition streamObjectAt (buffer : list Z) (offset : Z) : streamObject :=
  match readStreamObject buffer offset with
  | Ok xo => xo
  | Throw _ => StreamObject [] []
  end.

(** The states of the chain loop on [pdfUpdated]: after the latest revision
    is read, and at the end. *)
Definition pdfUpdated_latest : chainState :=
  ChainState {[Some 2 := Entry 305 0; Some 4 := Entry 368 0]}
    (bytes "<< /Size 5 /Root 1 0 R /Prev 162 >>") 162 1.

Definition pdfUpdated_merged : chainState :=
  ChainState {[Some 1 := Entry 9 0; Some 2 := Entry 305 0; Some 3 := Entry 115 0;
               Some 4 := Entry 368 0]}
    (bytes "<< /Size 5 /Root 1 0 R /Prev 162 >>") 162 1.

(** ** What the /Prev chain may change *)

(** The offset map only grows, and a trailer dictionary that is set stays. *)
Definition chainExtends (st st' : chainState) : Prop :=
  objectOffsets st ⊆ objectOffsets st'
  /\ (trailerDictString st <> [] -> trailerDictString st' = trailerDictString st).

(** Each of the two mappings only grows. *)
Definition xrefMapExtends (m m' : xrefMap) : Prop :=
  objToOffset m ⊆ objToOffset m' /\ objToObjStm m ⊆ objToObjStm m'.

(** ** Streams in buffer order *)

Section Productive.

Variable inflateSync : list Z -> result (list Z).

(** [firstProductive buffer pos idx v]: going through the [stream] keywords
    of the buffer from [pos] on, the one at [idx] is the first whose body
    inflates and yields a positive local maximum, [v]. *)
Inductive firstProductive (buffer : list Z) : Z -> Z -> Z -> Prop :=
| productive_here pos idx v :
    indexOf buffer (bytes "stream") pos = idx -> idx <> -1 ->
    streamLocalMax inflateSync buffer idx = Some v -> 0 < v ->
    firstProductive buffer pos idx v
| productive_later pos idx' idx v :
    indexOf buffer (bytes "stream") pos = idx' -> idx' <> -1 ->
    (forall v', streamLocalMax inflateSync buffer idx' = Some v' -> v' <= 0) ->
    firstProductive buffer (idx' + len (bytes "stream")) idx v ->
    firstProductive buffer pos idx v.

End Productive.

(** ** The page tree as the traversals see it *)

(** What a traversal makes of the object it is called on. *)
Inductive nodeView :=
| PageNode                                    (* /Type /Page *)
| OtherNode                                   (* neither /Type /Page nor /Type /Pages *)
| PagesNode (cnt : option Z) (kids : list ref). (* /Type /Pages, its /Count and kids *)

(** What the loop over the kids makes of one kid. *)
Inductive kidKind :=
| PageKid    (* counted as one page *)
| PagesKid   (* traversed recursively *)
| OtherKid.  (* skipped *)

Definition kindOf (v : nodeView) : kidKind :=
  match v with
  | PageNode => PageKid
  | OtherNode => OtherKid
  | PagesNode _ _ => PagesKid
  end.

(** The steps of [traversePagesNodeMap] before the loop over the kids. *)
Definition nodeViewMap (buffer : list Z) (objOffsets : gmap (option Z) entry)
    (nodeRef : ref) : result nodeView :=
  match objOffsets !! Some (obj nodeRef) with
  | None => Throw (Error "Node not found")
  | Some entry =>
      o <- readIndirectObject buffer (offset entry) (obj nodeRef) (gen nodeRef) ;;
      let dict := dictString o in
      if test typePageRe dict then Ok PageNode
      else if negb (test typePagesRe dict) then Ok OtherNode
      else
        kids <- kidsViaOffsets buffer objOffsets dict ;;
        Ok (PagesNode (parseIntFromDict dict "Count") kids)
  end.

(** The tests of the loop body of [traversePagesNodeMap] on kid [k]; a kid
    without an entry is skipped. *)
Definition kidKindMap (buffer : list Z) (objOffsets : gmap (option Z) entry)
    (k : ref) : result kidKind :=
  match objOffsets !! Some (obj k) with
  | None => Ok OtherKid
  | Some childEntry =>
      childObj <- readIndirectObject buffer (offset childEntry) (obj k) (gen k) ;;
      let cdict := dictString childObj in
      if test typePageRe cdict then Ok PageKid
      else if test typePagesRe cdict then Ok PagesKid
      else Ok OtherKid
  end.

Section Views.

Variable inflateSync : list Z -> result (list Z).

(** The same for [traversePagesNodeXref]. *)
Definition nodeViewXref (buffer : list Z) (xmap : xrefMap) (nodeRef : ref)
    : result nodeView :=
  dict <- getObjectDictViaXrefMap inflateSync buffer xmap (obj nodeRef) (gen nodeRef) ;;
  if test typePageRe dict then Ok PageNode
  else if negb (test typePagesRe dict) then Ok OtherNode
  else
    kids <- kidsViaXrefMap inflateSync buffer xmap dict ;;
    Ok (PagesNode (parseIntFromDict dict "Count") kids).

Definition kidKindXref (buffer : list Z) (xmap : xrefMap) (k : ref) : result kidKind :=
  cdict <- getObjectDictViaXrefMap inflateSync buffer xmap (obj k) (gen k) ;;
  if test typePageRe cdict then Ok PageKid
  else if test typePagesRe cdict then Ok PagesKid
  else Ok OtherKid.

End Views.

(** The shape the two traversals share. *)
Section Traversal.

Variable node : ref -> result nodeView.
Variable kind : ref -> result kidKind.

Fixpoint sumKids (recur : ref -> result Z) (kids : list ref) (sum : Z) : result Z :=
  match kids with
  | [] => Ok sum
  | k :: kids' =>
      kd <- kind k ;;
      match kd with
      | PageKid => sumKids recur kids' (sum + 1)
      | PagesKid => v <- recur k ;; sumKids recur kids' (sum + v)
      | OtherKid => sumKids recur kids' sum
      end
  end.

Fixpoint traverse (stack : nat) (nodeRef : ref) : result Z :=
  match stack with
  | O => Throw RangeError
  | S stack' =>
      v <- node nodeRef ;;
      match v with
      | PageNode => Ok 1
      | OtherNode => Ok 0
      | PagesNode cnt kids =>
          if kids is [] then Ok (countOrZero cnt)
          else
            sum <- sumKids (traverse stack') kids 0 ;;
            Ok (sumOrCount sum cnt)
      end
  end.

(** The traversal of [a] calls itself on its kid [b]. *)
Definition descends (a b : ref) : Prop :=
  exists cnt kids, node a = Ok (PagesNode cnt kids) /\ b ∈ kids /\ kind b = Ok PagesKid.

(** The traversal of [r] completes with [enough] frames, and with any more
    frames it gives the same result. *)
Definition completes (enough : nat) (r : ref) : Prop :=
  forall stack, (enough <= stack)%nat ->
    traverse stack r = traverse enough r
    /\ traverse stack r <> Throw RangeError.

(** No chain of recursive calls from [root] goes on for ever: the kids that
    the traversal follows from [root] form an acyclic graph. *)
Definition acyclicFrom (root : ref) : Prop := Acc (fun b a => descends a b) root.

End Traversal.

(** The sum of the page counts of the kids. *)
Definition total (counts : list Z) : Z := foldr Z.add 0 counts.

(** The offset map of a document with classic cross-reference tables. *)
Definition classicOffsetsOf (buffer : list Z) : gmap (option Z) entry :=
  match (xrefOffset <- parseStartXrefOffset buffer (findStartXref buffer) ;;
         buildClassicXrefOffsetsFollowingPrevChain buffer xrefOffset) with
  | Ok r => fst r
  | Throw _ => ∅
  end.

(** The indirect object at [offset], or an empty one when there is none. *)
Definition objectAt (buffer : list Z) (offset : Z) : indirectObject :=
  match readIndirectObject buffer offset 0 0 with
  | Ok o => o
  | Throw _ => IndirectObject [] [] []
  end.

(** The cross-reference map of a document whose [startxref] points at a
    cross-reference stream at [offset]: of the latest revision alone, and
    merged along the [/Prev] chain. *)
Definition latestXrefMapOf (buffer : list Z) (offset : Z) : xrefMap :=
  match buildXrefMapFromXrefStream Stored.inflate (streamObjectAt buffer offset) with
  | Ok m => m
  | Throw _ => XrefMap ∅ ∅
  end.

Definition mergedXrefMapOf (buffer : list Z) (offset : Z) : xrefMap :=
  match buildXrefMapFromXrefStreamChain Stored.inflate buffer
          (streamObjectAt buffer offset) with
  | Ok m => m
  | Throw _ => XrefMap ∅ ∅
  end.

(** ** Plainly nested dictionaries *)

(** What stands between the [<<] and the [>>] of a dictionary whose
    nesting is plain: bytes other than [<] and [>], and dictionaries of the
    same kind. *)
Inductive dictBody : list Z -> Prop :=
| dictBody_nil : dictBody []
| dictBody_byte (c : Z) (s : list Z) :
    c <> 0x3c -> c <> 0x3e -> dictBody s -> dictBody (c :: s)
| dictBody_dict (inner s : list Z) :
    dictBody inner -> dictBody s ->
    dictBody (bytes "<<" ++ inner ++ bytes ">>" ++ s).

(** ** Counts written in a text *)

(** The number [v] is written after a [/Count] key of the text [s]: the
    key, white space, and a run of decimal digits that writes [v]. *)
Definition countWritten (s : list Z) (v : Z) : Prop :=
  exists pre ws ds post,
    s = pre ++ bytes "/Count" ++ ws ++ ds ++ post
    /\ ws <> [] /\ Forall (fun c => isSpace c = true) ws
    /\ ds <> [] /\ Forall (fun c => isDigit c = true) ds
    /\ v = digitsValue ds.

(** ** Keys in patterns *)

(** The characters that [escapeRegExp] escapes: the dot, the star, the
    plus and question marks, the caret, the dollar, the braces, the
    parentheses, the bar, the brackets and the backslash. *)
Definition isRegExpSpecial (c : Z) : bool :=
  existsb (Z.eqb c)
    [0x2e; 0x2a; 0x2b; 0x3f; 0x5e; 0x24; 0x7b; 0x7d; 0x28; 0x29; 0x7c; 0x5b; 0x5d; 0x5c].

(** [escapeRegExp(string)]: every special character is replaced by a
    backslash followed by the character itself. *)
Definition escapeRegExp (s : list Z) : list Z :=
  flat_map (fun c => if isRegExpSpecial c then [0x5c; c] else [c]) s.

(** ** Loading the input *)

(** What a caller may pass: a Buffer, a Uint8Array, a string (a file path),
    or anything else. *)
Inductive input :=
| BufferInput (b : list Z)
| Uint8ArrayInput (b : list Z)
| PathInput (path : string)
| OtherInput.

Section Loading.

Variable inflateSync : list Z -> result (list Z).

(** The path and file-system modules as far as the loaders use them:
    [path.isAbsolute], [path.resolve(process.cwd(), _)], [fs.readFileSync],
    and [fs.promises.readFile] as the outcome of the promise it returns. *)
Variable isAbsolute : string -> bool.
Variable resolve : string -> string.
Variable readFileSync : string -> result (list Z).
Variable readFile : string -> result (list Z).

Definition loadToBufferSync (i : input) : result (list Z) :=
  match i with
  | BufferInput b => Ok b
  | Uint8ArrayInput b => Ok b (* Buffer.from copies the bytes *)
  | PathInput p =>
      let abs := if isAbsolute p then p else resolve p in
      readFileSync abs
  | OtherInput =>
      Throw (TypeError "Unsupported input type. Expected file path, Buffer, or Uint8Array.")
  end.

(** [countPdfPagesSync(input)] with its first line, the call of
    [loadToBufferSync], which stands outside every [try]. *)
Definition countPdfPagesSync_of_input (stack : nat) (i : input) : result Z :=
  buffer <- loadToBufferSync i ;;
  countPdfPagesSync inflateSync stack buffer.

(** [countPdfPages(input)]: the outcome of the promise, [Ok] when it is
    fulfilled and [Throw] when it is rejected. *)
Definition countPdfPages (stack : nat) (i : input) : result Z :=
  match i with
  | PathInput p =>
      let abs := if isAbsolute p then p else resolve p in
      buffer <- readFile abs ;;
      countPdfPagesSync_of_input stack (BufferInput buffer)
  | _ => countPdfPagesSync_of_input stack i
  end.

End Loading.

(** ** The patterns of the [exec] loops *)

(** The patterns that the module runs with the [g] flag, in
    [while ((m = re.exec(s)) !== null)] loops. *)
Definition globalPatterns : list (list atom) := [typePagesRe; typePageRe; countRe; refRe].

(** ** The entries of a subsection, as written *)

(** An entry line: the digits of the offset, the digits of the generation
    and the flag byte. *)
Record writtenEntry := WrittenEntry {
  offsetDigits : list Z;
  genDigits : list Z;
  flagByte : Z
}.

(** Ten digits, five digits, and [n] or [f]. *)
Definition fixedWidth (e : writtenEntry) : Prop :=
  length (offsetDigits e) = 10%nat /\ Forall (fun c => isDigit c = true) (offsetDigits e)
  /\ length (genDigits e) = 5%nat /\ Forall (fun c => isDigit c = true) (genDigits e)
  /\ (flagByte e = 0x6e \/ flagByte e = 0x66).

(** The twenty bytes of the entry, [eol] being its two-byte end of line. *)
Definition entryBytes (eol : list Z) (e : writtenEntry) : list Z :=
  offsetDigits e ++ [0x20] ++ genDigits e ++ [0x20] ++ [flagByte e] ++ eol.

Definition entryOf (e : writtenEntry) : entry :=
  Entry (digitsValue (offsetDigits e)) (digitsValue (genDigits e)).

(** The entries in use, numbered from [objNum] on, put into the map one
    after the other: replacing what the map holds, or only where the map
    holds nothing yet. *)
Fixpoint putEntries (objNum : Z) (es : list writtenEntry) (m : gmap (option Z) entry)
    : gmap (option Z) entry :=
  match es with
  | [] => m
  | e :: es' =>
      putEntries (objNum + 1) es'
        (if flagByte e =? 0x6e then <[Some objNum := entryOf e]> m else m)
  end.

Fixpoint putMissingEntries (objNum : Z) (es : list writtenEntry)
    (m : gmap (option Z) entry) : gmap (option Z) entry :=
  match es with
  | [] => m
  | e :: es' =>
      putMissingEntries (objNum + 1) es'
        (if flagByte e =? 0x6e
         then if m !! Some objNum is Some _ then m else <[Some objNum := entryOf e]> m
         else m)
  end.

(** ** Plainly nested arrays *)

(** What stands between the brackets of an array whose nesting is plain:
    bytes other than the two brackets, and arrays of the same kind. *)
Inductive arrayBody : list Z -> Prop :=
| arrayBody_nil : arrayBody []
| arrayBody_byte (c : Z) (s : list Z) :
    c <> 0x5b -> c <> 0x5d -> arrayBody s -> arrayBody (c :: s)
| arrayBody_array (inner s : list Z) :
    arrayBody inner -> arrayBody s ->
    arrayBody (bytes "[" ++ inner ++ bytes "]" ++ s).

(** ** Written kids *)

(** One reference of a [/Kids] array as a writer lays it out: whatever
    separates it from what comes before, the object number, a space, the
    generation number, a space and [R]. *)
Record writtenKid :=
  WrittenKid { kidLead : list Z; kidObj : list Z; kidGen : list Z }.

Definition kidBytes (k : writtenKid) : list Z :=
  kidLead k ++ kidObj k ++ [0x20] ++ kidGen k ++ bytes " R".

Definition kidsBytes (ks : list writtenKid) : list Z := flat_map kidBytes ks.

Definition kidRef (k : writtenKid) : ref :=
  Ref (digitsValue (kidObj k)) (digitsValue (kidGen k)).

(** The separator holds no digit, and both numbers are non-empty runs of
    digits. *)
Definition kidWritten (k : writtenKid) : Prop :=
  Forall (fun c => isDigit c = false) (kidLead k)
  /\ kidObj k <> [] /\ Forall (fun c => isDigit c = true) (kidObj k)
  /\ kidGen k <> [] /\ Forall (fun c => isDigit c = true) (kidGen k).

(** * Properties *)

(** ** The orchestrator *)

Section Orchestrator.

Variable inflateSync : list Z -> result (list Z).

Lemma positive_Some n v : positive n = Some v -> v = n /\ 0 < n.
Proof.
  unfold positive. destruct (Z.ltb_spec 0 n); [|done].
  intros [= <-]. split; [done|lia].
Qed.

Lemma guarded_max buffer n :
  guarded inflateSync buffer n = Z.max n (countPagesByPageObjects inflateSync buffer).
Proof. unfold guarded. destruct (Z.ltb_spec n (countPagesByPageObjects inflateSync buffer)); lia. Qed.

Lemma yield_positive stack buffer s n :
  yield inflateSync stack buffer s = Some n -> 0 < n.
Proof.
  destruct s; simpl;
    repeat match goal with
           | |- context [match ?r with Ok _ => _ | Throw _ => _ end] => destruct r
           | |- context [0 <? ?x] => destruct (Z.ltb_spec 0 x)
           end;
    try done; try (intros H; apply positive_Some in H; lia); intros [= <-]; lia.
Qed.

(** The function is the in-order scan of the seven strategies. *)
Lemma run_firstPositive stack buffer :
  countPdfPagesSync_run inflateSync stack buffer
  = firstPositive (yield inflateSync stack buffer) order.
Proof.
  unfold countPdfPagesSync_run, order, firstPositive, yield, orElse, after.
  destruct (countPagesViaXrefStreamTraversal inflateSync stack buffer) as [n1|];
    simpl; [destruct (positive n1); [done|]|];
  (destruct (countPagesViaClassicTraversal stack buffer) as [n2|];
    simpl; [destruct (positive n2); [done|]|]);
  (destruct (parsePageCountViaClassicXref buffer) as [n3|];
    simpl; [destruct (0 <? n3); [by rewrite guarded_max|]|]);
  (destruct (parsePageCountViaXrefStream inflateSync buffer) as [n4|];
    simpl; [destruct (0 <? n4); [by rewrite guarded_max|]|]);
  destruct (positive (scanMaxPagesCount buffer));
  destruct (positive (scanMaxPagesCountFromObjectStreams inflateSync buffer));
  destruct (positive (countPagesByPageObjects inflateSync buffer)); done.
Qed.

Lemma firstPositive_spec (y : strategy -> option Z) ss :
  fst (firstPositive y ss) `prefix_of` ss
  /\ (forall i s, fst (firstPositive y ss) !! i = Some s ->
                  (S i < length (fst (firstPositive y ss)))%nat -> y s = None)
  /\ match snd (firstPositive y ss) with
     | Ok n => exists s, last (fst (firstPositive y ss)) = Some s /\ y s = Some n
     | Throw e => fst (firstPositive y ss) = ss
                  /\ e = Error "PDF page count not found"
                  /\ forall s, s ∈ ss -> y s = None
     end.
Proof.
  induction ss as [|s ss IH]; simpl.
  - split; [done|]. split; [intros i s H; by rewrite lookup_nil in H|].
    split; [done|]. split; [done|]. intros s H. by apply elem_of_nil in H.
  - destruct (y s) as [n|] eqn:Hs; unfold after; simpl.
    + split; [by apply prefix_cons, prefix_nil|].
      split; [intros [|i] s' H Hi; simpl in *; lia|]. eauto.
    + destruct IH as (IH1 & IH2 & IH3).
      split; [by apply prefix_cons|].
      split.
      { intros [|i] s' H Hi; simpl in *; [by injection H as <-|].
        apply (IH2 i s' H). lia. }
      destruct (snd (firstPositive y ss)) as [n|e].
      * destruct IH3 as (s' & Hl & Hy). exists s'. split; [|done].
        destruct (fst (firstPositive y ss)); [done|]. by rewrite last_cons, Hl.
      * destruct IH3 as (-> & -> & Hall). split; [done|]. split; [done|].
        intros s' [->|H]%elem_of_cons; [done|by apply Hall].
Qed.


(** C2: the strategies are started in the fixed order (xref-stream
    traversal, classic traversal, guarded classic /Count, guarded xref-stream
    /Count, nearest-/Count raw scan, scan inside inflated streams,
    page-object counter); every strategy started before the last one yielded
    nothing; the value returned is what the last strategy started yields, so
    nothing runs after the first success; and the function throws only after
    all seven yielded nothing. *)
Theorem countPdfPagesSync_first_success_in_order (stack : nat) (buffer : list Z) :
  let started := fst (countPdfPagesSync_run inflateSync stack buffer) in
  started `prefix_of` order
  /\ (forall i s, started !! i = Some s -> (S i < length started)%nat ->
                  yield inflateSync stack buffer s = None)
  /\ match countPdfPagesSync inflateSync stack buffer with
     | Ok n => exists s, last started = Some s
                         /\ yield inflateSync stack buffer s = Some n /\ 0 < n
     | Throw e => started = order
                  /\ e = Error "PDF page count not found"
                  /\ forall s, yield inflateSync stack buffer s = None
     end.
Proof.
  unfold countPdfPagesSync. rewrite run_firstPositive.
  pose proof (firstPositive_spec (yield inflateSync stack buffer) order) as (H1 & H2 & H3).
  split; [done|]. split; [done|].
  destruct (snd (firstPositive (yield inflateSync stack buffer) order)) as [n|e].
  - destruct H3 as (s & Hl & Hy). exists s. split; [done|]. split; [done|].
    by apply yield_positive in Hy.
  - destruct H3 as (Hs & -> & Hall). split; [done|]. split; [done|].
    intros s. apply Hall. unfold order. destruct s; set_solver.
Qed.

(** C6: in strategies 3 and 4, when the /Count fast path returns a positive
    [n], the value returned is the maximum of [n] and the result of the
    page-object counter. *)
Theorem count_guarded_by_page_objects (stack : nat) (buffer : list Z) (n : Z) :
  (yield inflateSync stack buffer XrefStreamTraversal = None
   /\ yield inflateSync stack buffer ClassicTraversal = None
   /\ (parsePageCountViaClassicXref buffer = Ok n
       \/ (yield inflateSync stack buffer ClassicCount = None
           /\ parsePageCountViaXrefStream inflateSync buffer = Ok n))) ->
  0 < n ->
  let approx := countPagesByPageObjects inflateSync buffer in
  countPdfPagesSync inflateSync stack buffer = Ok (if n <? approx then approx else n)
  /\ countPdfPagesSync inflateSync stack buffer = Ok (Z.max n approx).
Proof.
  intros (H1 & H2 & H3) Hn approx.
  assert (countPdfPagesSync inflateSync stack buffer = Ok (Z.max n approx)) as ->.
  { unfold countPdfPagesSync. rewrite run_firstPositive. unfold order. cbn [firstPositive].
    rewrite H1, H2. destruct H3 as [H3|[H3 H4]].
    - assert (yield inflateSync stack buffer ClassicCount = Some (Z.max n approx)) as ->; [|done].
      unfold yield. rewrite H3. destruct (Z.ltb_spec 0 n); [done|lia].
    - rewrite H3.
      assert (yield inflateSync stack buffer XrefStreamCount = Some (Z.max n approx)) as ->; [|done].
      unfold yield. rewrite H4. destruct (Z.ltb_spec 0 n); [done|lia]. }
  split; [|done]. f_equal. destruct (Z.ltb_spec n approx); lia.
Qed.

End Orchestrator.

Lemma count_guarded_by_page_objects_witness :
  countPdfPagesSync Stored.inflate 50 pdfTruncatedCount = Ok 5
  /\ countPagesByPageObjects Stored.inflate pdfTruncatedCount = 5
  /\ parsePageCountViaClassicXref pdfTruncatedCount = Ok 1.
Proof.
  assert (parsePageCountViaClassicXref pdfTruncatedCount = Ok 1) as H by (vm_compute; reflexivity).
  split; [|split; [vm_compute; reflexivity|exact H]].
  refine (eq_trans (proj1 (count_guarded_by_page_objects Stored.inflate 50 pdfTruncatedCount 1 _ _)) _).
  - split; [vm_compute; reflexivity|]. split; [vm_compute; reflexivity|]. left. exact H.
  - lia.
  - vm_compute; reflexivity.
Defined.

(** The same guard on the xref-stream path: the heuristic count (1) is not
    larger than [/Count] (2), which is returned unchanged. *)
Example count_guard_xref_stream :
  parsePageCountViaXrefStream Stored.inflate pdfXrefStreamGuard = Ok 2
  /\ countPagesByPageObjects Stored.inflate pdfXrefStreamGuard = 1
  /\ countPdfPagesSync_run Stored.inflate 50 pdfXrefStreamGuard
     = ([XrefStreamTraversal; ClassicTraversal; ClassicCount; XrefStreamCount], Ok 2).
Proof. vm_compute. done. Qed.

(** The seed scenarios of the specification: a one-page document, and a
    buffer that is not a PDF, on which every strategy is tried. *)
Example one_page_document :
  countPdfPagesSync_run Stored.inflate 50 pdfOnePage
  = ([XrefStreamTraversal; ClassicTraversal], Ok 1).
Proof. vm_compute. reflexivity. Qed.

Example not_a_pdf :
  countPdfPagesSync_run Stored.inflate 50 (bytes "not a pdf")
  = (order, Throw (Error "PDF page count not found")).
Proof. vm_compute. reflexivity. Qed.

(** A page tree that loops exhausts the stack of both traversals; the
    exception is dropped and the guarded /Count strategy answers. *)
Example looping_page_tree_falls_through :
  countPagesViaClassicTraversal 50 pdfSelfLoop = Throw RangeError
  /\ countPdfPagesSync_run Stored.inflate 50 pdfSelfLoop
     = ([XrefStreamTraversal; ClassicTraversal; ClassicCount], Ok 1).
Proof. split; vm_compute; reflexivity. Qed.

(** ** Classic cross-reference entries *)

Lemma isDigit_not_space c : isDigit c = true -> isSpace c = false.
Proof. unfold isDigit, isSpace. intros [H1 H2]%andb_prop. lia. Qed.

Lemma takeDigits_all ds :
  Forall (fun c => isDigit c = true) ds -> takeDigits ds = ds.
Proof. induction 1 as [|c cs Hc _ IH]; [done|]. simpl. by rewrite Hc, IH. Qed.

Lemma digitsValue_parseInt ds :
  ds <> [] -> Forall (fun c => isDigit c = true) ds -> parseInt ds = Some (digitsValue ds).
Proof.
  intros Hne Hds. unfold parseInt.
  destruct ds as [|d ds]; [done|]. pose proof (Forall_inv Hds) as Hd. simpl in Hd.
  simpl trimStart. rewrite (isDigit_not_space _ Hd).
  assert ((d =? 45) = false) as -> by (unfold isDigit in Hd; lia).
  assert ((d =? 43) = false) as -> by (unfold isDigit in Hd; lia).
  rewrite (takeDigits_all _ Hds). f_equal. lia.
Qed.

Lemma sameString_refl s : sameString s s = true.
Proof. induction s as [|c s IH]; [done|]. simpl. by rewrite Z.eqb_refl, IH. Qed.

Lemma sameString_eq a b : sameString a b = true <-> a = b.
Proof.
  split; [|intros ->; apply sameString_refl].
  revert b. induction a as [|c a IH]; intros [|d b]; simpl; try done.
  intros [H1 H2]%andb_prop. apply Z.eqb_eq in H1. f_equal; [done|by apply IH].
Qed.

Lemma match_search re s : match_ re s = search re None s 0.
Proof.
  unfold match_, exec. assert ((len s <? 0) = false) as ->; [unfold len; apply Z.ltb_ge; lia|done].
Qed.

Local Arguments isDigit : simpl never.
Local Arguments isSpace : simpl never.
Local Arguments oneOf : simpl never.

(** Reduce a match against a text whose characters are known by class. *)
Ltac regex_step :=
  progress (cbn;
    repeat match goal with
      | H : isDigit ?c = true |- context [isDigit ?c] => rewrite H
      | H : isDigit ?c = true |- context [isSpace ?c] => rewrite (isDigit_not_space c H)
      | |- context [isSpace (Zpos ?p)] =>
          let v := eval vm_compute in (isSpace (Zpos p)) in
          change (isSpace (Zpos p)) with v
      | |- context [isDigit (Zpos ?p)] =>
          let v := eval vm_compute in (isDigit (Zpos p)) in
          change (isDigit (Zpos p)) with v
      | |- context [oneOf ?s (Zpos ?p)] =>
          let v := eval vm_compute in (oneOf s (Zpos p)) in
          change (oneOf s (Zpos p)) with v
      | |- context [Z.to_nat ?e] =>
          let v := eval vm_compute in (Z.to_nat e) in
          progress change (Z.to_nat e) with v
      end).

(** An entry line in the fixed-width format is read as its offset, its
    generation and its flag. *)
Lemma matchXrefEntry_fixed_width (ds gs rest : list Z) (flag : Z) :
  length ds = 10%nat -> Forall (fun c => isDigit c = true) ds ->
  length gs = 5%nat -> Forall (fun c => isDigit c = true) gs ->
  flag = 0x6e \/ flag = 0x66 ->
  matchXrefEntry (ds ++ [0x20] ++ gs ++ [0x20] ++ [flag] ++ rest)
  = Some (digitsValue ds, digitsValue gs, [flag]).
Proof.
  intros Hl Hds Hl' Hgs Hflag.
  assert (Hpd := digitsValue_parseInt ds). assert (Hpg := digitsValue_parseInt gs).
  do 11 (destruct ds as [|? ds]; try done). do 6 (destruct gs as [|? gs]; try done).
  repeat match goal with H : Forall _ (_ :: _) |- _ => apply Forall_cons in H as [? H] end.
  unfold matchXrefEntry. rewrite match_search.
  destruct Hflag as [-> | ->]; repeat regex_step;
    unfold groupInt; cbn [group nth Nat.sub];
    rewrite Hpd, Hpg, take_0 by (done || by repeat constructor); done.
Qed.


Lemma classicRecord_only_n (line : list Z) (objNum : Z) (m : gmap (option Z) entry) :
  classicRecord line objNum m <> m ->
  exists offset gen, matchXrefEntry line = Some (offset, gen, bytes "n").
Proof.
  unfold classicRecord. destruct (matchXrefEntry line) as [[[offset gen] flag]|]; [|done].
  destruct (sameString flag (bytes "n")) eqn:Hf; [|done].
  apply sameString_eq in Hf as ->. eauto.
Qed.

Lemma chainRecord_only_n (line : list Z) (objNum : option Z) (m : gmap (option Z) entry) :
  chainRecord line objNum m <> m ->
  exists offset gen, matchXrefEntry line = Some (offset, gen, bytes "n").
Proof.
  unfold chainRecord. destruct line as [|c line]; [done|].
  destruct (matchXrefEntry (c :: line)) as [[[offset gen] flag]|]; [|done].
  destruct (sameString flag (bytes "n")) eqn:Hf; [|done].
  apply sameString_eq in Hf as ->. eauto.
Qed.



(** A free entry leaves both maps alone. *)
Example free_entry_skipped (m : gmap (option Z) entry) :
  classicRecord (bytes "0000000000 65535 f ") 0 m = m
  /\ chainRecord (bytes "0000000000 65535 f ") (Some 0) m = m.
Proof. by vm_compute. Qed.

(** ** The /Prev chain *)

Lemma chainRecord_subseteq (line : list Z) (objNum : option Z) (m : gmap (option Z) entry) :
  m ⊆ chainRecord line objNum m.
Proof.
  unfold chainRecord.
  destruct (if line is [] then None else matchXrefEntry line) as [[[offset gen] flag]|]; [|done].
  destruct (sameString flag (bytes "n")); [|done].
  destruct (m !! objNum) eqn:Hk; [done|]. by apply insert_subseteq.
Qed.

Lemma chainEntries_loop_subseteq (n : nat) (buffer : list Z) (firstObj : option Z) (i pos : Z)
    (m : gmap (option Z) entry) :
  m ⊆ fst (chainEntries_loop n buffer firstObj i pos m).
Proof.
  revert i pos m. induction n as [|n IH]; intros i pos m; simpl; [done|].
  etrans; [apply chainRecord_subseteq|apply IH].
Qed.

Lemma chainSections_loop_subseteq (n : nat) (buffer : list Z) (pos : Z)
    (m : gmap (option Z) entry) :
  m ⊆ fst (chainSections_loop n buffer pos m).
Proof.
  revert pos m. induction n as [|n IH]; intros pos m; simpl; [done|].
  destruct (pos <? len buffer); [|done].
  destruct (peekKeyword buffer pos "trailer"); [done|].
  destruct (readLineAscii buffer pos) as [|c header]; [done|].
  destruct (_ <? 2)%nat; [done|].
  etrans; [apply chainEntries_loop_subseteq|apply IH].
Qed.

Lemma chainExtends_refl st : chainExtends st st.
Proof. by split. Qed.

Lemma chainExtends_trans st1 st2 st3 :
  chainExtends st1 st2 -> chainExtends st2 st3 -> chainExtends st1 st3.
Proof.
  intros [H1 H2] [H3 H4]. split; [by etrans|].
  intros Hne. rewrite H4, H2; [done..|]. by rewrite H2.
Qed.

Lemma chainRound_spec buffer st r :
  chainRound buffer st = Ok r ->
  match r with
  | inl st' => chainExtends st st'
  | inr st' => chainExtends st st' /\ hops st' = hops st + 1
  end.
Proof.
  unfold chainRound.
  pose proof (chainSections_loop_subseteq (length buffer) buffer
                (skipWhitespace buffer (chainOffset st + 4)) (objectOffsets st)) as Hsub.
  destruct (chainSections_loop _ _ _ _) as [m pos]. simpl in *.
  destruct (negb (sameString _ _)); [intros [= <-]; apply chainExtends_refl|].
  destruct (negb (peekKeyword _ _ _)); [intros [= <-]; by split|].
  destruct (negb (isPair _ _ _)); [intros [= <-]; by split|].
  destruct (readDictString _ _) as [[d p]|]; [|done]. simpl.
  assert (forall o h, chainExtends st
            (ChainState m (if trailerDictString st is [] then d else trailerDictString st) o h))
    as Hext.
  { intros o h. split; [done|]. simpl. by destruct (trailerDictString st). }
  destruct (parseIntFromDict d "Prev") as [prev|]; [|intros [= <-]; apply Hext].
  destruct (_ || _); intros [= <-]; [apply Hext|]. split; [apply Hext|done].
Qed.

Lemma chain_loop_extends n buffer st st' :
  chain_loop n buffer st = Ok st' -> chainExtends st st'.
Proof.
  revert st. induction n as [|n IH]; intros st; simpl.
  - intros [= <-]. apply chainExtends_refl.
  - destruct (_ && _); [|intros [= <-]; apply chainExtends_refl].
    destruct (chainRound buffer st) as [r|] eqn:Hr; [|done]. simpl.
    apply chainRound_spec in Hr. destruct r as [st1|st1].
    + by intros [= <-].
    + intros H. destruct Hr as [Hr _]. eapply chainExtends_trans; [done|by apply IH].
Qed.

(** Once [10 - hops] rounds are allowed, allowing more changes nothing. *)
Lemma chain_loop_S n buffer st :
  (Z.to_nat (10 - hops st) <= n)%nat ->
  chain_loop (S n) buffer st = chain_loop n buffer st.
Proof.
  revert st. induction n as [|n IH]; intros st Hn.
  - simpl. destruct (Z.ltb_spec (hops st) 10); [lia|]. by rewrite andb_false_r.
  - change (chain_loop (S (S n)) buffer st) with
      (if (0 <? chainOffset st) && (hops st <? 10)
       then r <- chainRound buffer st ;;
            match r with inl st' => Ok st' | inr st' => chain_loop (S n) buffer st' end
       else Ok st).
    change (chain_loop (S n) buffer st) with
      (if (0 <? chainOffset st) && (hops st <? 10)
       then r <- chainRound buffer st ;;
            match r with inl st' => Ok st' | inr st' => chain_loop n buffer st' end
       else Ok st).
    destruct (_ && _); [|done].
    destruct (chainRound buffer st) as [[st1|st1]|] eqn:Hr; [done| |done]. simpl.
    apply chainRound_spec in Hr as [_ Hh]. apply IH. lia.
Qed.

Lemma chain_loop_stable n buffer st :
  (10 <= n)%nat -> 0 <= hops st -> chain_loop n buffer st = chain_loop 10 buffer st.
Proof.
  intros Hn Hh. induction Hn as [|n Hn IH]; [done|].
  rewrite chain_loop_S; [done|lia].
Qed.

Lemma mergeMissing_subseteq {V} (merged m : gmap (option Z) V) :
  merged ⊆ mergeMissing merged m.
Proof.
  unfold mergeMissing.
  apply (map_fold_weak_ind (fun r _ => merged ⊆ r)); [done|].
  intros k v m' r _ IH. destruct (r !! k) eqn:Hk; [done|].
  etrans; [done|by apply insert_subseteq].
Qed.

Section StreamChain.

Variable inflateSync : list Z -> result (list Z).

Lemma streamChain_loop_extends n buffer merged prev hops merged' :
  streamChain_loop inflateSync n buffer merged prev hops = Ok merged' ->
  xrefMapExtends merged merged'.
Proof.
  revert merged prev hops. induction n as [|n IH]; intros merged prev hops; simpl.
  - by intros [= <-].
  - destruct prev as [prev|]; [|by intros [= <-]].
    destruct (_ && _); [|by intros [= <-]].
    destruct (sameString _ _).
    + destruct (buildClassicXrefOffsetsFollowingPrevChain buffer prev); [|done].
      simpl. intros [= <-]. split; [apply mergeMissing_subseteq|done].
    + destruct (readStreamObject buffer prev) as [xo|]; [|done]. simpl.
      destruct (negb _); [by intros [= <-]|].
      destruct (buildXrefMapFromXrefStream inflateSync xo) as [m|]; [|done]. simpl.
      intros H. apply IH in H as [H1 H2]. simpl in *.
      split; (etrans; [apply mergeMissing_subseteq|done]).
Qed.

Lemma streamChain_loop_unfold n buffer merged prev hops :
  streamChain_loop inflateSync (S n) buffer merged prev hops
  = match prev with
    | Some prev =>
        if (0 <? prev) && (prev <? len buffer) && (hops <? 10) then
          if sameString (readAscii buffer prev 4) (bytes "xref") then
            r <- buildClassicXrefOffsetsFollowingPrevChain buffer prev ;;
            Ok (XrefMap (mergeMissing (objToOffset merged) (fst r)) (objToObjStm merged))
          else
            xo <- readStreamObject buffer prev ;;
            if negb (test typeXRefRe (streamDict xo)) then Ok merged
            else
              map <- buildXrefMapFromXrefStream inflateSync xo ;;
              streamChain_loop inflateSync n buffer
                (XrefMap (mergeMissing (objToOffset merged) (objToOffset map))
                         (mergeMissing (objToObjStm merged) (objToObjStm map)))
                (parseIntFromDict (streamDict xo) "Prev") (hops + 1)
        else Ok merged
    | None => Ok merged
    end.
Proof. reflexivity. Qed.

Lemma streamChain_loop_S n buffer merged prev hops :
  (Z.to_nat (10 - hops) <= n)%nat ->
  streamChain_loop inflateSync (S n) buffer merged prev hops
  = streamChain_loop inflateSync n buffer merged prev hops.
Proof.
  revert merged prev hops. induction n as [|n IH]; intros merged prev hops Hn.
  - simpl. destruct prev as [prev|]; [|done].
    destruct (Z.ltb_spec hops 10); [lia|]. by rewrite andb_false_r.
  - rewrite (streamChain_loop_unfold (S n)), (streamChain_loop_unfold n).
    destruct prev as [prev|]; [|done].
    destruct (_ && _); [|done].
    destruct (sameString _ _); [done|].
    destruct (readStreamObject buffer prev) as [xo|]; [|done]. cbn [bind].
    destruct (negb _); [done|].
    destruct (buildXrefMapFromXrefStream inflateSync xo) as [m|]; [|done]. cbn [bind].
    apply IH. lia.
Qed.

Lemma streamChain_loop_stable n buffer merged prev hops :
  (10 <= n)%nat -> 0 <= hops ->
  streamChain_loop inflateSync n buffer merged prev hops
  = streamChain_loop inflateSync 10 buffer merged prev hops.
Proof.
  intros Hn Hh. induction Hn as [|n Hn IH]; [done|].
  rewrite streamChain_loop_S; [done|lia].
Qed.


End StreamChain.

(** ** Decoding cross-reference streams *)

Lemma toInt32_mod z : toInt32 z mod 2 ^ 32 = z mod 2 ^ 32.
Proof.
  unfold toInt32. rewrite Zminus_mod_idemp_l. f_equal. lia.
Qed.

Lemma toInt32_small x : 0 <= x < 256 -> toInt32 x = x.
Proof.
  intros H. unfold toInt32. rewrite Z.mod_small; lia.
Qed.

Lemma toInt32_low_bits z : toInt32 (z * 2 ^ 8) mod 2 ^ 8 = 0.
Proof.
  unfold toInt32.
  rewrite (Z.mod_eq (z * 2 ^ 8 + 2 ^ 31) (2 ^ 32)) by lia.
  replace (z * 2 ^ 8 + 2 ^ 31 - 2 ^ 32 * ((z * 2 ^ 8 + 2 ^ 31) / 2 ^ 32) - 2 ^ 31)
    with ((z - 2 ^ 24 * ((z * 2 ^ 8 + 2 ^ 31) / 2 ^ 32)) * 2 ^ 8) by lia.
  apply Z.mod_mul. lia.
Qed.

Lemma mod_congruence a b c x M :
  a mod M = b mod M -> (a * c + x) mod M = (b * c + x) mod M.
Proof.
  intros H. destruct (decide (M = 0)) as [->|HM]; [rewrite !Z.mod_0_r in *; by subst|].
  rewrite <- (Z.add_mod_idemp_l (a * c)), <- (Z.add_mod_idemp_l (b * c)) by done.
  rewrite <- (Z.mul_mod_idemp_l a), <- (Z.mul_mod_idemp_l b) by done.
  by rewrite H.
Qed.

(** One round of [n = (n << 8) | byte], read modulo 2^32. *)
Lemma shl_bor_step acc x :
  0 <= x < 256 ->
  toUint32 (bor (shl acc 8) x) = (toUint32 acc * 256 + x) mod 2 ^ 32.
Proof.
  intros Hx. unfold bor, shl, toUint32.
  change (8 mod 32) with 8.
  set (u := toInt32 (toInt32 acc * 2 ^ 8)).
  assert (toInt32 u = u) as ->.
  { subst u. unfold toInt32 at 1.
    rewrite <- (Z.add_mod_idemp_l (toInt32 _)), toInt32_mod, Z.add_mod_idemp_l by lia.
    reflexivity. }
  rewrite (toInt32_small x Hx).
  assert (Z.land u x = 0) as Hland.
  { rewrite <- (Z.mod_small x (2 ^ 8)) by lia.
    rewrite <- Z.land_ones by lia.
    rewrite Z.land_assoc, (Z.land_comm u), <- Z.land_assoc, (Z.land_ones u) by lia.
    subst u. rewrite toInt32_low_bits. apply Z.land_0_r. }
  rewrite <- (Z.add_nocarry_lor _ _ Hland).
  subst u. rewrite <- Z.add_mod_idemp_l, toInt32_mod, Z.add_mod_idemp_l by lia.
  change (2 ^ 8) with 256.
  apply mod_congruence. by rewrite toInt32_mod, Z.mod_mod.
Qed.

Lemma octets_Forall data : octets data = true -> Forall (fun b => 0 <= b < 256) data.
Proof.
  unfold octets. rewrite forallb_forall, Forall_forall.
  intros H b Hb. apply list_elem_of_In, H in Hb. unfold isOctet in Hb. lia.
Qed.

Lemma byteAt_octet data i : octets data = true -> 0 <= byteAt data i < 256.
Proof.
  intros Hd%octets_Forall. unfold byteAt, at_. destruct (i <? 0); [simpl; lia|].
  destruct (data !! Z.to_nat i) as [b|] eqn:Hb; [|simpl; lia].
  apply (Forall_lookup_1 _ _ _ _ Hd Hb).
Qed.

Lemma bigEndian_fold_mod bs acc M :
  M <> 0 ->
  fold_left (fun a b => a * 256 + b) bs acc mod M
  = fold_left (fun a b => a * 256 + b) bs (acc mod M) mod M.
Proof.
  intros HM. revert acc.
  induction bs as [|b bs IH]; intros acc; simpl; [by rewrite Z.mod_mod|].
  rewrite IH, (IH (acc mod M * 256 + b)). f_equal. f_equal.
  apply mod_congruence. by rewrite Z.mod_mod.
Qed.

Lemma seqZ_nat_S i n : seqZ i (Z.of_nat (S n)) = i :: seqZ (i + 1) (Z.of_nat n).
Proof. rewrite seqZ_cons by lia. f_equal. f_equal; lia. Qed.

Lemma readUIntBE_loop_spec n data pos i acc :
  octets data = true ->
  toUint32 (readUIntBE_loop n data pos i acc)
  = fold_left (fun a b => a * 256 + b)
      (map (fun k => byteAt data (pos + k)) (seqZ i (Z.of_nat n))) (toUint32 acc)
    mod 2 ^ 32.
Proof.
  intros Hd. revert i acc. induction n as [|n IH]; intros i acc.
  - simpl. unfold toUint32. by rewrite Z.mod_mod.
  - rewrite seqZ_nat_S. cbn [readUIntBE_loop map fold_left].
    rewrite IH, shl_bor_step by (by apply byteAt_octet).
    by rewrite <- bigEndian_fold_mod.
Qed.

(** [readUIntBE] reads a field as a big-endian number kept to 32 bits. *)
Lemma readUIntBE_bigEndian32 data p w :
  octets data = true -> readUIntBE data p w = bigEndian32 (fieldBytes data p w).
Proof.
  intros Hd. unfold readUIntBE, bigEndian32, bigEndian, fieldBytes.
  destruct (Z.eqb_spec w 0) as [->|Hw]; [done|].
  rewrite readUIntBE_loop_spec by done.
  destruct (Z.lt_ge_cases w 0).
  - unfold seqZ. rewrite (Z2Nat.nonpos w) by lia. done.
  - rewrite Z2Nat.id by lia. done.
Qed.

Lemma seqZ_to_nat m n : seqZ m (Z.of_nat (Z.to_nat n)) = seqZ m n.
Proof. unfold seqZ. by rewrite Nat2Z.id. Qed.

Lemma xrefEntries_loop_spec n data w0 w1 w2 objStart p0 j m :
  octets data = true ->
  xrefEntries_loop n data w0 w1 w2 objStart j (p0 + j * (w0 + w1 + w2)) m
  = (fold_left recordEntry
       (map (entryAt bigEndian32 data w0 w1 w2 objStart p0) (seqZ j (Z.of_nat n))) m,
     p0 + (j + Z.of_nat n) * (w0 + w1 + w2)).
Proof.
  intros Hd. revert j m. induction n as [|n IH]; intros j m.
  - simpl. f_equal. lia.
  - rewrite seqZ_nat_S. cbn [xrefEntries_loop map fold_left].
    replace (p0 + j * (w0 + w1 + w2) + w0 + w1 + w2)
      with (p0 + (j + 1) * (w0 + w1 + w2)) by lia.
    rewrite IH. f_equal; [|lia]. f_equal.
    unfold recordEntry, entryAt. by rewrite !readUIntBE_bigEndian32.
Qed.

Lemma list_pair_ind (P : list Z -> Prop) :
  P [] -> (forall a, P [a]) -> (forall a b l, P l -> P (a :: b :: l)) -> forall l, P l.
Proof.
  intros H0 H1 H2. fix IH 1. intros [|a [|b l]]; [done|done|]. apply H2, IH.
Qed.

Lemma xrefIndex_loop_spec index data w0 w1 w2 p m :
  octets data = true ->
  xrefIndex_loop index data w0 w1 w2 p m
  = fold_left recordEntry (indexEntries bigEndian32 index data w0 w1 w2 p) m.
Proof.
  intros Hd. revert p m.
  induction index as [|a|objStart count index IH] using list_pair_ind; intros p m;
    [done..|].
  cbn [xrefIndex_loop indexEntries].
  pose proof (xrefEntries_loop_spec (Z.to_nat count) data w0 w1 w2 objStart p 0 m Hd) as H.
  rewrite Z.mul_0_l, Z.add_0_r, Z.add_0_l, seqZ_to_nat in H. rewrite H. simpl.
  rewrite fold_left_app, IH. do 2 f_equal. lia.
Qed.

Lemma bigEndian_bound bs acc :
  0 <= acc -> Forall (fun b => 0 <= b < 256) bs ->
  0 <= fold_left (fun a b => a * 256 + b) bs acc < (acc + 1) * 256 ^ Z.of_nat (length bs).
Proof.
  intros Hacc Hbs. revert acc Hacc.
  induction Hbs as [|b bs Hb _ IH]; intros acc Hacc; [simpl; lia|].
  cbn [fold_left length]. specialize (IH (acc * 256 + b) ltac:(lia)).
  rewrite Nat2Z.inj_succ, Z.pow_succ_r by lia. nia.
Qed.

Lemma bigEndian32_narrow bs :
  (length bs <= 4)%nat -> octets bs = true -> bigEndian32 bs = bigEndian bs.
Proof.
  intros Hl Hbs%octets_Forall. unfold bigEndian32, bigEndian.
  pose proof (bigEndian_bound bs 0 ltac:(lia) Hbs) as H.
  apply Z.mod_small. split; [lia|].
  assert (256 ^ Z.of_nat (length bs) <= 256 ^ 4) by (apply Z.pow_le_mono_r; lia). lia.
Qed.

Section XrefStream.

Variable inflateSync : list Z -> result (list Z).


End XrefStream.



(** The latest revision wins: object 2 is read at offset 305, where the update
    put it, not at offset 58. *)
Example updated_document_latest_wins :
  fst <$> try_ (buildClassicXrefOffsetsFollowingPrevChain pdfUpdated 415)
  = Some (objectOffsets pdfUpdated_merged)
  /\ countPagesViaClassicTraversal 50 pdfUpdated = Ok 2.
Proof. split; vm_compute; reflexivity. Qed.

(** A trailer whose /Prev points at its own table: the loop stops after ten
    hops. *)
Example cyclic_prev_chain_ends :
  hops <$> try_ (chain_loop 11 pdfCyclicPrev (ChainState ∅ [] 162 0)) = Some 10
  /\ countPagesViaClassicTraversal 50 pdfCyclicPrev = Ok 1.
Proof. split; vm_compute; reflexivity. Qed.


(** The same entries, unfiltered. *)
Example unfiltered_xref_stream_decoded :
  buildXrefMapFromXrefStream Stored.inflate (streamObjectAt pdfXrefStream 162)
  = Ok (XrefMap {[Some 1 := Entry 9 0; Some 2 := Entry 58 0; Some 3 := Entry 115 0;
                  Some 4 := Entry 162 0]} ∅).
Proof. vm_compute. reflexivity. Qed.

(** ** The PNG predictor *)

Section Predictor.

Variable inflateSync : list Z -> result (list Z).

(** C7: reversing the predictor uses the row width (/Columns, else
    [w0 + w1 + w2]) and the filter byte of each row, never the value of
    /Predictor beyond its being at least 10: two dictionaries that differ
    only in a predictor of at least 10 give the same decoded data and the
    same cross-reference map. *)
Theorem predictor_value_irrelevant (p1 p2 : Z) (cols : option Z) (w0 w1 w2 : Z)
    (data : list Z) (x1 x2 : streamObject) :
  10 <= p1 -> 10 <= p2 ->
  reversePredictor (Some (DecodeParms (Some p1) cols)) w0 w1 w2 data
  = pngPredictorDecode data
      (match cols with
       | Some c => if 0 <? c then c else w0 + w1 + w2
       | None => w0 + w1 + w2
       end)
  /\ reversePredictor (Some (DecodeParms (Some p1) cols)) w0 w1 w2 data
     = reversePredictor (Some (DecodeParms (Some p2) cols)) w0 w1 w2 data
  /\ (streamBuffer x1 = streamBuffer x2 ->
      readSize (streamDict x1) = readSize (streamDict x2) ->
      readWArray (streamDict x1) = readWArray (streamDict x2) ->
      (forall size, readIndexArray (streamDict x1) size
                    = readIndexArray (streamDict x2) size) ->
      test flateRe (streamDict x1) = test flateRe (streamDict x2) ->
      parseDecodeParms (streamDict x1) = Some (DecodeParms (Some p1) cols) ->
      parseDecodeParms (streamDict x2) = Some (DecodeParms (Some p2) cols) ->
      buildXrefMapFromXrefStream inflateSync x1
      = buildXrefMapFromXrefStream inflateSync x2).
Proof.
  intros Hp1 Hp2.
  assert (forall p, 10 <= p ->
            reversePredictor (Some (DecodeParms (Some p) cols)) w0 w1 w2 data
            = pngPredictorDecode data
                (match cols with
                 | Some c => if 0 <? c then c else w0 + w1 + w2
                 | None => w0 + w1 + w2
                 end)) as Hrev.
  { intros p Hp. unfold reversePredictor. simpl.
    destruct (Z.eqb_spec p 0); [lia|]. destruct (Z.leb_spec 10 p); [|lia]. simpl.
    destruct cols as [c|]; [|done].
    destruct (Z.eqb_spec c 0) as [->|]; [done|]. done. }
  split; [by apply Hrev|]. split; [by rewrite !Hrev|].
  intros Hbuf Hsize Hw Hidx Hfl Hd1 Hd2.
  unfold buildXrefMapFromXrefStream. rewrite Hsize, Hw, Hfl, Hbuf, Hd1, Hd2.
  destruct (readSize (streamDict x2)) as [size|]; [|done]. simpl.
  destruct (readWArray (streamDict x2)) as [[[v0 v1] v2]|]; [|done]. simpl.
  rewrite Hidx. destruct (test flateRe (streamDict x2)); [|done].
  destruct (inflateSync (streamBuffer x2)) as [inflated|]; [|done]. simpl.
  unfold reversePredictor. simpl.
  destruct (Z.eqb_spec p1 0); [lia|]. destruct (Z.leb_spec 10 p1); [|lia].
  destruct (Z.eqb_spec p2 0); [lia|]. destruct (Z.leb_spec 10 p2); [|lia].
  done.
Qed.

End Predictor.

Lemma predictor_value_irrelevant_witness :
  buildXrefMapFromXrefStream Stored.inflate (streamObjectAt pdfPredictor12 162)
  = buildXrefMapFromXrefStream Stored.inflate (streamObjectAt pdfPredictor10 162).
Proof.
  refine (proj2 (proj2 (predictor_value_irrelevant Stored.inflate 12 10 (Some 4) 1 2 1 []
                          (streamObjectAt pdfPredictor12 162)
                          (streamObjectAt pdfPredictor10 162) _ _)) _ _ _ _ _ _ _);
    try lia; try (intros size); vm_compute; reflexivity.
Defined.

(** The decoded map of the predictor-12 document. *)
Example predictor_12_decoded :
  buildXrefMapFromXrefStream Stored.inflate (streamObjectAt pdfPredictor12 162)
  = Ok (XrefMap {[Some 1 := Entry 9 0; Some 2 := Entry 58 0; Some 3 := Entry 115 0;
                  Some 4 := Entry 162 0]} ∅)
  /\ countPdfPagesSync Stored.inflate 50 pdfPredictor12 = Ok 1.
Proof. split; vm_compute; reflexivity. Qed.

(** ** The scan inside inflated streams *)

Lemma find_from_bounds needle s i r :
  0 <= i -> find_from needle s i = r -> r <> -1 ->
  i <= r /\ r + len needle <= i + len s.
Proof.
  revert i. induction s as [|c s IH]; intros i Hi; simpl.
  - destruct needle; simpl; [|intros <-; done]. intros <- _. unfold len. simpl. lia.
  - destruct (startsWith needle (c :: s)) eqn:Hs.
    + intros <- _. split; [lia|].
      assert (len needle <= len (c :: s)); [|lia].
      clear -Hs. revert Hs. generalize (c :: s). clear.
      induction needle as [|a needle IH]; intros [|b l]; simpl; unfold len in *; simpl;
        try done; try lia.
      intros [_ H]%andb_prop. apply IH in H. lia.
    + intros H Hr. apply IH in H; [|lia|done]. unfold len in *. simpl. lia.
Qed.

Lemma indexOf_bounds s needle pos idx :
  0 < len needle -> 0 <= pos -> indexOf s needle pos = idx -> idx <> -1 ->
  pos <= idx /\ idx + len needle <= len s.
Proof.
  intros Hneedle Hpos. unfold indexOf. intros H Hne.
  apply find_from_bounds in H; [|lia|done].
  assert (len (drop (Z.to_nat (Z.max 0 (Z.min pos (len s)))) s)
          = len s - Z.max 0 (Z.min pos (len s))) as Hl.
  { unfold len. rewrite length_drop. unfold len. lia. }
  rewrite Hl in H. unfold len in *. simpl in *.
  destruct H as [H1 H2]. lia.
Qed.

Section StreamScan.

Variables inflate1 inflate2 : list Z -> result (list Z).

Lemma streamLocalMax_agree buffer idx :
  (forall body, flateStreamBody buffer idx = Some body -> inflate2 body = inflate1 body) ->
  streamLocalMax inflate2 buffer idx = streamLocalMax inflate1 buffer idx.
Proof.
  intros H. unfold streamLocalMax.
  destruct (flateStreamBody buffer idx) as [body|]; [|done]. by rewrite H.
Qed.

Lemma firstProductive_from inflateSync buffer pos idx v :
  firstProductive inflateSync buffer pos idx v -> 0 <= pos -> pos <= idx.
Proof.
  induction 1 as [pos idx v Hidx Hne _ _|pos idx' idx v Hidx Hne _ _ IH]; intros Hpos.
  - apply (indexOf_bounds buffer (bytes "stream") pos idx eq_refl Hpos) in Hidx; [lia|done].
  - apply (indexOf_bounds buffer (bytes "stream") pos idx' eq_refl Hpos) in Hidx; [|done].
    etrans; [|apply IH]; unfold len in *; simpl in *; lia.
Qed.

Lemma scanStreams_loop_first_productive buffer pos idx v n :
  firstProductive inflate1 buffer pos idx v ->
  (forall i body, i <= idx -> flateStreamBody buffer i = Some body ->
                  inflate2 body = inflate1 body) ->
  0 <= pos -> len buffer - pos < Z.of_nat n ->
  scanStreams_loop inflate2 n buffer pos 0 = v.
Proof.
  intros Hfp. revert n.
  induction Hfp as [pos idx v Hidx Hne Hmax Hv|pos idx' idx v Hidx Hne Hmax Hfp IH];
    intros n Hagree Hpos Hn.
  - destruct (indexOf_bounds buffer (bytes "stream") pos _ eq_refl Hpos Hidx Hne) as [Hlo Hhi].
    destruct n as [|n]; [unfold len in *; simpl in *; lia|].
    simpl. rewrite Hidx. destruct (Z.eqb_spec idx (-1)); [done|].
    rewrite streamLocalMax_agree, Hmax by (intros body; apply Hagree; lia).
    destruct (Z.ltb_spec 0 v); [|lia]. by destruct (Z.ltb_spec 0 v); [|lia].
  - destruct (indexOf_bounds buffer (bytes "stream") pos _ eq_refl Hpos Hidx Hne) as [Hlo Hhi].
    assert (idx' + len (bytes "stream") <= idx) as Hle
      by (apply (firstProductive_from _ _ _ _ _ Hfp); unfold len; simpl; lia).
    destruct n as [|n]; [unfold len in *; simpl in *; lia|].
    simpl. rewrite Hidx. destruct (Z.eqb_spec idx' (-1)); [done|].
    rewrite streamLocalMax_agree
      by (intros body; apply Hagree; unfold len in *; simpl in *; lia).
    assert (scanStreams_loop inflate2 n buffer (idx' + len (bytes "stream")) 0 = v) as Hnext.
    { apply IH; [done|unfold len in *; simpl in *; lia..]. }
    destruct (streamLocalMax inflate1 buffer idx') as [v'|] eqn:Hv'; [|done].
    specialize (Hmax v' eq_refl).
    destruct (Z.ltb_spec 0 v'); [lia|]. simpl.
    destruct (Z.ltb_spec 0 0); [lia|done].
Qed.

(** C10: when the stream at [idx] is the first in buffer order to yield a
    positive local maximum [v], the scan returns [v], and it does so whatever
    inflating any later stream would give: the scan run with an inflater that
    agrees with the first one only on the streams up to [idx] returns the
    same [v]. *)
Theorem scan_returns_first_productive_stream (buffer : list Z) (idx v : Z) :
  firstProductive inflate1 buffer 0 idx v ->
  (forall i body, i <= idx -> flateStreamBody buffer i = Some body ->
                  inflate2 body = inflate1 body) ->
  scanMaxPagesCountFromObjectStreams inflate2 buffer = v.
Proof.
  intros Hfp Hagree. unfold scanMaxPagesCountFromObjectStreams.
  eapply scanStreams_loop_first_productive; [done..|lia|unfold len; lia].
Qed.

End StreamScan.

Lemma scan_returns_first_productive_stream_witness :
  scanMaxPagesCountFromObjectStreams Stored.inflate pdfTwoStreams = 2.
Proof.
  apply (scan_returns_first_productive_stream Stored.inflate Stored.inflate
           pdfTwoStreams 44 2).
  - apply productive_here; [vm_compute; reflexivity|discriminate|vm_compute; reflexivity|lia].
  - reflexivity.
Defined.

(** The second stream of the example would give 9: the value returned is the
    maximum within the first productive stream, not the maximum over all
    streams. *)
Example later_stream_not_examined :
  streamLocalMax Stored.inflate pdfTwoStreams 44 = Some 2
  /\ streamLocalMax Stored.inflate pdfTwoStreams 141 = Some 9
  /\ scanMaxPagesCountFromObjectStreams Stored.inflate pdfTwoStreams = 2.
Proof. repeat split; vm_compute; reflexivity. Qed.

(** ** The page-tree traversals *)

Section TraversalFacts.

Variable node : ref -> result nodeView.
Variable kind : ref -> result kidKind.

Lemma sumKids_ext recur1 recur2 kids sum :
  (forall k, k ∈ kids -> kind k = Ok PagesKid -> recur1 k = recur2 k) ->
  sumKids kind recur1 kids sum = sumKids kind recur2 kids sum.
Proof.
  revert sum. induction kids as [|k kids IH]; intros sum H; simpl; [done|].
  destruct (kind k) as [[]|] eqn:Hk; simpl; try done.
  - apply IH. intros k' Hk'. apply H. by right.
  - rewrite (H k) by (done || by left).
    destruct (recur2 k); simpl; [|done]. apply IH. intros k' Hk'. apply H. by right.
  - apply IH. intros k' Hk'. apply H. by right.
Qed.

Hypothesis node_no_overflow : forall r, node r <> Throw RangeError.
Hypothesis kind_no_overflow : forall r, kind r <> Throw RangeError.

Lemma sumKids_no_overflow recur kids sum :
  (forall k, k ∈ kids -> kind k = Ok PagesKid -> recur k <> Throw RangeError) ->
  sumKids kind recur kids sum <> Throw RangeError.
Proof.
  revert sum. induction kids as [|k kids IH]; intros sum H; simpl; [done|].
  pose proof (kind_no_overflow k) as Hk'.
  destruct (kind k) as [[]|e] eqn:Hk; simpl.
  - apply IH. intros k' Hk''. apply H. by right.
  - pose proof (H k ltac:(by left) Hk) as Hr.
    destruct (recur k); simpl; [|done]. apply IH. intros k' Hk''. apply H. by right.
  - apply IH. intros k' Hk''. apply H. by right.
  - intros [= ->]. by apply Hk'.
Qed.

Lemma completes_mono n m r : completes node kind n r -> (n <= m)%nat -> completes node kind m r.
Proof.
  intros H Hnm stack Hs. destruct (H stack ltac:(lia)) as [H1 H2].
  destruct (H m Hnm) as [H3 _]. split; [by rewrite H1, H3|done].
Qed.

Lemma kids_complete (kids : list ref) :
  (forall k, k ∈ kids -> kind k = Ok PagesKid -> exists n, completes node kind n k) ->
  exists n, forall k, k ∈ kids -> kind k = Ok PagesKid -> completes node kind n k.
Proof.
  induction kids as [|k kids IH]; intros H.
  - exists O. intros k Hk. by apply elem_of_nil in Hk.
  - destruct IH as [n Hn]; [intros k' Hk'; apply H; by right|].
    assert (kind k = Ok PagesKid \/ kind k <> Ok PagesKid) as [Hk|Hk]
      by (destruct (kind k) as [[]|]; (by left) || by right).
    + destruct (H k ltac:(by left) Hk) as [m Hm].
      exists (n `max` m)%nat. intros k' [->|Hk']%elem_of_cons Hkind.
      * eapply completes_mono; [done|lia].
      * eapply completes_mono; [by apply Hn|lia].
    + exists n. intros k' [->|Hk']%elem_of_cons Hkind; [done|by apply Hn].
Qed.

(** Without a cycle among the kids that the traversal follows, some stack is
    enough. *)
Lemma traverse_completes root :
  acyclicFrom node kind root -> exists enough, completes node kind enough root.
Proof.
  induction 1 as [a _ IH].
  destruct (node a) as [[| |cnt kids]|e] eqn:Ha.
  1,2,4: exists 1%nat; intros [|stack] Hs; [lia|]; simpl; rewrite Ha; simpl; split;
         [done|try done]; intros [= ->]; by apply (node_no_overflow a).
  destruct (kids_complete kids) as [n Hn].
  { intros k Hk Hkind. apply IH. by exists cnt, kids. }
  exists (S n). intros [|stack] Hs; [lia|]. simpl. rewrite Ha. simpl.
  destruct kids as [|k0 kids0]; [done|]. set (kids := k0 :: kids0) in *.
  assert (sumKids kind (traverse node kind stack) kids 0
          = sumKids kind (traverse node kind n) kids 0) as Heq.
  { apply sumKids_ext. intros k Hk Hkind. apply (Hn k Hk Hkind). lia. }
  rewrite Heq. split; [done|].
  pose proof (sumKids_no_overflow (traverse node kind n) kids 0) as Hno.
  destruct (sumKids kind (traverse node kind n) kids 0); simpl; [done|].
  intros [= ->]. apply Hno; [|done]. intros k Hk Hkind.
  by apply (Hn k Hk Hkind n).
Qed.

(** A /Pages node that is its own first kid exhausts every stack. *)
Lemma traverse_self_loop a cnt kids stack :
  node a = Ok (PagesNode cnt (a :: kids)) -> kind a = Ok PagesKid ->
  traverse node kind stack a = Throw RangeError.
Proof.
  intros Ha Hk. induction stack as [|stack IH]; [done|].
  simpl. rewrite Ha. simpl. by rewrite Hk, IH.
Qed.

Hypothesis kind_of_node : forall r v, node r = Ok v -> kind r = Ok (kindOf v).

Lemma sumKids_counts stack kids counts sum :
  Forall2 (fun k c => traverse node kind stack k = Ok c) kids counts ->
  sumKids kind (traverse node kind stack) kids sum = Ok (sum + total counts).
Proof.
  intros H. revert sum. induction H as [|k c kids counts Hk _ IH]; intros sum.
  - simpl. f_equal. unfold total. simpl. lia.
  - destruct stack as [|stack]; [done|].
    pose proof Hk as Hk'. cbn [traverse] in Hk'.
    destruct (node k) as [v|] eqn:Hv; [|done]. cbn [bind] in Hk'.
    cbn [sumKids]. rewrite (kind_of_node k v Hv). cbn [bind].
    change (total (c :: counts)) with (c + total counts).
    destruct v as [| |cnt ks]; cbn [kindOf].
    + injection Hk' as <-. rewrite IH. f_equal; lia.
    + injection Hk' as <-. rewrite IH. f_equal; lia.
    + rewrite Hk. cbn [bind]. rewrite IH. f_equal; lia.
Qed.

End TraversalFacts.

(** *** The traversals have the shared shape *)

Lemma sumKidsMap_sumKids (recur : ref -> result Z) (buffer : list Z)
    (objOffsets : gmap (option Z) entry) (kids : list ref) (sum : Z) :
  sumKidsMap recur buffer objOffsets kids sum
  = sumKids (kidKindMap buffer objOffsets) recur kids sum.
Proof.
  revert sum. induction kids as [|[o g] kids IH]; intros sum; [done|].
  cbn [sumKidsMap sumKids]. unfold kidKindMap. cbn [obj gen].
  destruct (objOffsets !! Some o) as [e|]; [|by cbn].
  destruct (readIndirectObject buffer (offset e) o g) as [childObj|]; [|done].
  cbn [bind]. destruct (test typePageRe _); [by cbn|].
  destruct (test typePagesRe _); cbn; [|done].
  destruct (recur _); cbn; done.
Qed.

Lemma traversePagesNodeMap_traverse (stack : nat) (buffer : list Z)
    (objOffsets : gmap (option Z) entry) (r : ref) :
  traversePagesNodeMap stack buffer objOffsets r
  = traverse (nodeViewMap buffer objOffsets) (kidKindMap buffer objOffsets) stack r.
Proof.
  revert r. induction stack as [|stack IH]; intros r; [done|].
  cbn [traversePagesNodeMap traverse]. unfold nodeViewMap.
  destruct (objOffsets !! Some (obj r)) as [e|]; [|done].
  destruct (readIndirectObject buffer (offset e) (obj r) (gen r)) as [o|]; [|done].
  cbn [bind]. destruct (test typePageRe _); [done|].
  destruct (negb _); [done|].
  destruct (kidsViaOffsets buffer objOffsets (dictString o)) as [kids|]; [|done].
  cbn [bind]. destruct kids as [|k kids]; [done|].
  rewrite sumKidsMap_sumKids. by rewrite (sumKids_ext _ _ _ _ _ (fun k _ _ => IH k)).
Qed.

(** *** The readers throw [Error], never [RangeError] *)

Lemma readDictString_no_overflow buffer pos : readDictString buffer pos <> Throw RangeError.
Proof. unfold readDictString. by destruct (negb _). Qed.

Lemma readArrayString_no_overflow buffer pos : readArrayString buffer pos <> Throw RangeError.
Proof. unfold readArrayString. by destruct (negb _). Qed.

(** A [bind] does not overflow when neither side does. *)
Lemma bind_no_overflow {A B} (r : result A) (k : A -> result B) :
  r <> Throw RangeError -> (forall a, k a <> Throw RangeError) ->
  bind r k <> Throw RangeError.
Proof.
  intros Hr Hk. destruct r as [a|e]; simpl; [apply Hk|].
  intros [= ->]. by apply Hr.
Qed.

Lemma readIndirectObject_no_overflow buffer offset o g :
  readIndirectObject buffer offset o g <> Throw RangeError.
Proof.
  unfold readIndirectObject. destruct (match_ objHeaderRe _); [|done].
  destruct (negb _); [done|].
  apply bind_no_overflow; [apply readDictString_no_overflow|done].
Qed.

Lemma readAnyObjectContent_no_overflow buffer offset o g :
  readAnyObjectContent buffer offset o g <> Throw RangeError.
Proof.
  unfold readAnyObjectContent. destruct (match_ objHeaderRe _); [|done].
  destruct (_ && _); [apply bind_no_overflow; [apply readDictString_no_overflow|done]|].
  destruct (is_ _ _); [|done].
  apply bind_no_overflow; [apply readArrayString_no_overflow|done].
Qed.

Lemma kidsViaOffsets_no_overflow (buffer : list Z) (objOffsets : gmap (option Z) entry)
    (dict : list Z) :
  kidsViaOffsets buffer objOffsets dict <> Throw RangeError.
Proof.
  unfold kidsViaOffsets. destruct (parseKidsArray dict); [|done].
  destruct (parseIndirectRefFromDict dict "Kids"); [|done].
  apply bind_no_overflow; [|done]. unfold getArrayContentViaOffsets.
  destruct (objOffsets !! _); [apply readAnyObjectContent_no_overflow|done].
Qed.

Lemma nodeViewMap_no_overflow (buffer : list Z) (objOffsets : gmap (option Z) entry)
    (r : ref) :
  nodeViewMap buffer objOffsets r <> Throw RangeError.
Proof.
  unfold nodeViewMap. destruct (objOffsets !! _); [|done].
  apply bind_no_overflow; [apply readIndirectObject_no_overflow|]. intros o.
  destruct (test typePageRe _); [done|]. destruct (negb _); [done|].
  apply bind_no_overflow; [apply kidsViaOffsets_no_overflow|done].
Qed.

Lemma kidKindMap_no_overflow (buffer : list Z) (objOffsets : gmap (option Z) entry)
    (k : ref) :
  kidKindMap buffer objOffsets k <> Throw RangeError.
Proof.
  unfold kidKindMap. destruct (objOffsets !! _); [|done].
  apply bind_no_overflow; [apply readIndirectObject_no_overflow|]. intros o.
  destruct (test typePageRe _); [done|]. by destruct (test typePagesRe _).
Qed.

Lemma kidKindMap_of_node (buffer : list Z) (objOffsets : gmap (option Z) entry)
    (r : ref) (v : nodeView) :
  nodeViewMap buffer objOffsets r = Ok v -> kidKindMap buffer objOffsets r = Ok (kindOf v).
Proof.
  unfold nodeViewMap, kidKindMap. destruct (objOffsets !! _); [|done].
  destruct (readIndirectObject _ _ _ _) as [o|]; [|done]. cbn [bind].
  destruct (test typePageRe _); [by intros [= <-]|].
  destruct (test typePagesRe _); cbn [negb]; [|by intros [= <-]].
  destruct (kidsViaOffsets _ _ _); [|done]. by intros [= <-].
Qed.

Section XrefTraversal.

Variable inflateSync : list Z -> result (list Z).

Lemma sumKidsXref_sumKids (recur : ref -> result Z) (buffer : list Z) (xmap : xrefMap)
    (kids : list ref) (sum : Z) :
  sumKidsXref inflateSync recur buffer xmap kids sum
  = sumKids (kidKindXref inflateSync buffer xmap) recur kids sum.
Proof.
  revert sum. induction kids as [|k kids IH]; intros sum; [done|].
  cbn [sumKidsXref sumKids]. unfold kidKindXref.
  destruct (getObjectDictViaXrefMap inflateSync buffer xmap (obj k) (gen k)) as [cdict|];
    [|done].
  cbn [bind]. destruct (test typePageRe _); [by cbn|].
  destruct (test typePagesRe _); cbn; [|done].
  destruct (recur _); cbn; done.
Qed.

Lemma traversePagesNodeXref_traverse (stack : nat) (buffer : list Z) (xmap : xrefMap)
    (r : ref) :
  traversePagesNodeXref inflateSync stack buffer xmap r
  = traverse (nodeViewXref inflateSync buffer xmap) (kidKindXref inflateSync buffer xmap)
      stack r.
Proof.
  revert r. induction stack as [|stack IH]; intros r; [done|].
  cbn [traversePagesNodeXref traverse]. unfold nodeViewXref.
  destruct (getObjectDictViaXrefMap inflateSync buffer xmap (obj r) (gen r)) as [dict|];
    [|done].
  cbn [bind]. destruct (test typePageRe _); [done|].
  destruct (negb _); [done|].
  destruct (kidsViaXrefMap inflateSync buffer xmap dict) as [kids|]; [|done].
  cbn [bind]. destruct kids as [|k kids]; [done|].
  rewrite sumKidsXref_sumKids. by rewrite (sumKids_ext _ _ _ _ _ (fun k _ _ => IH k)).
Qed.

Lemma readStreamObject_no_overflow buffer offset :
  readStreamObject buffer offset <> Throw RangeError.
Proof.
  unfold readStreamObject. destruct (match_ objHeaderRe _); [|done].
  destruct (negb _); [done|].
  apply bind_no_overflow; [apply readDictString_no_overflow|]. intros d.
  destruct (_ =? -1); [done|]. by destruct (_ =? -1).
Qed.

Lemma objStmSlice_no_overflow inflated first index :
  objStmSlice inflated first index <> Throw RangeError.
Proof. unfold objStmSlice. by destruct (_ !! _). Qed.

Lemma getObjectDictViaXrefMap_no_overflow buffer xmap objNum g :
  getObjectDictViaXrefMap inflateSync buffer xmap objNum g <> Throw RangeError.
Proof.
  unfold getObjectDictViaXrefMap. destruct (objToOffset xmap !! Some objNum).
  { apply bind_no_overflow; [apply readIndirectObject_no_overflow|done]. }
  destruct (objToObjStm xmap !! Some objNum) as [os|]; [|done].
  destruct (objToOffset xmap !! Some (objstm os)); [|done].
  apply bind_no_overflow; [apply readStreamObject_no_overflow|]. intros osObj.
  destruct (negb _); [done|].
  destruct (parseIntFromDict _ "N"); [|done].
  destruct (parseIntFromDict _ "First"); [|done].
  destruct (inflateSync _); [|done].
  apply bind_no_overflow; [apply objStmSlice_no_overflow|]. intros b.
  destruct (_ =? -1); [done|].
  apply bind_no_overflow; [apply readDictString_no_overflow|done].
Qed.

Lemma getObjectContentViaXrefMap_no_overflow buffer xmap objNum g :
  getObjectContentViaXrefMap inflateSync buffer xmap objNum g <> Throw RangeError.
Proof.
  unfold getObjectContentViaXrefMap. destruct (objToOffset xmap !! Some objNum).
  { apply readAnyObjectContent_no_overflow. }
  destruct (objToObjStm xmap !! Some objNum) as [os|]; [|done].
  destruct (objToOffset xmap !! Some (objstm os)); [|done].
  apply bind_no_overflow; [apply readStreamObject_no_overflow|]. intros osObj.
  destruct (inflateSync _); [|done]. apply objStmSlice_no_overflow.
Qed.

Lemma kidsViaXrefMap_no_overflow buffer xmap dict :
  kidsViaXrefMap inflateSync buffer xmap dict <> Throw RangeError.
Proof.
  unfold kidsViaXrefMap. destruct (parseKidsArray dict); [|done].
  destruct (parseIndirectRefFromDict dict "Kids"); [|done].
  apply bind_no_overflow; [apply getObjectContentViaXrefMap_no_overflow|done].
Qed.

Lemma nodeViewXref_no_overflow buffer xmap r :
  nodeViewXref inflateSync buffer xmap r <> Throw RangeError.
Proof.
  unfold nodeViewXref.
  apply bind_no_overflow; [apply getObjectDictViaXrefMap_no_overflow|]. intros dict.
  destruct (test typePageRe _); [done|]. destruct (negb _); [done|].
  apply bind_no_overflow; [apply kidsViaXrefMap_no_overflow|done].
Qed.

Lemma kidKindXref_no_overflow buffer xmap k :
  kidKindXref inflateSync buffer xmap k <> Throw RangeError.
Proof.
  unfold kidKindXref.
  apply bind_no_overflow; [apply getObjectDictViaXrefMap_no_overflow|]. intros dict.
  destruct (test typePageRe _); [done|]. by destruct (test typePagesRe _).
Qed.


End XrefTraversal.

(** A ranking that decreases from every node to the kids that the traversal
    follows excludes cycles. *)
Lemma ranked_kids_acyclic node kind (rank : ref -> nat) :
  (forall a b, descends node kind a b -> (rank b < rank a)%nat) ->
  forall root, acyclicFrom node kind root.
Proof.
  intros Hrank.
  assert (forall n root, (rank root < n)%nat -> acyclicFrom node kind root) as H.
  { induction n as [|n IH]; intros root Hn; [lia|].
    constructor. intros b Hb. apply IH. apply Hrank in Hb. lia. }
  intros root. apply (H (S (rank root))). lia.
Qed.

Lemma descends_self_not_acyclic node kind a :
  descends node kind a a -> ~ acyclicFrom node kind a.
Proof. intros Hd Hacc. induction Hacc as [a _ IH]. by apply (IH a). Qed.


(** The root of [pdfSelfLoop] is its own kid: no stack is enough. *)
Example self_loop_exhausts_stack (stack : nat) :
  traversePagesNodeMap stack pdfSelfLoop (classicOffsetsOf pdfSelfLoop) (Ref 2 0)
  = Throw RangeError.
Proof.
  rewrite traversePagesNodeMap_traverse.
  apply (traverse_self_loop _ _ (Ref 2 0) (Some 1) []); by vm_compute.
Qed.


(** *** What a node yields *)




(** ** An update that moves an object into an object stream *)

(** C4 fails on the code: the latest revision of [pdfCompressedUpdate]
    lists object 2 as a compressed entry, yet after the merge along /Prev
    the direct entry of the first revision is in the map as well, and it is
    the one every lookup uses: the object is read at its old offset 58 and
    the document, which has two pages, is counted as one. *)
Theorem compressed_entry_shadowed_by_earlier_revision :
  objToObjStm (latestXrefMapOf pdfCompressedUpdate 501) !! Some 2 = Some (ObjStmEntry 5 0)
  /\ objToOffset (latestXrefMapOf pdfCompressedUpdate 501) !! Some 2 = None
  /\ getObjectDictViaXrefMap Stored.inflate pdfCompressedUpdate
       (XrefMap (<[Some 5 := Entry 352 0]> ∅)
          (objToObjStm (latestXrefMapOf pdfCompressedUpdate 501))) 2 0
     = Ok (bytes "<< /Type /Pages /Kids [3 0 R 4 0 R] /Count 2 >>")
  /\ objToObjStm (mergedXrefMapOf pdfCompressedUpdate 501) !! Some 2
     = Some (ObjStmEntry 5 0)
  /\ objToOffset (mergedXrefMapOf pdfCompressedUpdate 501) !! Some 2 = Some (Entry 58 0)
  /\ getObjectDictViaXrefMap Stored.inflate pdfCompressedUpdate
       (mergedXrefMapOf pdfCompressedUpdate 501) 2 0
     = Ok (bytes "<< /Type /Pages /Kids [3 0 R] /Count 1 >>")
  /\ countPdfPagesSync_run Stored.inflate 50 pdfCompressedUpdate
     = ([XrefStreamTraversal], Ok 1).
Proof. repeat split; vm_compute; reflexivity. Qed.
(** * Further properties of the module *)

(** ** Positions in a buffer *)

Lemma len_app (a b : list Z) : len (a ++ b) = len a + len b.
Proof. unfold len. rewrite length_app. lia. Qed.

Lemma len_nonneg (a : list Z) : 0 <= len a.
Proof. unfold len. lia. Qed.

Lemma len_cons (c : Z) (a : list Z) : len (c :: a) = 1 + len a.
Proof. unfold len. simpl length. lia. Qed.

Lemma at_app_r (l x : list Z) (i : Z) :
  0 <= i -> at_ (l ++ x) (len l + i) = at_ x i.
Proof.
  intros Hi. unfold at_, len.
  assert ((Z.of_nat (length l) + i <? 0) = false) as -> by (apply Z.ltb_ge; lia).
  assert ((i <? 0) = false) as -> by (apply Z.ltb_ge; lia).
  rewrite lookup_app_r by lia. f_equal. lia.
Qed.

Lemma at_app_here (l x : list Z) : at_ (l ++ x) (len l) = head x.
Proof.
  rewrite <- (Z.add_0_r (len l)), at_app_r by lia. unfold at_. simpl. by destruct x.
Qed.

Lemma at_outside (b : list Z) (i : Z) : len b <= i -> at_ b i = None.
Proof.
  intros Hi. unfold at_, len in *. destruct (i <? 0); [done|].
  apply lookup_ge_None_2. lia.
Qed.

Lemma at_Some_inside (b : list Z) (i c : Z) : at_ b i = Some c -> 0 <= i < len b.
Proof.
  unfold at_, len. destruct (i <? 0) eqn:Hi; [done|]. intros H%lookup_lt_Some. lia.
Qed.

Lemma toString_app (l x r : list Z) :
  toString (l ++ x ++ r) (len l) (len l + len x) = x.
Proof.
  unfold toString. rewrite !len_app.
  pose proof (len_nonneg l). pose proof (len_nonneg x). pose proof (len_nonneg r).
  rewrite Z.max_r, Z.min_l by lia. unfold len.
  rewrite Nat2Z.id, drop_app_length.
  replace (Z.to_nat _) with (length x) by lia. by rewrite take_app_length.
Qed.

(** ** White space, lines and numbers *)

Lemma skipWhitespace_loop_spec (n : nat) (buffer : list Z) (pos : Z) :
  len buffer - pos <= Z.of_nat n ->
  let p := skipWhitespace_loop n buffer pos in
  pos <= p
  /\ (forall i, pos <= i < p -> isPdfWhitespace (at_ buffer i) = true)
  /\ (p < len buffer -> isPdfWhitespace (at_ buffer p) = false)
  /\ (pos <= len buffer -> p <= len buffer).
Proof.
  revert pos. induction n as [|n IH]; intros pos Hn; simpl.
  - repeat split; try lia.
  - destruct (pos <? len buffer) eqn:Hlt; [|repeat split; lia].
    destruct (isPdfWhitespace (at_ buffer pos)) eqn:Hws; [|repeat split; (done || lia)].
    destruct (IH (pos + 1) ltac:(lia)) as (H1 & H2 & H3 & H4).
    split; [lia|]. split; [|split; [done|lia]].
    intros i Hi. destruct (decide (i = pos)) as [->|]; [done|]. apply H2. lia.
Qed.

(** [skipWhitespace] returns the first position at or after [pos] that does
    not hold one of the six PDF white-space bytes (NUL, TAB, LF, FF, CR,
    space), or the end of the buffer: everything it skips is white space, it
    never moves backwards and never runs past the end. *)
Theorem skipWhitespace_stops_at_first_non_space (buffer : list Z) (pos : Z) :
  let p := skipWhitespace buffer pos in
  pos <= p
  /\ (forall i, pos <= i < p -> isPdfWhitespace (at_ buffer i) = true)
  /\ (p < len buffer -> isPdfWhitespace (at_ buffer p) = false)
  /\ (pos <= len buffer -> p <= len buffer).
Proof. apply skipWhitespace_loop_spec. lia. Qed.

Lemma at_app_mid (l x r : list Z) (i : Z) :
  0 <= i < len x -> at_ (l ++ x ++ r) (len l + i) = at_ x i.
Proof.
  intros Hi. rewrite at_app_r by lia. unfold at_, len in *.
  destruct (i <? 0); [done|]. rewrite lookup_app_l by lia. done.
Qed.

Lemma at_lookup (x : list Z) (i : Z) : 0 <= i < len x -> exists c, at_ x i = Some c /\ c ∈ x.
Proof.
  intros Hi. unfold at_, len in *.
  assert ((i <? 0) = false) as -> by (apply Z.ltb_ge; lia).
  destruct (lookup_lt_is_Some_2 x (Z.to_nat i) ltac:(lia)) as [c Hc].
  exists c. split; [done|]. by eapply list_elem_of_lookup_2.
Qed.

Lemma skipWhitespace_app (pre ws post : list Z) :
  Forall (fun c => isPdfWhitespace (Some c) = true) ws ->
  (forall c, head post = Some c -> isPdfWhitespace (Some c) = false) ->
  skipWhitespace (pre ++ ws ++ post) (len pre) = len pre + len ws.
Proof.
  intros Hws Hpost.
  destruct (skipWhitespace_loop_spec (Z.to_nat (len (pre ++ ws ++ post) - len pre))
              (pre ++ ws ++ post) (len pre) ltac:(lia)) as (H1 & H2 & H3 & H4).
  fold (skipWhitespace (pre ++ ws ++ post) (len pre)) in *.
  set (p := skipWhitespace (pre ++ ws ++ post) (len pre)) in *.
  rewrite !len_app in *.
  pose proof (len_nonneg pre). pose proof (len_nonneg ws). pose proof (len_nonneg post).
  specialize (H4 ltac:(lia)).
  destruct (Z.lt_trichotomy p (len pre + len ws)) as [Hlt|[Heq|Hgt]]; [|done|].
  - specialize (H3 ltac:(lia)).
    replace p with (len pre + (p - len pre)) in H3 by lia.
    rewrite at_app_mid in H3 by lia.
    destruct (at_lookup ws (p - len pre) ltac:(lia)) as (c & Hc & Hin).
    rewrite Hc in H3. rewrite Forall_forall in Hws. by rewrite Hws in H3.
  - specialize (H2 (len pre + len ws) ltac:(lia)).
    rewrite app_assoc in H2. rewrite <- len_app in H2. rewrite at_app_here in H2.
    destruct post as [|c post]; [change (len []) with 0 in H4; lia|].
    simpl in H2. by rewrite (Hpost c eq_refl) in H2.
Qed.

Lemma readLineAscii_loop_spec (n : nat) (buffer : list Z) (pos : Z) :
  len buffer - pos <= Z.of_nat n -> 0 <= pos ->
  let e := readLineAscii_loop n buffer pos in
  pos <= e
  /\ (forall i, pos <= i < e -> ~ (is_ (at_ buffer i) 0x0a || is_ (at_ buffer i) 0x0d))
  /\ (e < len buffer -> is_ (at_ buffer e) 0x0a || is_ (at_ buffer e) 0x0d)
  /\ (pos <= len buffer -> e <= len buffer).
Proof.
  revert pos. induction n as [|n IH]; intros pos Hn Hpos; simpl.
  - repeat split; try lia.
  - destruct (pos <? len buffer) eqn:Hlt; [|repeat split; lia].
    destruct (is_ (at_ buffer pos) 10 || is_ (at_ buffer pos) 13) eqn:Heol.
    { split; [lia|]. split; [intros i Hi; lia|]. split; [intros _; by rewrite Heol|lia]. }
    destruct (IH (pos + 1) ltac:(lia) ltac:(lia)) as (H1 & H2 & H3 & H4).
    split; [lia|]. split; [|split; [done|lia]].
    intros i Hi. destruct (decide (i = pos)) as [->|]; [rewrite Heol; exact id|]. apply H2. lia.
Qed.

(** The end of the line that starts at [len pre] in [pre ++ line ++ post],
    when [line] holds no LF and no CR and [post] is empty or starts with
    one. *)
Lemma readLineAscii_loop_app (pre line post : list Z) :
  Forall (fun c => c <> 0x0a /\ c <> 0x0d) line ->
  (forall c, head post = Some c -> c = 0x0a \/ c = 0x0d) ->
  readLineAscii_loop (Z.to_nat (len (pre ++ line ++ post) - len pre))
    (pre ++ line ++ post) (len pre) = len pre + len line.
Proof.
  intros Hline Hpost.
  pose proof (len_nonneg pre). pose proof (len_nonneg line). pose proof (len_nonneg post).
  destruct (readLineAscii_loop_spec (Z.to_nat (len (pre ++ line ++ post) - len pre))
              (pre ++ line ++ post) (len pre) ltac:(lia) ltac:(lia)) as (E1 & E2 & E3 & E4).
  set (e := readLineAscii_loop _ _ _) in *.
  rewrite !len_app in *. specialize (E4 ltac:(lia)).
  destruct (Z.lt_trichotomy e (len pre + len line)) as [Hlt|[Heq|Hgt]]; [|done|].
  - specialize (E3 ltac:(lia)).
    replace e with (len pre + (e - len pre)) in E3 by lia.
    rewrite at_app_mid in E3 by lia.
    destruct (at_lookup line (e - len pre) ltac:(lia)) as (c & Hc & Hin).
    rewrite Hc in E3. rewrite Forall_forall in Hline. destruct (Hline c Hin).
    simpl in E3. apply Is_true_true, orb_true_iff in E3. lia.
  - specialize (E2 (len pre + len line) ltac:(lia)).
    rewrite app_assoc in E2. rewrite <- len_app in E2. rewrite at_app_here in E2.
    destruct post as [|c post]; [change (len []) with 0 in E4; lia|].
    simpl in E2. destruct (Hpost c eq_refl) as [-> | ->]; by destruct E2.
Qed.

Lemma advanceToNextLine_loop_skip (n : nat) (pre line post : list Z) :
  Forall (fun c => c <> 0x0a /\ c <> 0x0d) line ->
  advanceToNextLine_loop (length line + n) (pre ++ line ++ post) (len pre)
  = advanceToNextLine_loop n (pre ++ line ++ post) (len pre + len line).
Proof.
  revert pre. induction line as [|c line IH]; intros pre Hline.
  - change (len []) with 0. by rewrite Z.add_0_r.
  - apply Forall_cons in Hline as [[Hc1 Hc2] Hline]. simpl length. simpl Nat.add.
    change ((c :: line) ++ post) with (c :: line ++ post).
    cbn [advanceToNextLine_loop].
    pose proof (len_nonneg pre). pose proof (len_nonneg line). pose proof (len_nonneg post).
    assert ((len pre <? len (pre ++ c :: line ++ post)) = true) as ->.
    { apply Z.ltb_lt. rewrite len_app, len_cons, len_app. lia. }
    rewrite at_app_here. simpl head. simpl is_.
    assert ((c =? 10) = false) as -> by lia. assert ((c =? 13) = false) as -> by lia.
    specialize (IH (pre ++ [c]) Hline).
    rewrite <- !app_assoc in IH. simpl in IH. rewrite len_app in IH.
    change (len [c]) with 1 in IH. rewrite IH, len_cons. f_equal. lia.
Qed.

Lemma readLine_advance_app (pre line eol post : list Z) :
  Forall (fun c => c <> 0x0a /\ c <> 0x0d) line ->
  eol = [0x0a] \/ eol = [0x0d; 0x0a]
  \/ (eol = [0x0d] /\ head post <> Some 0x0a) \/ (eol = [] /\ post = []) ->
  let buffer := pre ++ line ++ eol ++ post in
  readLineAscii buffer (len pre) = line
  /\ advanceToNextLine buffer (len pre) = len pre + len line + len eol.
Proof.
  intros Hline Heol buffer.
  pose proof (len_nonneg pre). pose proof (len_nonneg line). pose proof (len_nonneg post).
  pose proof (len_nonneg eol).
  assert (forall c, head (eol ++ post) = Some c -> c = 0x0a \/ c = 0x0d) as Hhead.
  { destruct Heol as [-> | [-> | [[-> _] | [-> ->]]]]; simpl; intros c [= <-] || intros c [=]; lia. }
  split.
  - unfold readLineAscii.
    destruct (len buffer <=? len pre) eqn:Hle.
    + apply Z.leb_le in Hle. subst buffer. rewrite !len_app in Hle.
      destruct line as [|c line]; [done|]. rewrite len_cons in Hle.
      pose proof (len_nonneg line). lia.
    + subst buffer. rewrite readLineAscii_loop_app by done. apply toString_app.
  - unfold advanceToNextLine. subst buffer.
    replace (Z.to_nat _) with (length line + length (eol ++ post))%nat
      by (rewrite !len_app; unfold len; rewrite length_app; lia).
    rewrite advanceToNextLine_loop_skip by done.
    rewrite (app_assoc pre line), <- len_app.
    destruct Heol as [-> | [-> | [[-> Hp] | [-> ->]]]]; cbn [length app advanceToNextLine_loop].
    + assert ((len (pre ++ line) <? len ((pre ++ line) ++ 10 :: post)) = true) as ->.
      { apply Z.ltb_lt. rewrite (len_app (pre ++ line)), len_cons.
        pose proof (len_nonneg post). lia. }
      rewrite at_app_here. simpl. rewrite len_app. change (len [10]) with 1. lia.
    + assert ((len (pre ++ line) <? len ((pre ++ line) ++ 13 :: 10 :: post)) = true) as ->.
      { apply Z.ltb_lt. rewrite (len_app (pre ++ line)), !len_cons.
        pose proof (len_nonneg post). lia. }
      rewrite at_app_here. simpl.
      rewrite at_app_r by lia. unfold at_ at 1. simpl.
      rewrite len_app. change (len [13; 10]) with 2. lia.
    + assert ((len (pre ++ line) <? len ((pre ++ line) ++ 13 :: post)) = true) as ->.
      { apply Z.ltb_lt. rewrite (len_app (pre ++ line)), !len_cons.
        pose proof (len_nonneg post). lia. }
      rewrite at_app_here. simpl.
      rewrite at_app_r by lia. unfold at_ at 1. simpl.
      assert (is_ (post !! 0%nat) 10 = false) as ->.
      { destruct post as [|c post]; [done|]. simpl in *.
        destruct (c =? 10) eqn:Hc; [|done]. apply Z.eqb_eq in Hc. by subst. }
      rewrite len_app. change (len [13]) with 1. lia.
    + rewrite ?app_nil_r. simpl. change (len []) with 0. lia.
Qed.

(** Reading a line and moving to the next one.  For a line that holds no
    LF and no CR and is ended by LF, by CR LF, by a lone CR, or by the end
    of the buffer, [readLineAscii] returns the line without its terminator
    and [advanceToNextLine] returns the position just after the
    terminator. *)
Theorem line_read_then_next_line (pre line eol post : list Z) :
  Forall (fun c => c <> 0x0a /\ c <> 0x0d) line ->
  eol = [0x0a] \/ eol = [0x0d; 0x0a]
  \/ (eol = [0x0d] /\ head post <> Some 0x0a) \/ (eol = [] /\ post = []) ->
  let buffer := pre ++ line ++ eol ++ post in
  readLineAscii buffer (len pre) = line
  /\ advanceToNextLine buffer (len pre) = len pre + len line + len eol.
Proof. apply readLine_advance_app. Qed.

Lemma line_read_then_next_line_witness :
  readLineAscii (bytes "xref" ++ [0x0d; 0x0a] ++ bytes "0 4") 0 = bytes "xref"
  /\ advanceToNextLine (bytes "xref" ++ [0x0d; 0x0a] ++ bytes "0 4") 0 = 6.
Proof.
  exact (line_read_then_next_line [] (bytes "xref") [0x0d; 0x0a] (bytes "0 4")
           ltac:(unfold bytes; simpl; repeat constructor; lia)
           (or_intror (or_introl eq_refl))).
Defined.

Lemma readNumberAscii_loop_skip (n : nat) (pre ds post : list Z) :
  Forall (fun c => isDigit c = true) ds ->
  readNumberAscii_loop (length ds + n) (pre ++ ds ++ post) (len pre)
  = readNumberAscii_loop n (pre ++ ds ++ post) (len pre + len ds).
Proof.
  revert pre. induction ds as [|c ds IH]; intros pre Hds.
  - change (len []) with 0. by rewrite Z.add_0_r.
  - apply Forall_cons in Hds as [Hc Hds]. simpl length. simpl Nat.add.
    change ((c :: ds) ++ post) with (c :: ds ++ post).
    cbn [readNumberAscii_loop].
    pose proof (len_nonneg pre). pose proof (len_nonneg ds). pose proof (len_nonneg post).
    assert ((len pre <? len (pre ++ c :: ds ++ post)) = true) as ->.
    { apply Z.ltb_lt. rewrite len_app, len_cons, len_app. lia. }
    rewrite at_app_here. cbn [andb head].
    unfold isDigit in Hc. rewrite Hc.
    specialize (IH (pre ++ [c]) Hds).
    rewrite <- !app_assoc in IH. simpl in IH. rewrite len_app in IH.
    change (len [c]) with 1 in IH. rewrite IH, len_cons. f_equal. lia.
Qed.

Lemma readNumberAscii_loop_stop (n : nat) (pre post : list Z) :
  (forall c, head post = Some c -> isDigit c = false) ->
  readNumberAscii_loop n (pre ++ post) (len pre) = len pre.
Proof.
  intros Hpost. destruct n as [|n]; [done|]. simpl.
  rewrite at_app_here. destruct post as [|c post]; simpl.
  - by rewrite andb_false_r.
  - specialize (Hpost c eq_refl). unfold isDigit in Hpost. by rewrite Hpost, andb_false_r.
Qed.

Lemma parseInt_signed (sign ds : list Z) :
  sign = [] \/ sign = [0x2b] \/ sign = [0x2d] ->
  ds <> [] -> Forall (fun c => isDigit c = true) ds ->
  parseInt (sign ++ ds)
  = Some ((if sameString sign [0x2d] then -1 else 1) * digitsValue ds).
Proof.
  intros Hsign Hne Hds.
  destruct Hsign as [-> | [-> | ->]].
  - simpl. rewrite digitsValue_parseInt by done. f_equal. lia.
  - unfold parseInt. simpl. rewrite takeDigits_all by done.
    destruct ds; [done|]. done.
  - unfold parseInt. simpl. rewrite takeDigits_all by done.
    destruct ds; [done|]. done.
Qed.

Lemma readNumberAscii_app (pre sign ds post : list Z) :
  sign = [] \/ sign = [0x2b] \/ sign = [0x2d] ->
  ds <> [] -> Forall (fun c => isDigit c = true) ds ->
  (forall c, head post = Some c -> isDigit c = false) ->
  readNumberAscii (pre ++ sign ++ ds ++ post) (len pre)
  = (Some ((if sameString sign [0x2d] then -1 else 1) * digitsValue ds),
     len pre + len sign + len ds).
Proof.
  intros Hsign Hne Hds Hpost. unfold readNumberAscii.
  pose proof (len_nonneg pre). pose proof (len_nonneg ds). pose proof (len_nonneg post).
  assert (0 < len ds) as Hlen by (destruct ds; [done|rewrite len_cons; pose proof (len_nonneg ds); lia]).
  rewrite at_app_here.
  assert ((if is_ (head (sign ++ ds ++ post)) 43 || is_ (head (sign ++ ds ++ post)) 45
           then len pre + 1 else len pre) = len pre + len sign) as ->.
  { destruct Hsign as [-> | [-> | ->]]; [|done|done]. simpl.
    destruct ds as [|d ds]; [done|]. apply Forall_cons in Hds as [Hd _].
    simpl. unfold isDigit in Hd.
    assert ((d =? 43) = false) as -> by lia. assert ((d =? 45) = false) as -> by lia.
    change (len []) with 0. simpl. lia. }
  rewrite (app_assoc pre sign), <- len_app.
  replace (Z.to_nat _) with (length ds + length post)%nat
    by (rewrite !len_app; unfold len; lia).
  rewrite readNumberAscii_loop_skip by done.
  rewrite (app_assoc (pre ++ sign) ds), <- (len_app (pre ++ sign)).
  rewrite readNumberAscii_loop_stop by done.
  assert ((len ((pre ++ sign) ++ ds) =? len (pre ++ sign)) = false) as ->.
  { rewrite (len_app (pre ++ sign)). lia. }
  rewrite <- !app_assoc, (app_assoc sign ds post), !len_app.
  replace (len pre + (len sign + len ds)) with (len pre + len (sign ++ ds))
    by (rewrite len_app; lia).
  rewrite toString_app, parseInt_signed by done. f_equal; rewrite ?len_app; lia.
Qed.





(** ** Finding [startxref] *)

Lemma drop_succ_cons (c : Z) (s : list Z) (j : Z) :
  0 <= j -> drop (Z.to_nat (j + 1)) (c :: s) = drop (Z.to_nat j) s.
Proof. intros Hj. by replace (Z.to_nat (j + 1)) with (S (Z.to_nat j)) by lia. Qed.

(** [rfind_upto] returns the last index in [i, from] at which the needle
    starts, and [last] when there is none. *)
Lemma rfind_upto_spec (needle s : list Z) (i from last : Z) :
  let r := rfind_upto needle s i from last in
  (r = last
   /\ forall j, 0 <= j <= len s -> i + j <= from ->
                startsWith needle (drop (Z.to_nat j) s) = false)
  \/ (exists j, r = i + j /\ 0 <= j <= len s /\ i + j <= from
        /\ startsWith needle (drop (Z.to_nat j) s) = true
        /\ forall j', j < j' <= len s -> i + j' <= from ->
                      startsWith needle (drop (Z.to_nat j') s) = false).
Proof.
  revert i last. induction s as [|c s IH]; intros i last; cbn [rfind_upto].
  - destruct (from <? i) eqn:Hfrom.
    + left. split; [done|]. intros j Hj1 Hj2. lia.
    + change (len []) with 0. destruct (startsWith needle []) eqn:Hsw.
      * right. exists 0. repeat split; try lia. done.
      * left. split; [done|]. intros j Hj _. by replace j with 0 by lia.
  - destruct (from <? i) eqn:Hfrom.
    + left. split; [done|]. intros j Hj1 Hj2. lia.
    + pose proof (len_nonneg s) as Hs. rewrite len_cons.
      destruct (IH (i + 1) (if startsWith needle (c :: s) then i else last))
        as [[Hr Hno]|(j & Hr & Hj & Hle & Hsw & Hno)].
      * destruct (startsWith needle (c :: s)) eqn:Hsw.
        -- right. exists 0. rewrite Hr. repeat split; try lia; [done|].
           intros j' Hj' Hle'. replace j' with ((j' - 1) + 1) by lia.
           rewrite drop_succ_cons by lia. apply Hno; lia.
        -- left. split; [done|]. intros j Hj Hle.
           destruct (decide (j = 0)) as [->|]; [done|].
           replace j with ((j - 1) + 1) by lia.
           rewrite drop_succ_cons by lia. apply Hno; lia.
      * right. exists (j + 1). rewrite Hr, drop_succ_cons by lia.
        repeat split; try lia; [done|].
        intros j' Hj' Hle'. replace j' with ((j' - 1) + 1) by lia.
        rewrite drop_succ_cons by lia. apply Hno; lia.
Qed.

(** [findStartXref] returns the position of the last [startxref] keyword of
    the whole buffer, and -1 exactly when the buffer holds none: the
    fall-back search in the last 2 MiB never finds what the first search
    missed. *)
Theorem findStartXref_last_occurrence (buffer : list Z) :
  let occursAt i := startsWith (bytes "startxref") (drop (Z.to_nat i) buffer) in
  let p := findStartXref buffer in
  (p = -1 /\ forall i, 0 <= i -> occursAt i = false)
  \/ (0 <= p /\ p + 9 <= len buffer /\ occursAt p = true
      /\ forall i, p < i -> occursAt i = false).
Proof.
  intros occursAt p. subst p. unfold findStartXref.
  pose proof (len_nonneg buffer) as Hlen.
  assert (forall i, len buffer <= i -> occursAt i = false) as Hout.
  { intros i Hi. unfold occursAt. rewrite drop_ge by (unfold len in Hi; lia). done. }
  assert (forall i, occursAt i = true -> i + 9 <= len buffer) as Hfit.
  { intros i Hi. unfold occursAt in Hi.
    destruct (decide (i + 9 <= len buffer)) as [|Hn]; [done|].
    assert (length (drop (Z.to_nat i) buffer) < 9)%nat as Hshort
      by (rewrite length_drop; unfold len in Hn; lia).
    destruct (drop (Z.to_nat i) buffer) as [|c0 [|c1 [|c2 [|c3 [|c4 [|c5 [|c6 [|c7 [|c8 l]]]]]]]]];
      simpl in Hshort; try lia; simpl in Hi; rewrite ?andb_false_r in Hi; done. }
  assert ((forall i, 0 <= i -> occursAt i = false) ->
          forall from, 0 <= from -> bufferLastIndexOf buffer (bytes "startxref") from = -1)
    as Hnone.
  { intros Hno from Hfrom. unfold bufferLastIndexOf.
    assert ((from <? 0) = false) as -> by lia. cbn [andb].
    match goal with |- rfind_upto ?n ?s 0 ?f (-1) = _ =>
      destruct (rfind_upto_spec n s 0 f (-1)) as [[Hr _]|(j & _ & Hj & _ & Hsw & _)]
    end; [done|].
    pose proof (Hno j ltac:(lia)) as Hn. unfold occursAt in Hn. congruence. }
  set (q := bufferLastIndexOf buffer (bytes "startxref") (len buffer - 1)).
  assert ((q = -1 /\ forall i, 0 <= i -> occursAt i = false)
          \/ (0 <= q /\ occursAt q = true /\ forall i, q < i -> occursAt i = false)) as Hq.
  { subst q. unfold bufferLastIndexOf.
    destruct ((len buffer - 1 <? 0) && (len buffer - 1 + len buffer <? 0)) eqn:Hempty.
    - left. split; [done|]. intros i Hi. apply Hout. lia.
    - assert ((len buffer - 1 <? 0) = false) as -> by lia.
      assert ((len buffer - 1 + len (bytes "startxref") <=? len buffer) = false) as ->
        by (change (len (bytes "startxref")) with 9; lia).
      destruct (rfind_upto_spec (bytes "startxref") buffer 0 (len buffer - 1) (-1))
        as [[Hr Hno]|(j & Hr & Hj & Hle & Hsw & Hno)].
      + left. split; [done|]. intros i Hi.
        destruct (decide (i <= len buffer - 1)); [apply Hno; lia|apply Hout; lia].
      + right. rewrite Hr, Z.add_0_l. split; [lia|]. split; [done|].
        intros i Hi. destruct (decide (i <= len buffer - 1)); [apply Hno; lia|apply Hout; lia]. }
  destruct Hq as [[Hq Hno]|(Hq & Hsw & Hno)].
  - rewrite Hq. change (-1 =? -1) with true. cbv iota.
    left. split; [|done]. apply Hnone; [done|lia].
  - assert ((q =? -1) = false) as -> by lia.
    right. split; [done|]. split; [by apply Hfit|]. by split.
Qed.

(** ** Reading a dictionary *)

Lemma at_app_next (l : list Z) (c : Z) (x : list Z) :
  at_ (l ++ c :: x) (len l + 1) = head x.
Proof. rewrite at_app_r by lia. unfold at_. simpl. by destruct x. Qed.

Lemma isPair_app (l : list Z) (c1 c2 c : Z) (x : list Z) :
  isPair (l ++ c1 :: c2 :: x) (len l) c = (c1 =? c) && (c2 =? c).
Proof. unfold isPair. by rewrite at_app_here, at_app_next. Qed.

Lemma isPair_app_other (l : list Z) (c1 c : Z) (x : list Z) :
  c1 <> c -> isPair (l ++ c1 :: x) (len l) c = false.
Proof.
  intros Hc. unfold isPair. rewrite at_app_here. simpl.
  by assert ((c1 =? c) = false) as -> by lia.
Qed.

Lemma readDictString_loop_body (body : list Z) :
  dictBody body ->
  forall (buffer l r : list Z) (d : Z),
    buffer = l ++ body ++ r -> 1 <= d ->
    exists m : nat,
      (m <= length body)%nat
      /\ forall n : nat,
           readDictString_loop (m + n) buffer (len l) d
           = readDictString_loop n buffer (len l + len body) d.
Proof.
  induction 1 as [|c s Hc1 Hc2 _ IH|inner s _ IHinner _ IHs]; intros buffer l r d Hbuf Hd.
  - exists 0%nat. split; [done|]. intros n. change (len []) with 0. by rewrite Z.add_0_r.
  - destruct (IH buffer (l ++ [c]) r d) as (m & Hm & Hrun); [by rewrite Hbuf, <- app_assoc|done|].
    exists (S m). split; [simpl; lia|]. intros n. cbn [Nat.add readDictString_loop].
    pose proof (len_nonneg l). pose proof (len_nonneg s). pose proof (len_nonneg r).
    assert ((len l <? len buffer) = true) as ->.
    { apply Z.ltb_lt. rewrite Hbuf, len_app. simpl app. rewrite len_cons, len_app. lia. }
    assert (isPair buffer (len l) 60 = false) as ->
      by (rewrite Hbuf; simpl app; by apply isPair_app_other).
    assert (isPair buffer (len l) 62 = false) as ->
      by (rewrite Hbuf; simpl app; by apply isPair_app_other).
    rewrite len_app in Hrun. change (len [c]) with 1 in Hrun.
    rewrite Hrun, len_cons. f_equal. lia.
  - pose proof (len_nonneg l). pose proof (len_nonneg s). pose proof (len_nonneg r).
    pose proof (len_nonneg inner).
    destruct (IHinner buffer (l ++ bytes "<<") (bytes ">>" ++ s ++ r) (d + 1))
      as (m1 & Hm1 & Hrun1); [by rewrite Hbuf, <- !app_assoc|lia|].
    destruct (IHs buffer (l ++ bytes "<<" ++ inner ++ bytes ">>") r d)
      as (m2 & Hm2 & Hrun2); [by rewrite Hbuf, <- !app_assoc|done|].
    exists (S (m1 + S m2)). split.
    { rewrite !length_app. change (length (bytes "<<")) with 2%nat.
      change (length (bytes ">>")) with 2%nat. lia. }
    intros n. cbn [Nat.add readDictString_loop].
    assert ((len l <? len buffer) = true) as ->.
    { apply Z.ltb_lt. rewrite Hbuf, !len_app. change (len (bytes "<<")) with 2.
      change (len (bytes ">>")) with 2. lia. }
    assert (isPair buffer (len l) 60 = true) as ->
      by (rewrite Hbuf; apply (isPair_app l 60 60 60)).
    rewrite len_app in Hrun1. change (len (bytes "<<")) with 2 in Hrun1.
    rewrite <- Nat.add_assoc, Hrun1. cbn [Nat.add readDictString_loop].
    assert ((len l + 2 + len inner <? len buffer) = true) as ->.
    { apply Z.ltb_lt. rewrite Hbuf, !len_app. change (len (bytes "<<")) with 2.
      change (len (bytes ">>")) with 2. lia. }
    assert (buffer = (l ++ bytes "<<" ++ inner) ++ 0x3e :: 0x3e :: s ++ r) as Hbuf'
      by (by rewrite Hbuf, <- !app_assoc).
    assert (len l + 2 + len inner = len (l ++ bytes "<<" ++ inner)) as Hpos
      by (rewrite !len_app; change (len (bytes "<<")) with 2; lia).
    rewrite Hpos.
    assert (isPair buffer (len (l ++ bytes "<<" ++ inner)) 60 = false) as ->
      by (rewrite Hbuf'; by apply isPair_app_other).
    assert (isPair buffer (len (l ++ bytes "<<" ++ inner)) 62 = true) as ->
      by (rewrite Hbuf'; apply (isPair_app _ 62 62 62)).
    assert ((d + 1 - 1 =? 0) = false) as -> by lia.
    replace (d + 1 - 1) with d by lia.
    rewrite !len_app in Hrun2. change (len (bytes "<<")) with 2 in Hrun2.
    change (len (bytes ">>")) with 2 in Hrun2.
    replace (len (l ++ bytes "<<" ++ inner) + 2) with (len l + (2 + (len inner + 2)))
      by (rewrite <- Hpos; lia).
    rewrite Hrun2. f_equal. rewrite !len_app. change (len (bytes "<<")) with 2.
    change (len (bytes ">>")) with 2. lia.
Qed.

Lemma readDictString_nested (pre body post : list Z) :
  dictBody body ->
  readDictString (pre ++ bytes "<<" ++ body ++ bytes ">>" ++ post) (len pre)
  = Ok (bytes "<<" ++ body ++ bytes ">>", len pre + len body + 4).
Proof.
  intros Hbody. unfold readDictString.
  pose proof (len_nonneg pre). pose proof (len_nonneg body). pose proof (len_nonneg post).
  set (buffer := pre ++ bytes "<<" ++ body ++ bytes ">>" ++ post).
  assert (isPair buffer (len pre) 60 = true) as Hopen
    by (subst buffer; apply (isPair_app pre 60 60 60)).
  rewrite Hopen. cbn [negb].
  destruct (readDictString_loop_body body Hbody buffer (pre ++ bytes "<<")
              (bytes ">>" ++ post) 1) as (m & Hm & Hrun);
    [subst buffer; by rewrite <- !app_assoc|done|].
  assert (len buffer = len pre + 2 + len body + 2 + len post) as Hlen.
  { subst buffer. rewrite !len_app. change (len (bytes "<<")) with 2.
    change (len (bytes ">>")) with 2. lia. }
  assert (exists n, Z.to_nat (len buffer - len pre) = S (m + S n)) as [n ->].
  { exists (Z.to_nat (len buffer - len pre) - m - 2)%nat. unfold len in *. lia. }
  cbn [readDictString_loop].
  assert ((len pre <? len buffer) = true) as -> by lia.
  rewrite Hopen. rewrite len_app in Hrun. change (len (bytes "<<")) with 2 in Hrun.
  change (0 + 1) with 1. rewrite Hrun. cbn [readDictString_loop].
  assert ((len pre + 2 + len body <? len buffer) = true) as -> by lia.
  assert (buffer = (pre ++ bytes "<<" ++ body) ++ 0x3e :: 0x3e :: post) as Hbuf'
    by (subst buffer; by rewrite <- !app_assoc).
  assert (len pre + 2 + len body = len (pre ++ bytes "<<" ++ body)) as Hpos
    by (rewrite !len_app; change (len (bytes "<<")) with 2; lia).
  rewrite Hpos.
  assert (isPair buffer (len (pre ++ bytes "<<" ++ body)) 60 = false) as ->
    by (rewrite Hbuf'; by apply isPair_app_other).
  assert (isPair buffer (len (pre ++ bytes "<<" ++ body)) 62 = true) as ->
    by (rewrite Hbuf'; apply (isPair_app _ 62 62 62)).
  change (1 - 1 =? 0) with true. cbv iota. rewrite <- Hpos.
  f_equal. f_equal; [|lia].
  subst buffer.
  replace (len pre + 2 + len body + 2) with (len pre + len (bytes "<<" ++ body ++ bytes ">>"))
    by (rewrite !len_app; change (len (bytes "<<")) with 2; change (len (bytes ">>")) with 2; lia).
  replace (pre ++ bytes "<<" ++ body ++ bytes ">>" ++ post)
    with (pre ++ (bytes "<<" ++ body ++ bytes ">>") ++ post) by (by rewrite <- !app_assoc).
  apply toString_app.
Qed.

(** [readDictString] on a dictionary whose nesting is plain (between [<<]
    and [>>] only bytes other than [<] and [>] and dictionaries of the same
    kind) returns the text up to the [>>] that closes the opening [<<], and
    the position just after it, whatever follows. *)
Theorem readDictString_returns_matching_close (pre body post : list Z) :
  dictBody body ->
  readDictString (pre ++ bytes "<<" ++ body ++ bytes ">>" ++ post) (len pre)
  = Ok (bytes "<<" ++ body ++ bytes ">>", len pre + len body + 4).
Proof. apply readDictString_nested. Qed.

Lemma dictBody_plain (s : list Z) :
  forallb (fun c => negb (c =? 0x3c) && negb (c =? 0x3e)) s = true -> dictBody s.
Proof.
  induction s as [|c s IH]; [constructor|]. simpl.
  intros [[H1 H2]%andb_prop Hs]%andb_prop. apply dictBody_byte; [lia|lia|by apply IH].
Qed.

Lemma dictBody_app (a b : list Z) : dictBody a -> dictBody b -> dictBody (a ++ b).
Proof.
  induction 1 as [|c s Hc1 Hc2 _ IH|inner s Hinner _ _ IHs]; intros Hb; [done| |].
  - simpl. by apply dictBody_byte; [| |apply IH].
  - rewrite <- !app_assoc. apply dictBody_dict; [done|by apply IHs].
Qed.

Lemma readDictString_returns_matching_close_witness :
  readDictString (bytes "trailer <</A<</B 1>>/C 2>> >>") 8
  = Ok (bytes "<</A<</B 1>>/C 2>>", 26).
Proof.
  exact (readDictString_returns_matching_close (bytes "trailer ")
           (bytes "/A" ++ bytes "<<" ++ bytes "/B 1" ++ bytes ">>" ++ bytes "/C 2")
           (bytes " >>")
           (dictBody_app _ _ (dictBody_plain (bytes "/A") eq_refl)
              (dictBody_dict _ _ (dictBody_plain (bytes "/B 1") eq_refl)
                 (dictBody_plain (bytes "/C 2") eq_refl)))).
Defined.

(** ** What a match tells about the text *)

Lemma one_inv (p : Z -> bool) (k : kont) (cur : cursor) (caps : captures)
    (r : Z * list (list Z)) :
  one p k cur caps = Some r ->
  exists c s', rest cur = c :: s' /\ p c = true
               /\ k (Cursor (Some c) s' (here cur + 1)) caps = Some r.
Proof.
  unfold one. destruct (rest cur) as [|c s']; [done|].
  destruct (p c) eqn:Hp; [|done]. eauto.
Qed.

Lemma greedy_inv (p : Z -> bool) (k : kont) (b : option Z) (s : list Z) (i : Z)
    (caps : captures) (r : Z * list (list Z)) :
  greedy p k b s i caps = Some r ->
  exists xs s' b', s = xs ++ s' /\ Forall (fun c => p c = true) xs
                   /\ (xs = [] -> b' = b)
                   /\ k (Cursor b' s' (i + len xs)) caps = Some r.
Proof.
  revert b i. induction s as [|c s IH]; intros b i; simpl.
  - intros Hk. exists [], [], b. change (len []) with 0. rewrite Z.add_0_r. by repeat split.
  - destruct (p c) eqn:Hp.
    + destruct (greedy p k (Some c) s (i + 1) caps) as [r'|] eqn:Hg.
      * intros [= <-]. destruct (IH _ _ Hg) as (xs & s' & b' & -> & Hxs & _ & Hk).
        exists (c :: xs), s', b'. rewrite len_cons.
        replace (i + (1 + len xs)) with (i + 1 + len xs) by lia.
        repeat split; [by constructor|done|done].
      * intros Hk. exists [], (c :: s), b. change (len []) with 0. rewrite Z.add_0_r.
        by repeat split.
    + intros Hk. exists [], (c :: s), b. change (len []) with 0. rewrite Z.add_0_r.
      by repeat split.
Qed.

Lemma lazy_inv (p : Z -> bool) (k : kont) (b : option Z) (s : list Z) (i : Z)
    (caps : captures) (r : Z * list (list Z)) :
  lazy p k b s i caps = Some r ->
  exists xs s' b', s = xs ++ s' /\ Forall (fun c => p c = true) xs
                   /\ (xs = [] -> b' = b)
                   /\ k (Cursor b' s' (i + len xs)) caps = Some r.
Proof.
  revert b i. induction s as [|c s IH]; intros b i; simpl.
  - destruct (k (Cursor b [] i) caps) eqn:Hk; [|done]. intros [= <-].
    exists [], [], b. change (len []) with 0. rewrite Z.add_0_r. by repeat split.
  - destruct (k (Cursor b (c :: s) i) caps) eqn:Hk.
    + intros [= <-]. exists [], (c :: s), b. change (len []) with 0. rewrite Z.add_0_r.
      by repeat split.
    + destruct (p c) eqn:Hp; [|done]. intros Hg.
      destruct (IH _ _ Hg) as (xs & s' & b' & -> & Hxs & _ & Hk').
      exists (c :: xs), s', b'. rewrite len_cons.
      replace (i + (1 + len xs)) with (i + 1 + len xs) by lia.
      repeat split; [by constructor|done|done].
Qed.

Lemma run_app (re1 re2 : list atom) (k : kont) :
  run (re1 ++ re2) k = run re1 (run re2 k).
Proof. induction re1 as [|a re1 IH]; [done|]. simpl. by rewrite IH. Qed.

(** A literal consumes its own characters; after a non-empty literal the
    character before the cursor is the last one of the literal. *)
Lemma run_lit_inv (t : list Z) (k : kont) (cur : cursor) (caps : captures)
    (r : Z * list (list Z)) :
  run (map (fun c => One (Z.eqb c)) t) k cur caps = Some r ->
  exists s', rest cur = t ++ s'
             /\ k (Cursor (if last t is Some c then Some c else before cur) s'
                     (here cur + len t)) caps = Some r.
Proof.
  revert cur. induction t as [|c t IH]; intros cur; simpl.
  - intros Hk. exists (rest cur). change (len []) with 0. rewrite Z.add_0_r.
    split; [done|]. by destruct cur.
  - intros (c' & s' & Hrest & Hc & Hk)%one_inv. apply Z.eqb_eq in Hc as <-.
    destruct (IH _ Hk) as (s'' & Hrest' & Hk'). simpl in Hrest', Hk'.
    exists s''. rewrite Hrest, Hrest'. split; [done|]. rewrite len_cons.
    replace (here cur + (1 + len t)) with (here cur + 1 + len t) by lia.
    destruct t as [|c1 t]; [exact Hk'|]. rewrite last_cons_cons.
    destruct (last (c1 :: t)) eqn:Hl; [exact Hk'|]. by apply last_None in Hl.
Qed.

Lemma star_inv (p : Z -> bool) (k : kont) (cur : cursor) (caps : captures)
    (r : Z * list (list Z)) :
  step (Star p) k cur caps = Some r ->
  exists xs s' b', rest cur = xs ++ s' /\ Forall (fun c => p c = true) xs
                   /\ (xs = [] -> b' = before cur)
                   /\ k (Cursor b' s' (here cur + len xs)) caps = Some r.
Proof. simpl. apply greedy_inv. Qed.

Lemma plus_inv (p : Z -> bool) (k : kont) (cur : cursor) (caps : captures)
    (r : Z * list (list Z)) :
  step (Plus p) k cur caps = Some r ->
  exists xs s' b', rest cur = xs ++ s' /\ xs <> [] /\ Forall (fun c => p c = true) xs
                   /\ k (Cursor b' s' (here cur + len xs)) caps = Some r.
Proof.
  simpl. intros (c & s1 & Hrest & Hc & Hg)%one_inv. cbn [rest before here] in Hg.
  apply greedy_inv in Hg as (xs & s' & b' & -> & Hxs & _ & Hk). simpl in Hk.
  exists (c :: xs), s', b'. rewrite len_cons.
  replace (here cur + (1 + len xs)) with (here cur + 1 + len xs) by lia.
  repeat split; [done|done|by constructor|done].
Qed.

Lemma take_len_app (xs s : list Z) (i : Z) :
  take (Z.to_nat (i + len xs - i)) (xs ++ s) = xs.
Proof.
  replace (Z.to_nat (i + len xs - i)) with (length xs) by (unfold len; lia).
  by rewrite take_app_length.
Qed.

(** [(\d+)] captures a non-empty run of digits. *)
Lemma digitsGroup_inv (k : kont) (cur : cursor) (caps : captures)
    (r : Z * list (list Z)) :
  run digitsGroup k cur caps = Some r ->
  exists ds s' b', rest cur = ds ++ s' /\ ds <> []
                   /\ Forall (fun c => isDigit c = true) ds
                   /\ k (Cursor b' s' (here cur + len ds))
                        (Captures None (ds :: groups caps)) = Some r.
Proof.
  unfold digitsGroup. cbn [app run step].
  intros (c & s1 & Hrest & Hc & Hg)%one_inv. cbn [rest before here] in Hg.
  apply greedy_inv in Hg as (xs & s' & b' & -> & Hxs & _ & Hk). cbn in Hk.
  exists (c :: xs), s', b'. rewrite len_cons.
  replace (here cur + (1 + len xs)) with (here cur + 1 + len xs) by lia.
  repeat split; [done|done|by constructor|].
  rewrite Hrest in Hk.
  replace (Z.to_nat (here cur + 1 + len xs - here cur)) with (length (c :: xs)) in Hk
    by (unfold len; simpl; lia).
  change (c :: xs ++ s') with ((c :: xs) ++ s') in Hk.
  by rewrite (take_app_length (c :: xs)) in Hk.
Qed.

Lemma search_inv (re : list atom) (b : option Z) (s : list Z) (i : Z) (m : found) :
  search re b s i = Some m ->
  exists pre s' b', s = pre ++ s' /\ index m = i + len pre
                    /\ run re accept (Cursor b' s' (index m)) (Captures None [])
                       = Some (stop m, group m).
Proof.
  revert b i. induction s as [|c s IH]; intros b i; simpl.
  - destruct (run re accept (Cursor b [] i) (Captures None [])) as [[e gs]|] eqn:Hrun; [|done].
    intros [= <-]. exists [], [], b. simpl. change (len []) with 0. rewrite Z.add_0_r.
    by repeat split.
  - destruct (run re accept (Cursor b (c :: s) i) (Captures None [])) as [[e gs]|] eqn:Hrun.
    + intros [= <-]. exists [], (c :: s), b. simpl. change (len []) with 0.
      rewrite Z.add_0_r. by repeat split.
    + intros (pre & s' & b' & -> & Hi & Hrun')%IH.
      exists (c :: pre), s', b'. rewrite len_cons. repeat split; [lia|done].
Qed.

Lemma match_inv (re : list atom) (s : list Z) (m : found) :
  match_ re s = Some m ->
  exists pre s' b', s = pre ++ s' /\ index m = len pre
                    /\ run re accept (Cursor b' s' (index m)) (Captures None [])
                       = Some (stop m, group m).
Proof.
  rewrite match_search. intros (pre & s' & b' & Hs & Hi & Hrun)%search_inv.
  exists pre, s', b'. by rewrite Z.add_0_l in Hi.
Qed.

(** With nothing after it, [(\d+)] captures the whole run of digits at the
    cursor. *)
Lemma greedy_total (p : Z -> bool) (k : kont) (b : option Z) (s : list Z) (i : Z)
    (caps : captures) :
  (forall cur caps', k cur caps' <> None) ->
  exists xs s' b', s = xs ++ s' /\ Forall (fun c => p c = true) xs
                   /\ (forall c, head s' = Some c -> p c = false)
                   /\ greedy p k b s i caps = k (Cursor b' s' (i + len xs)) caps.
Proof.
  intros Hk. revert b i. induction s as [|c s IH]; intros b i; simpl.
  - exists [], [], b. change (len []) with 0. rewrite Z.add_0_r. by repeat split.
  - destruct (p c) eqn:Hp.
    + destruct (IH (Some c) (i + 1)) as (xs & s' & b' & -> & Hxs & Hstop & Hg).
      rewrite Hg. exists (c :: xs), s', b'. rewrite len_cons.
      replace (i + (1 + len xs)) with (i + 1 + len xs) by lia.
      split; [done|]. split; [by constructor|]. split; [done|].
      destruct (k (Cursor b' s' (i + 1 + len xs)) caps) eqn:Hk'; [done|by apply Hk in Hk'].
    + exists [], (c :: s), b. change (len []) with 0. rewrite Z.add_0_r.
      split; [done|]. split; [done|]. split; [by intros ? [= <-]|done].
Qed.

Lemma digitsGroup_last_inv (cur : cursor) (caps : captures) (r : Z * list (list Z)) :
  run digitsGroup accept cur caps = Some r ->
  exists ds s', rest cur = ds ++ s' /\ ds <> []
                /\ Forall (fun c => isDigit c = true) ds
                /\ (forall c, head s' = Some c -> isDigit c = false)
                /\ r = (here cur + len ds, rev (ds :: groups caps)).
Proof.
  unfold digitsGroup. cbn [run step].
  intros (c & s1 & Hrest & Hc & Hg)%one_inv. cbn [rest before here] in Hg.
  match type of Hg with greedy ?p ?k ?b ?s ?i ?caps = _ =>
    destruct (greedy_total p k b s i caps) as (xs & s' & b' & -> & Hxs & Hstop & Hg')
  end.
  { intros cur' caps'. cbn. by destruct (opened caps'). }
  rewrite Hg' in Hg. cbn in Hg.
  exists (c :: xs), s'. rewrite len_cons.
  replace (here cur + (1 + len xs)) with (here cur + 1 + len xs) by lia.
  repeat split; [done|done|by constructor|done|].
  rewrite Hrest in Hg.
  replace (Z.to_nat (here cur + 1 + len xs - here cur)) with (length (c :: xs)) in Hg
    by (unfold len; simpl; lia).
  change (c :: xs ++ s') with ((c :: xs) ++ s') in Hg.
  rewrite (take_app_length (c :: xs)) in Hg. unfold accept in Hg.
  cbn [here groups] in Hg. by injection Hg as <-.
Qed.

Lemma digitsValue_nonneg_acc (ds : list Z) (acc : Z) :
  0 <= acc -> Forall (fun c => isDigit c = true) ds ->
  0 <= fold_left (fun a d => a * 10 + (d - 0x30)) ds acc.
Proof.
  revert acc. induction ds as [|d ds IH]; intros acc Hacc Hds; [done|].
  apply Forall_cons in Hds as [Hd Hds]. simpl. apply IH; [|done].
  unfold isDigit in Hd. lia.
Qed.

Lemma digitsValue_nonneg (ds : list Z) :
  Forall (fun c => isDigit c = true) ds -> 0 <= digitsValue ds.
Proof. by apply digitsValue_nonneg_acc. Qed.

(** The patterns that are a literal, white space and [(\d+)]. *)
Lemma litSpacesDigits_inv (t : string) (cur : cursor) (caps : captures)
    (r : Z * list (list Z)) :
  run (lit t ++ spaces ++ digitsGroup) accept cur caps = Some r ->
  exists ws ds post,
    rest cur = bytes t ++ ws ++ ds ++ post
    /\ ws <> [] /\ Forall (fun c => isSpace c = true) ws
    /\ ds <> [] /\ Forall (fun c => isDigit c = true) ds
    /\ (forall c, head post = Some c -> isDigit c = false)
    /\ snd r = rev (ds :: groups caps).
Proof.
  unfold lit, spaces. rewrite !run_app. cbn [run].
  intros (s1 & Hr1 & Hrun)%run_lit_inv.
  apply plus_inv in Hrun as (ws & s2 & b2 & Hr2 & Hne & Hws & Hrun). cbn [rest] in Hr2.
  apply digitsGroup_last_inv in Hrun as (ds & post & Hr3 & Hds0 & Hds & Hpost & ->).
  cbn [rest] in Hr3.
  exists ws, ds, post. rewrite Hr1, Hr2, Hr3. by repeat split.
Qed.

Lemma keyIntRe_inv (key : string) (cur : cursor) (caps : captures)
    (r : Z * list (list Z)) :
  run (keyIntRe key) accept cur caps = Some r ->
  exists ws ws' ds post,
    rest cur = bytes "/" ++ ws ++ bytes key ++ ws' ++ ds ++ post
    /\ Forall (fun c => isSpace c = true) ws
    /\ ws' <> [] /\ Forall (fun c => isSpace c = true) ws'
    /\ ds <> [] /\ Forall (fun c => isDigit c = true) ds
    /\ (forall c, head post = Some c -> isDigit c = false)
    /\ snd r = rev (ds :: groups caps).
Proof.
  unfold keyIntRe, lit, optSpaces, spaces. rewrite !run_app. cbn [run].
  intros (s1 & Hr1 & Hrun)%run_lit_inv.
  apply star_inv in Hrun as (ws & s2 & b2 & Hr2 & Hws & _ & Hrun). cbn [rest] in Hr2.
  apply run_lit_inv in Hrun as (s3 & Hr3 & Hrun). cbn [rest] in Hr3.
  apply plus_inv in Hrun as (ws' & s4 & b4 & Hr4 & Hne & Hws' & Hrun). cbn [rest] in Hr4.
  apply digitsGroup_last_inv in Hrun as (ds & post & Hr5 & Hds0 & Hds & Hpost & ->).
  cbn [rest] in Hr5.
  exists ws, ws', ds, post. rewrite Hr1, Hr2, Hr3, Hr4, Hr5. by repeat split.
Qed.



Lemma keyRefRe_inv (key : string) (cur : cursor) (caps : captures)
    (r : Z * list (list Z)) :
  run (keyRefRe key) accept cur caps = Some r ->
  exists ws ws1 ds ws2 gs ws3 post,
    rest cur = bytes "/" ++ ws ++ bytes key ++ ws1 ++ ds ++ ws2 ++ gs ++ ws3
               ++ bytes "R" ++ post
    /\ Forall (fun c => isSpace c = true) ws
    /\ ws1 <> [] /\ Forall (fun c => isSpace c = true) ws1
    /\ ds <> [] /\ Forall (fun c => isDigit c = true) ds
    /\ ws2 <> [] /\ Forall (fun c => isSpace c = true) ws2
    /\ gs <> [] /\ Forall (fun c => isDigit c = true) gs
    /\ ws3 <> [] /\ Forall (fun c => isSpace c = true) ws3
    /\ snd r = rev (gs :: ds :: groups caps).
Proof.
  unfold keyRefRe, lit, optSpaces, spaces. rewrite !run_app. cbn [run].
  intros (s1 & Hr1 & Hrun)%run_lit_inv.
  apply star_inv in Hrun as (ws & s2 & b2 & Hr2 & Hws & _ & Hrun). cbn [rest] in Hr2.
  apply run_lit_inv in Hrun as (s3 & Hr3 & Hrun). cbn [rest] in Hr3.
  apply plus_inv in Hrun as (ws1 & s4 & b4 & Hr4 & Hne1 & Hws1 & Hrun). cbn [rest] in Hr4.
  apply digitsGroup_inv in Hrun as (ds & s5 & b5 & Hr5 & Hds0 & Hds & Hrun).
  cbn [rest groups] in Hr5, Hrun.
  apply plus_inv in Hrun as (ws2 & s6 & b6 & Hr6 & Hne2 & Hws2 & Hrun). cbn [rest] in Hr6.
  apply digitsGroup_inv in Hrun as (gs & s7 & b7 & Hr7 & Hgs0 & Hgs & Hrun).
  cbn [rest groups] in Hr7, Hrun.
  apply plus_inv in Hrun as (ws3 & s8 & b8 & Hr8 & Hne3 & Hws3 & Hrun). cbn [rest] in Hr8.
  apply run_lit_inv in Hrun as (post & Hr9 & Hrun). cbn [rest] in Hr9.
  unfold accept in Hrun. cbn [groups] in Hrun. injection Hrun as <-.
  exists ws, ws1, ds, ws2, gs, ws3, post.
  rewrite Hr1, Hr2, Hr3, Hr4, Hr5, Hr6, Hr7, Hr8, Hr9. by repeat split.
Qed.



(** ** The heuristic scanners *)

Lemma slice_infix (s : list Z) (a b : option Z) :
  exists l r, s = l ++ slice s a b ++ r.
Proof.
  unfold slice. set (i := Z.to_nat (adjustOffset a (len s))). set (n := Z.to_nat _).
  exists (take i s), (drop n (drop i s)). by rewrite take_drop, take_drop.
Qed.

Lemma exec_inv (re : list atom) (s : list Z) (from : Z) (m : found) :
  exec re s from = Some m ->
  exists pre s' b', s = pre ++ s'
                    /\ run re accept (Cursor b' s' (index m)) (Captures None [])
                       = Some (stop m, group m).
Proof.
  unfold exec. destruct (len s <? from); [done|].
  intros (pre & s' & b' & Hs & _ & Hrun)%search_inv.
  exists (take (Z.to_nat from) s ++ pre), s', b'. split; [|done].
  by rewrite <- app_assoc, <- Hs, take_drop.
Qed.

Lemma execLoop_exec (n : nat) (re : list atom) (s : list Z) (from : Z) :
  Forall (fun m => exists from', exec re s from' = Some m) (execLoop n re s from).
Proof.
  revert from. induction n as [|n IH]; intros from; simpl; [constructor|].
  destruct (exec re s from) as [m|] eqn:Hm; [|constructor].
  constructor; [by exists from|apply IH].
Qed.

Lemma count_match_written (s : list Z) (from : Z) (m : found) (c : Z) :
  exec countRe s from = Some m -> groupInt m 1 = Some c -> countWritten s c /\ 0 <= c.
Proof.
  intros (pre & s' & b' & -> & Hrun)%exec_inv Hc.
  apply (litSpacesDigits_inv "/Count") in Hrun
    as (ws & ds & post & Hrest & Hne & Hws & Hds0 & Hds & _ & Hgs).
  cbn [rest snd groups rev app] in Hrest, Hgs.
  unfold groupInt in Hc. rewrite Hgs in Hc. cbn [nth Nat.sub] in Hc.
  rewrite digitsValue_parseInt in Hc by done. injection Hc as <-.
  split; [|by apply digitsValue_nonneg].
  exists pre, ws, ds, post. by rewrite Hrest.
Qed.

Lemma countWritten_infix (l w r : list Z) (v : Z) :
  countWritten w v -> countWritten (l ++ w ++ r) v.
Proof.
  intros (pre & ws & ds & post & -> & H).
  exists (l ++ pre), ws, ds, (post ++ r). split; [|done]. by rewrite <- !app_assoc.
Qed.

Lemma nearestCountStep_written (s : list Z) (maxCount : Z) (m : found) :
  (maxCount = 0 \/ 0 < maxCount /\ countWritten s maxCount) ->
  nearestCountStep s maxCount m = 0
  \/ 0 < nearestCountStep s maxCount m /\ countWritten s (nearestCountStep s maxCount m).
Proof.
  intros Hmax. unfold nearestCountStep.
  set (window := slice s _ _).
  destruct (match_ countRe window) as [cm|] eqn:Hcm; [|done].
  destruct (groupInt cm 1) as [count|] eqn:Hcount; [|done].
  destruct (maxCount <? count) eqn:Hlt; [|done].
  destruct (count_match_written window 0 cm count Hcm Hcount) as [Hw Hc].
  right. split; [destruct Hmax as [->|[? _]]; lia|].
  destruct (slice_infix s (Some (Z.max 0 (index m - 1024)))
              (Some (Z.min (len s) (index m + 50000)))) as (l & r & Hs).
  rewrite Hs at 1. by apply countWritten_infix.
Qed.

Lemma fold_nearestCountStep_written (s : list Z) (hits : list found) (acc : Z) :
  (acc = 0 \/ 0 < acc /\ countWritten s acc) ->
  fold_left (nearestCountStep s) hits acc = 0
  \/ 0 < fold_left (nearestCountStep s) hits acc
     /\ countWritten s (fold_left (nearestCountStep s) hits acc).
Proof.
  revert acc. induction hits as [|m hits IH]; intros acc Hacc; [exact Hacc|].
  simpl. apply IH. by apply nearestCountStep_written.
Qed.

Lemma maxNearestCount_written (s : list Z) :
  maxNearestCount s = 0 \/ 0 < maxNearestCount s /\ countWritten s (maxNearestCount s).
Proof. apply fold_nearestCountStep_written. by left. Qed.

Lemma maxCountStep_written (s : list Z) (hits : list found) (acc : Z) :
  Forall (fun m => exists from, exec countRe s from = Some m) hits ->
  (acc = 0 \/ 0 < acc /\ countWritten s acc) ->
  fold_left maxCountStep hits acc = 0
  \/ 0 < fold_left maxCountStep hits acc
     /\ countWritten s (fold_left maxCountStep hits acc).
Proof.
  revert acc. induction hits as [|m hits IH]; intros acc Hhits Hacc; [exact Hacc|].
  apply Forall_cons in Hhits as [[from Hm] Hhits]. simpl. apply IH; [done|].
  unfold maxCountStep. destruct (groupInt m 1) as [count|] eqn:Hcount; [|done].
  destruct (acc <? count) eqn:Hlt; [|done].
  destruct (count_match_written s from m count Hm Hcount) as [Hw Hc].
  right. split; [destruct Hacc as [->|[? _]]; lia|done].
Qed.


(** ** The PNG predictor, row by row *)

Lemma setByte_length (out : list Z) (i x : Z) : length (setByte out i x) = length out.
Proof. unfold setByte. destruct (i <? 0); [done|]. apply length_insert. Qed.

Lemma pngRow_loop_length (n : nat) (buf out : list Z) (filter inPos outPos prev i : Z) :
  length (pngRow_loop n buf out filter inPos outPos prev i) = length out.
Proof.
  revert out i. induction n as [|n IH]; intros out i; [done|].
  cbn [pngRow_loop]. by rewrite IH, setByte_length.
Qed.

Lemma pngRows_loop_rows (n : nat) (buf out : list Z) (rowSize inPos outPos prev : Z) :
  0 <= rowSize -> 0 <= inPos <= len buf -> len buf - inPos <= Z.of_nat n ->
  length (fst (pngRows_loop n buf out rowSize inPos outPos prev)) = length out
  /\ snd (pngRows_loop n buf out rowSize inPos outPos prev)
     = outPos + rowSize * ((len buf - inPos) / (rowSize + 1)).
Proof.
  intros Hrow. revert out inPos outPos prev.
  induction n as [|n IH]; intros out inPos outPos prev Hin Hn.
  - simpl. split; [done|]. replace (len buf - inPos) with 0 by lia.
    rewrite Z.div_0_l by lia. lia.
  - cbn [pngRows_loop]. destruct (inPos <? len buf) eqn:Hlt.
    + destruct (len buf <? inPos + 1 + rowSize) eqn:Hshort.
      * simpl. split; [done|]. rewrite Z.div_small by lia. lia.
      * destruct (IH (pngRow_loop (Z.to_nat rowSize) buf out (byteAt buf inPos) (inPos + 1)
                        outPos prev 0) (inPos + 1 + rowSize) (outPos + rowSize) outPos)
          as [Hlen Hpos]; [lia|lia|].
        rewrite Hlen, Hpos, pngRow_loop_length. split; [done|].
        replace (len buf - inPos) with (len buf - (inPos + 1 + rowSize) + 1 * (rowSize + 1))
          by lia.
        rewrite Z.div_add by lia. lia.
    + simpl. split; [done|]. replace (len buf - inPos) with 0 by lia.
      rewrite Z.div_0_l by lia. lia.
Qed.

Lemma slice_prefix_length (b : list Z) (n : Z) :
  0 <= n <= len b -> len (slice b (Some 0) (Some n)) = n.
Proof.
  intros Hn. unfold slice, adjustOffset. change (0 <? 0) with false. cbv iota.
  assert ((n <? 0) = false) as -> by lia.
  unfold len in *. destruct (0 <? Z.of_nat (length b)) eqn:H0;
    destruct (n <? Z.of_nat (length b)) eqn:H1; rewrite length_take, length_drop; lia.
Qed.

Lemma slice_prefix (a b : list Z) : slice (a ++ b) (Some 0) (Some (len a)) = a.
Proof.
  unfold slice. pose proof (len_nonneg a). pose proof (len_nonneg b).
  assert (adjustOffset (Some 0) (len (a ++ b)) = 0) as ->.
  { unfold adjustOffset. rewrite len_app. change (0 <? 0) with false. cbv iota.
    destruct (0 <? len a + len b) eqn:E; lia. }
  assert (adjustOffset (Some (len a)) (len (a ++ b)) = len a) as ->.
  { unfold adjustOffset. rewrite len_app. assert ((len a <? 0) = false) as -> by lia.
    destruct (len a <? len a + len b) eqn:E; lia. }
  rewrite Z.sub_0_r. unfold len. rewrite Nat2Z.id. change (Z.to_nat 0) with 0%nat.
  rewrite drop_0. by rewrite take_app_length.
Qed.

(** The decoded data holds [columns] bytes for every complete row of
    [columns + 1] bytes of the input: the filter bytes are dropped, and so
    is a last row that is cut short. *)
Theorem pngPredictorDecode_length (buf : list Z) (columns : Z) :
  0 <= columns ->
  len (pngPredictorDecode buf columns) = columns * (len buf / (columns + 1)).
Proof.
  intros Hcol. unfold pngPredictorDecode.
  pose proof (len_nonneg buf) as Hbuf.
  destruct (pngRows_loop_rows (length buf) buf (replicate (length buf) 0) columns 0 0 (-1))
    as [Hlen Hpos]; [done|lia|unfold len; lia|].
  rewrite Z.sub_0_r, Z.add_0_l in Hpos.
  assert (len (fst (pngRows_loop (length buf) buf (replicate (length buf) 0) columns 0 0 (-1)))
          = len buf) as Hl by (unfold len; by rewrite Hlen, length_replicate).
  assert (0 <= len buf / (columns + 1)) by (apply Z.div_pos; lia).
  pose proof (Z.mul_div_le (len buf) (columns + 1) ltac:(lia)).
  rewrite slice_prefix_length; rewrite ?Hpos, ?Hl; [done|nia].
Qed.

Lemma pngPredictorDecode_length_witness :
  len (pngPredictorDecode [2; 1; 0; 9; 2; 0; 0; 49; 2; 0] 3) = 6.
Proof. exact (pngPredictorDecode_length [2; 1; 0; 9; 2; 0; 0; 49; 2; 0] 3 ltac:(lia)). Defined.

Lemma unfilter_none (f x left up upLeft : Z) :
  f < 1 \/ 4 < f -> unfilter f x left up upLeft = x.
Proof.
  intros Hf. unfold unfilter.
  destruct (f =? 0); [done|].
  assert ((f =? 1) = false) as -> by lia. assert ((f =? 2) = false) as -> by lia.
  assert ((f =? 3) = false) as -> by lia. by assert ((f =? 4) = false) as -> by lia.
Qed.

Lemma land_octet (x : Z) : 0 <= x < 256 -> Z.land x 255 = x.
Proof.
  intros Hx. change 255 with (Z.ones 8). rewrite Z.land_ones by lia.
  apply Z.mod_small. lia.
Qed.

Lemma byteAt_app_here (pre : list Z) (x : Z) (post : list Z) :
  byteAt (pre ++ x :: post) (len pre) = x.
Proof. unfold byteAt. by rewrite at_app_here. Qed.

Lemma pngRow_loop_copy (xs : list Z) :
  forall (buf pre post a old c : list Z) (f inPos outPos prev i : Z),
    f < 1 \/ 4 < f -> Forall (fun b => 0 <= b < 256) xs ->
    buf = pre ++ xs ++ post -> len pre = inPos + i ->
    length old = length xs -> len a = outPos + i ->
    pngRow_loop (length xs) buf (a ++ old ++ c) f inPos outPos prev i = a ++ xs ++ c.
Proof.
  induction xs as [|x xs IH]; intros buf pre post a old c f inPos outPos prev i
    Hf Hxs Hbuf Hpre Hold Ha.
  - destruct old; [done|done].
  - destruct old as [|o old]; [done|]. apply Forall_cons in Hxs as [Hx Hxs].
    simpl length. cbn [pngRow_loop].
    rewrite unfilter_none by done.
    assert (byteAt buf (inPos + i) = x) as -> by (rewrite Hbuf, <- Hpre; apply byteAt_app_here).
    unfold setByte. pose proof (len_nonneg a).
    assert ((outPos + i <? 0) = false) as -> by lia.
    rewrite land_octet by done.
    replace (Z.to_nat (outPos + i)) with (length a + 0)%nat by (unfold len in Ha; lia).
    rewrite insert_app_r. simpl.
    specialize (IH buf (pre ++ [x]) post (a ++ [x]) old c f inPos outPos prev (i + 1)).
    rewrite <- !app_assoc in IH. simpl in IH. apply IH; try done.
    + rewrite len_app. change (len [x]) with 1. lia.
    + by injection Hold.
    + rewrite len_app. change (len [x]) with 1. lia.
Qed.

Lemma pngRows_loop_copy (rows : list (Z * list Z)) (columns : Z) :
  Forall (fun fr => (fst fr < 1 \/ 4 < fst fr) /\ len (snd fr) = columns
                    /\ Forall (fun b => 0 <= b < 256) (snd fr)) rows ->
  forall (n : nat) (buf consumed done tail : list Z) (prev : Z),
    buf = consumed ++ flat_map (fun fr => fst fr :: snd fr) rows ->
    (length rows <= n)%nat ->
    (length (flat_map snd rows) <= length tail)%nat ->
    pngRows_loop n buf (done ++ tail) columns (len consumed) (len done) prev
    = (done ++ flat_map snd rows ++ drop (length (flat_map snd rows)) tail,
       len done + len (flat_map snd rows)).
Proof.
  induction 1 as [|[f row] rows (Hf & Hlen & Hoct) _ IH];
    intros n buf consumed done tail prev Hbuf Hn Htail.
  - simpl in *. rewrite app_nil_r in Hbuf. subst buf. change (len []) with 0.
    rewrite Z.add_0_r. destruct n; simpl; [done|].
    by assert ((len consumed <? len consumed) = false) as -> by lia.
  - destruct n as [|n]; [simpl in Hn; lia|]. cbn [fst snd] in *.
    cbn [flat_map fst snd] in *. cbn [pngRows_loop].
    pose proof (len_nonneg consumed). pose proof (len_nonneg row).
    pose proof (len_nonneg (flat_map (fun fr => fst fr :: snd fr) rows)).
    assert (len buf = len consumed + (1 + (len row
              + len (flat_map (fun fr => fst fr :: snd fr) rows)))) as Hlb
      by (rewrite Hbuf, len_app; simpl app; rewrite len_cons, len_app; done).
    assert ((len consumed <? len buf) = true) as -> by lia.
    assert ((len buf <? len consumed + 1 + columns) = false) as -> by lia.
    assert (byteAt buf (len consumed) = f) as ->
      by (rewrite Hbuf; simpl app; apply byteAt_app_here).
    rewrite length_app in Htail.
    replace (Z.to_nat columns) with (length row) by (unfold len in Hlen; lia).
    rewrite <- (take_drop (length row) tail) at 1.
    rewrite (pngRow_loop_copy row buf (consumed ++ [f])
               (flat_map (fun fr => fst fr :: snd fr) rows) done
               (take (length row) tail) (drop (length row) tail) f);
      [|done|done|by rewrite Hbuf, <- !app_assoc
       |rewrite len_app; change (len [f]) with 1; lia
       |rewrite length_take; lia|lia].
    specialize (IH n buf (consumed ++ f :: row) (done ++ row) (drop (length row) tail)
                  (len done)).
    rewrite !len_app, len_cons, Hlen in IH. rewrite <- !app_assoc in IH.
    replace (len consumed + 1 + columns) with (len consumed + (1 + columns)) by lia.
    rewrite IH; [|by rewrite Hbuf|simpl in Hn; lia|rewrite length_drop; lia].
    rewrite drop_drop, length_app, len_app, Hlen, <- !app_assoc. f_equal. lia.
Qed.

(** Rows whose filter byte is not 1, 2, 3 or 4 are copied as they are: for
    such rows of [columns] octets each the decoder returns the rows without
    their filter bytes.  Filter 0 is the PNG filter None; the bytes 5 to 255
    name no PNG filter and are treated alike, not rejected. *)
Theorem pngPredictorDecode_copies_unfiltered_rows (rows : list (Z * list Z)) (columns : Z) :
  Forall (fun fr => (fst fr < 1 \/ 4 < fst fr) /\ len (snd fr) = columns
                    /\ Forall (fun b => 0 <= b < 256) (snd fr)) rows ->
  pngPredictorDecode (flat_map (fun fr => fst fr :: snd fr) rows) columns
  = flat_map snd rows.
Proof.
  intros Hrows. unfold pngPredictorDecode.
  set (buf := flat_map (fun fr => fst fr :: snd fr) rows).
  assert (length rows <= length buf /\ length (flat_map snd rows) <= length buf)%nat
    as [Hn Htail].
  { subst buf. clear Hrows. induction rows as [|[f row] rows IH]; simpl; [lia|].
    rewrite !length_app. lia. }
  pose proof (pngRows_loop_copy rows columns Hrows (length buf) buf [] []
                (replicate (length buf) 0) (-1) eq_refl Hn) as Hrun.
  rewrite length_replicate in Hrun. specialize (Hrun Htail).
  change (len []) with 0 in Hrun. simpl app in Hrun. rewrite Hrun. cbn [fst snd].
  rewrite Z.add_0_l.
  set (out := flat_map snd rows).
  apply slice_prefix.
Qed.

Lemma pngPredictorDecode_copies_unfiltered_rows_witness :
  pngPredictorDecode [0; 1; 0; 9; 0; 1; 0; 58; 7; 1; 0; 115] 3 = [1; 0; 9; 1; 0; 58; 1; 0; 115].
Proof.
  exact (pngPredictorDecode_copies_unfiltered_rows
           [(0, [1; 0; 9]); (0, [1; 0; 58]); (7, [1; 0; 115])] 3
           ltac:(repeat constructor; simpl; lia)).
Defined.

(** ** Cross-reference stream data that ends early *)

Lemma byteAt_padded (data : list Z) (k : nat) (i : Z) :
  byteAt (data ++ replicate k 0) i = byteAt data i.
Proof.
  unfold byteAt, at_. destruct (i <? 0) eqn:Hi; [done|].
  destruct (decide (Z.to_nat i < length data)%nat) as [Hlt|Hge].
  - by rewrite lookup_app_l.
  - rewrite lookup_app_r by lia. rewrite (lookup_ge_None_2 data) by lia. simpl.
    destruct (replicate k 0 !! (Z.to_nat i - length data)%nat) as [x|] eqn:Hx; [|done].
    by apply lookup_replicate in Hx as [-> _].
Qed.

Lemma readUIntBE_loop_padded (n : nat) (data : list Z) (k : nat) (pos i acc : Z) :
  readUIntBE_loop n (data ++ replicate k 0) pos i acc = readUIntBE_loop n data pos i acc.
Proof.
  revert i acc. induction n as [|n IH]; intros i acc; [done|].
  simpl. by rewrite byteAt_padded, IH.
Qed.

Lemma readUIntBE_padded (data : list Z) (k : nat) (pos w : Z) :
  readUIntBE (data ++ replicate k 0) pos w = readUIntBE data pos w.
Proof. unfold readUIntBE. by rewrite readUIntBE_loop_padded. Qed.

Lemma xrefEntries_loop_padded (n : nat) (data : list Z) (k : nat)
    (w0 w1 w2 objStart j p : Z) (m : xrefMap) :
  xrefEntries_loop n (data ++ replicate k 0) w0 w1 w2 objStart j p m
  = xrefEntries_loop n data w0 w1 w2 objStart j p m.
Proof.
  revert j p m. induction n as [|n IH]; intros j p m; [done|].
  cbn [xrefEntries_loop]. by rewrite !readUIntBE_padded, IH.
Qed.

Lemma xrefIndex_loop_padded (index data : list Z) (k : nat) (w0 w1 w2 p : Z) (m : xrefMap) :
  xrefIndex_loop index (data ++ replicate k 0) w0 w1 w2 p m
  = xrefIndex_loop index data w0 w1 w2 p m.
Proof.
  revert p m. induction index as [| | objStart count index IH] using list_pair_ind;
    intros p m; [done|done|].
  cbn [xrefIndex_loop]. by rewrite xrefEntries_loop_padded, IH.
Qed.

Lemma byteAt_nil (i : Z) : byteAt [] i = 0.
Proof. unfold byteAt, at_. by destruct (i <? 0). Qed.

Lemma readUIntBE_loop_nil (n : nat) (pos i : Z) : readUIntBE_loop n [] pos i 0 = 0.
Proof.
  revert i. induction n as [|n IH]; intros i; [done|].
  cbn [readUIntBE_loop]. rewrite byteAt_nil. change (bor (shl 0 8) 0) with 0. apply IH.
Qed.

Lemma readUIntBE_nil (pos w : Z) : readUIntBE [] pos w = 0.
Proof. unfold readUIntBE. destruct (w =? 0); [done|]. by rewrite readUIntBE_loop_nil. Qed.

Lemma xrefEntries_loop_nil (n : nat) (w0 w1 w2 objStart j p : Z) (m : xrefMap) :
  w0 <> 0 -> fst (xrefEntries_loop n [] w0 w1 w2 objStart j p m) = m.
Proof.
  intros Hw. revert j p. induction n as [|n IH]; intros j p; [done|].
  cbn [xrefEntries_loop]. rewrite !readUIntBE_nil.
  assert ((w0 =? 0) = false) as -> by lia. change (0 =? 1) with false.
  change (0 =? 2) with false. cbv iota. apply IH.
Qed.

Lemma xrefIndex_loop_nil (index : list Z) (w0 w1 w2 p : Z) (m : xrefMap) :
  w0 <> 0 -> xrefIndex_loop index [] w0 w1 w2 p m = m.
Proof.
  intros Hw. revert p. induction index as [| | objStart count index IH] using list_pair_ind;
    intros p; [done|done|].
  cbn [xrefIndex_loop]. rewrite xrefEntries_loop_nil by done. apply IH.
Qed.

Section ShortData.

Variable inflateSync : list Z -> result (list Z).


End ShortData.


(** ** What the strategies can return *)

Lemma countOrZero_nonneg (cnt : option Z) : 0 <= countOrZero cnt.
Proof. unfold countOrZero. destruct cnt as [c|]; [|done]. destruct (0 <? c) eqn:H; lia. Qed.

Lemma sumOrCount_nonneg (sum : Z) (cnt : option Z) : 0 <= sum -> 0 <= sumOrCount sum cnt.
Proof.
  intros Hsum. unfold sumOrCount. destruct (sum =? 0); [apply countOrZero_nonneg|done].
Qed.

Section TraversalResults.

Variable node : ref -> result nodeView.
Variable kind : ref -> result kidKind.

Lemma sumKids_nonneg (recur : ref -> result Z) (kids : list ref) (sum s : Z) :
  (forall k v, recur k = Ok v -> 0 <= v) -> 0 <= sum ->
  sumKids kind recur kids sum = Ok s -> 0 <= s.
Proof.
  intros Hrecur. revert sum. induction kids as [|k kids IH]; intros sum Hsum; simpl.
  - by intros [= <-].
  - destruct (kind k) as [[| |]|e]; cbn [bind]; [| |apply IH; lia|done].
    + apply IH. lia.
    + destruct (recur k) as [v|e] eqn:Hv; cbn [bind]; [|done].
      apply IH. specialize (Hrecur k v Hv). lia.
Qed.

Lemma traverse_nonneg (stack : nat) (r : ref) (n : Z) :
  traverse node kind stack r = Ok n -> 0 <= n.
Proof.
  revert r n. induction stack as [|stack IH]; intros r n; [done|].
  cbn [traverse]. destruct (node r) as [[| |cnt kids]|e]; cbn [bind]; [| | |done].
  - by intros [= <-].
  - by intros [= <-].
  - destruct kids as [|k kids]; [intros [= <-]; apply countOrZero_nonneg|].
    destruct (sumKids kind (traverse node kind stack) (k :: kids) 0) as [sum|e] eqn:Hsum;
      cbn [bind]; [|done].
    intros [= <-]. apply sumOrCount_nonneg.
    by apply (sumKids_nonneg (traverse node kind stack) (k :: kids) 0 sum IH).
Qed.

End TraversalResults.

(** Destruct what a successful run had to go through. *)
Ltac went_through H :=
  repeat match type of H with
    | bind ?r _ = Ok _ => destruct r eqn:?; cbn [bind] in H; [|discriminate H]
    | (if ?c then _ else _) = Ok _ => destruct c eqn:?; [|]; try discriminate H
    | match ?x with _ => _ end = Ok _ => destruct x eqn:?; try discriminate H
    | (let '(_, _) := ?x in _) = Ok _ => destruct x eqn:?
    end.

Section StrategyResults.

Variable inflateSync : list Z -> result (list Z).

(** A page-tree traversal that returns at all returns a number that is not
    negative: a page counts 1, a node without usable kids counts its
    [/Count] only when that is positive, and sums of such numbers are not
    negative.  (It can return 0, which [countPdfPagesSync] then rejects.) *)
Theorem traversals_return_no_negative_count (stack : nat) (buffer : list Z) (n : Z) :
  countPagesViaClassicTraversal stack buffer = Ok n
  \/ countPagesViaXrefStreamTraversal inflateSync stack buffer = Ok n ->
  0 <= n.
Proof.
  intros [H|H].
  - unfold countPagesViaClassicTraversal, traversePageTreeWithMap in H. went_through H.
    rewrite traversePagesNodeMap_traverse in H. by eapply traverse_nonneg.
  - unfold countPagesViaXrefStreamTraversal, traversePageTreeWithXrefStream in H.
    went_through H.
    rewrite traversePagesNodeXref_traverse in H. by eapply traverse_nonneg.
Qed.

(** The two [/Count] fast paths return only positive numbers: a [/Count]
    that is missing or 0 makes them throw. *)
Theorem count_fast_paths_return_positive (buffer : list Z) (n : Z) :
  parsePageCountViaClassicXref buffer = Ok n
  \/ parsePageCountViaXrefStream inflateSync buffer = Ok n ->
  0 < n.
Proof.
  intros [H|H].
  - unfold parsePageCountViaClassicXref in H. went_through H. injection H as <-. lia.
  - unfold parsePageCountViaXrefStream in H. went_through H. injection H as <-. lia.
Qed.

End StrategyResults.

Lemma traversals_return_no_negative_count_witness : 0 <= 1.
Proof.
  exact (traversals_return_no_negative_count Stored.inflate 50 pdfOnePage 1
           (or_introl eq_refl)).
Defined.

Lemma count_fast_paths_return_positive_witness : 0 < 1.
Proof.
  exact (count_fast_paths_return_positive Stored.inflate pdfXrefStream 1
           (or_intror eq_refl)).
Defined.

(** ** The parameters of a cross-reference stream *)

Lemma evenPrefix_pairs (nums : list Z) :
  exists pairs : list (Z * Z), evenPrefix nums = flat_map (fun p => [fst p; snd p]) pairs.
Proof.
  induction nums as [| |a b nums [pairs IH]] using list_pair_ind.
  - by exists [].
  - by exists [].
  - exists ((a, b) :: pairs). simpl. by rewrite IH.
Qed.

Lemma wRe_inv (cur : cursor) (caps : captures) (r : Z * list (list Z)) :
  run wRe accept cur caps = Some r ->
  exists ds0 ds1 ds2,
    ds0 <> [] /\ Forall (fun c => isDigit c = true) ds0
    /\ ds1 <> [] /\ Forall (fun c => isDigit c = true) ds1
    /\ ds2 <> [] /\ Forall (fun c => isDigit c = true) ds2
    /\ snd r = rev (ds2 :: ds1 :: ds0 :: groups caps).
Proof.
  unfold wRe, lit, optSpaces, spaces. rewrite !run_app. cbn [run].
  intros (s1 & _ & Hrun)%run_lit_inv.
  apply star_inv in Hrun as (? & ? & ? & _ & _ & _ & Hrun).
  apply run_lit_inv in Hrun as (? & _ & Hrun).
  apply star_inv in Hrun as (? & ? & ? & _ & _ & _ & Hrun).
  apply digitsGroup_inv in Hrun as (ds0 & ? & ? & _ & Hne0 & Hds0 & Hrun).
  apply plus_inv in Hrun as (? & ? & ? & _ & _ & _ & Hrun).
  apply digitsGroup_inv in Hrun as (ds1 & ? & ? & _ & Hne1 & Hds1 & Hrun).
  apply plus_inv in Hrun as (? & ? & ? & _ & _ & _ & Hrun).
  apply digitsGroup_inv in Hrun as (ds2 & ? & ? & _ & Hne2 & Hds2 & Hrun).
  apply star_inv in Hrun as (? & ? & ? & _ & _ & _ & Hrun).
  apply run_lit_inv in Hrun as (? & _ & Hrun).
  unfold accept in Hrun. cbn [groups] in Hrun. injection Hrun as <-.
  exists ds0, ds1, ds2. by repeat split.
Qed.

(** What [buildXrefMapFromXrefStream] reads from the dictionary before it
    touches the data: [/Size] and the three widths of [/W] are numbers
    written in decimal digits, so none of them is negative; and the
    subsections are never empty and always whole pairs, the single pair
    [0 Size] when the dictionary has no [/Index]. *)
Theorem xref_stream_parameters_well_formed (dict : list Z) (size w0 w1 w2 : Z) :
  readSize dict = Ok size -> readWArray dict = Ok (w0, w1, w2) ->
  0 <= size /\ 0 <= w0 /\ 0 <= w1 /\ 0 <= w2
  /\ exists (first : Z * Z) (more : list (Z * Z)),
       readIndexArray dict size = flat_map (fun p => [fst p; snd p]) (first :: more)
       /\ (match_ indexRe dict = None -> first = (0, size) /\ more = []).
Proof.
  unfold readSize, readWArray. intros Hsize Hw.
  destruct (match_ sizeRe dict) as [ms|] eqn:Hms; [|done].
  destruct (match_ wRe dict) as [mw|] eqn:Hmw; [|done].
  apply match_inv in Hms as (? & ? & ? & _ & _ & Hrun).
  apply (litSpacesDigits_inv "/Size") in Hrun as (? & ds & ? & _ & _ & _ & Hne & Hds & _ & Hgs).
  cbn [snd groups rev app] in Hgs. unfold groupInt in Hsize. rewrite Hgs in Hsize.
  cbn [nth Nat.sub] in Hsize. rewrite digitsValue_parseInt in Hsize by done.
  injection Hsize as <-.
  apply match_inv in Hmw as (? & ? & ? & _ & _ & Hrun).
  apply wRe_inv in Hrun as (ds0 & ds1 & ds2 & Hne0 & Hds0 & Hne1 & Hds1 & Hne2 & Hds2 & Hgw).
  cbn [snd groups rev app] in Hgw. unfold groupInt in Hw. rewrite Hgw in Hw.
  cbn [nth Nat.sub] in Hw. rewrite !digitsValue_parseInt in Hw by done.
  injection Hw as <- <- <-.
  repeat (split; [by apply digitsValue_nonneg|]).
  unfold readIndexArray. destruct (match_ indexRe dict) as [mi|].
  - destruct (evenPrefix_pairs (omap parseInt (splitSpaces (trim (nth 0 (group mi) [])))))
      as [[|first more] Hpairs]; rewrite Hpairs.
    + exists (0, digitsValue ds), []. by split.
    + exists first, more. split; [|done]. by destruct first.
  - exists (0, digitsValue ds), []. by split.
Qed.

Lemma xref_stream_parameters_well_formed_witness :
  0 <= 7 /\ 0 <= 1 /\ 0 <= 2 /\ 0 <= 1
  /\ exists (first : Z * Z) (more : list (Z * Z)),
       readIndexArray (bytes "<< /Type /XRef /Size 7 /W [1 2 1] /Index [2 1 4 3 9] >>") 7
       = flat_map (fun p => [fst p; snd p]) (first :: more)
       /\ (match_ indexRe (bytes "<< /Type /XRef /Size 7 /W [1 2 1] /Index [2 1 4 3 9] >>")
           = None -> first = (0, 7) /\ more = []).
Proof.
  exact (xref_stream_parameters_well_formed
           (bytes "<< /Type /XRef /Size 7 /W [1 2 1] /Index [2 1 4 3 9] >>") 7 1 2 1
           eq_refl eq_refl).
Defined.

(** ** Keys in patterns *)

Lemma escapeRegExp_cons (c : Z) (s : list Z) :
  escapeRegExp (c :: s)
  = (if isRegExpSpecial c then [0x5c; c] else [c]) ++ escapeRegExp s.
Proof. done. Qed.

(** [escapeRegExp] leaves a key without special characters as it is, as
    are all the keys the module looks up, and it loses nothing: two
    different strings are never escaped to the same text. *)
Theorem escapeRegExp_keeps_plain_keys_apart (key : list Z) :
  forallb (fun c => negb (isRegExpSpecial c)) key = true ->
  escapeRegExp key = key
  /\ forall a b : list Z, escapeRegExp a = escapeRegExp b -> a = b.
Proof.
  intros Hkey. split.
  - induction key as [|c key IH]; [done|]. simpl in Hkey.
    apply andb_prop in Hkey as [Hc Hkey]. rewrite escapeRegExp_cons.
    destruct (isRegExpSpecial c); [done|]. simpl. by rewrite IH.
  - clear. intros a. induction a as [|c a IH]; intros [|d b]; rewrite ?escapeRegExp_cons.
    + done.
    + by destruct (isRegExpSpecial d).
    + by destruct (isRegExpSpecial c).
    + destruct (isRegExpSpecial c) eqn:Hc, (isRegExpSpecial d) eqn:Hd; simpl.
      * intros [= -> Hab]. f_equal. by apply IH.
      * intros [= <- Hab]. done.
      * intros [= -> Hab]. done.
      * intros [= -> Hab]. f_equal. by apply IH.
Qed.

Lemma escapeRegExp_keeps_plain_keys_apart_witness :
  escapeRegExp (bytes "Count") = bytes "Count"
  /\ forall a b : list Z, escapeRegExp a = escapeRegExp b -> a = b.
Proof. exact (escapeRegExp_keeps_plain_keys_apart (bytes "Count") eq_refl). Defined.

(** ** Loading the input *)

Section LoadingFacts.

Variable inflateSync : list Z -> result (list Z).
Variable isAbsolute : string -> bool.
Variable resolve : string -> string.
Variable readFileSync : string -> result (list Z).
Variable readFile : string -> result (list Z).

(** The asynchronous entry point settles exactly as the synchronous one
    returns or throws, provided reading the file gives the same outcome both
    ways; and an error of the loader (a file that cannot be read, an input
    that is neither a path nor bytes) is what the caller gets: it is raised
    before the first [try] and so is never turned into "PDF page count not
    found". *)
Theorem countPdfPages_settles_as_countPdfPagesSync (stack : nat) (i : input) :
  (forall p, readFile p = readFileSync p) ->
  countPdfPages inflateSync isAbsolute resolve readFileSync readFile stack i
  = countPdfPagesSync_of_input inflateSync isAbsolute resolve readFileSync stack i
  /\ (forall e, loadToBufferSync isAbsolute resolve readFileSync i = Throw e ->
                countPdfPagesSync_of_input inflateSync isAbsolute resolve readFileSync stack i
                = Throw e).
Proof.
  intros Hread. split.
  - destruct i as [b|b|p|]; try done.
    unfold countPdfPages, countPdfPagesSync_of_input, loadToBufferSync.
    rewrite Hread. by destruct (readFileSync _).
  - intros e He. unfold countPdfPagesSync_of_input. by rewrite He.
Qed.

End LoadingFacts.

Lemma countPdfPages_settles_as_countPdfPagesSync_witness :
  countPdfPages Stored.inflate (fun _ => false) (String.append "/srv/")
    (fun _ => Ok pdfOnePage) (fun _ => Ok pdfOnePage) 50 (PathInput "one.pdf")
  = Ok 1.
Proof.
  refine (eq_trans (proj1 (countPdfPages_settles_as_countPdfPagesSync Stored.inflate
                             (fun _ => false) (String.append "/srv/")
                             (fun _ => Ok pdfOnePage) (fun _ => Ok pdfOnePage) 50
                             (PathInput "one.pdf") (fun _ => eq_refl))) _).
  vm_compute. reflexivity.
Defined.

(** ** Reading objects *)

Lemma find_from_first (needle s : list Z) (i r : Z) :
  find_from needle s i = r -> r <> -1 -> 0 <= i ->
  i <= r
  /\ startsWith needle (drop (Z.to_nat (r - i)) s) = true
  /\ forall j, 0 <= j < r - i -> startsWith needle (drop (Z.to_nat j) s) = false.
Proof.
  revert i. induction s as [|c s IH]; intros i; cbn [find_from].
  - destruct (startsWith needle []) eqn:Hsw; [|intros <-; done].
    intros <- _ Hi. rewrite Z.sub_diag. split; [lia|]. split; [done|]. intros j Hj. lia.
  - destruct (startsWith needle (c :: s)) eqn:Hsw.
    + intros <- _ Hi. rewrite Z.sub_diag. split; [lia|]. split; [done|]. intros j Hj. lia.
    + intros Hr Hne Hi. destruct (IH (i + 1) Hr Hne ltac:(lia)) as (Hle & Hat & Hno).
      split; [lia|]. split.
      * replace (r - i) with ((r - (i + 1)) + 1) by lia. by rewrite drop_succ_cons by lia.
      * intros j Hj. destruct (decide (j = 0)) as [->|]; [done|].
        replace j with ((j - 1) + 1) by lia. rewrite drop_succ_cons by lia. apply Hno. lia.
Qed.

Lemma bufferIndexOf_first (b needle : list Z) (pos r : Z) :
  bufferIndexOf b needle pos = r -> r <> -1 ->
  0 <= r /\ (0 <= pos -> pos <= r)
  /\ r + len needle <= len b
  /\ startsWith needle (drop (Z.to_nat r) b) = true
  /\ forall j, 0 <= pos -> pos <= j < r ->
               startsWith needle (drop (Z.to_nat j) b) = false.
Proof.
  unfold bufferIndexOf. set (p := if pos <? 0 then Z.max 0 (pos + len b) else pos).
  assert (0 <= p) as Hp by (subst p; destruct (pos <? 0) eqn:E; lia).
  destruct (len b <? p + len needle) eqn:Hfit; [by intros <-|].
  intros Hr Hne. pose proof (find_from_bounds _ _ _ _ Hp Hr Hne) as [_ Hend].
  destruct (find_from_first _ _ _ _ Hr Hne Hp) as (Hle & Hat & Hno).
  assert (len (drop (Z.to_nat p) b) = len b - p) as Hld
    by (unfold len in *; rewrite length_drop; lia).
  rewrite Hld in Hend.
  rewrite drop_drop in Hat. replace (Z.to_nat p + Z.to_nat (r - p))%nat with (Z.to_nat r)
    in Hat by lia.
  split; [lia|]. split; [intros Hpos; subst p; destruct (pos <? 0) eqn:E; lia|].
  split; [lia|]. split; [done|].
  intros j Hpos Hj. assert (p = pos) as Hpp by (subst p; destruct (pos <? 0) eqn:E; lia).
  specialize (Hno (j - p) ltac:(lia)). rewrite drop_drop in Hno.
  by replace (Z.to_nat p + Z.to_nat (j - p))%nat with (Z.to_nat j) in Hno by lia.
Qed.

Lemma skipStreamEol_loop_spec (n : nat) (buffer : list Z) (start : Z) :
  len buffer - start <= Z.of_nat n -> 0 <= start ->
  let q := skipStreamEol_loop n buffer start in
  start <= q
  /\ is_ (at_ buffer q) 0x20 || is_ (at_ buffer q) 0x0d || is_ (at_ buffer q) 0x0a = false.
Proof.
  revert start. induction n as [|n IH]; intros start Hn Hstart; simpl.
  - split; [lia|]. by rewrite at_outside by lia.
  - destruct (is_ (at_ buffer start) 32 || is_ (at_ buffer start) 13
              || is_ (at_ buffer start) 10) eqn:Hws; [|split; [lia|done]].
    destruct (IH (start + 1) ltac:(lia) ltac:(lia)) as [Hle Hq]. split; [lia|done].
Qed.

Lemma slice_inside (b : list Z) (i j : Z) :
  0 <= i <= j -> j < len b ->
  slice b (Some i) (Some j) = take (Z.to_nat (j - i)) (drop (Z.to_nat i) b).
Proof.
  intros Hij Hj. unfold slice, adjustOffset.
  assert ((i <? 0) = false) as -> by lia. assert ((j <? 0) = false) as -> by lia.
  assert ((i <? len b) = true) as -> by lia. by assert ((j <? len b) = true) as -> by lia.
Qed.

Lemma startsWith_app (needle l : list Z) :
  startsWith needle l = true -> exists post, l = needle ++ post.
Proof.
  revert l. induction needle as [|c needle IH]; intros l; simpl.
  - intros _. by exists l.
  - destruct l as [|d l]; [done|]. intros [Hc Hl]%andb_prop. apply Z.eqb_eq in Hc as ->.
    destruct (IH l Hl) as [post ->]. by exists post.
Qed.

Lemma startsWith_take (needle l : list Z) (n : nat) :
  startsWith needle (take n l) = true -> startsWith needle l = true.
Proof.
  revert l n. induction needle as [|c needle IH]; intros l n; [done|].
  destruct l as [|d l], n as [|n]; simpl; try done.
  intros [Hc Hl]%andb_prop. rewrite Hc. simpl. by apply (IH l n).
Qed.

Lemma startsWith_length (needle l : list Z) :
  startsWith needle l = true -> (length needle <= length l)%nat.
Proof. intros [post ->]%startsWith_app. rewrite length_app. lia. Qed.

(** The body that [readStreamObject] returns lies in the buffer just
    before an [endstream] keyword and holds no [endstream] itself, so [/Length]
    plays no part; and it never starts with a space, a CR or an LF, because
    every such byte after the [stream] keyword is skipped as part of the end
    of line. *)
Theorem readStreamObject_body_ends_at_first_endstream (buffer : list Z) (offset : Z)
    (so : streamObject) :
  readStreamObject buffer offset = Ok so ->
  (exists pre post, buffer = pre ++ streamBuffer so ++ bytes "endstream" ++ post)
  /\ (forall i, 0 <= i ->
        startsWith (bytes "endstream") (drop (Z.to_nat i) (streamBuffer so)) = false)
  /\ (forall c, head (streamBuffer so) = Some c -> c <> 0x20 /\ c <> 0x0d /\ c <> 0x0a).
Proof.
  unfold readStreamObject. intros H. went_through H. injection H as <-.
  cbn [streamBuffer].
  match goal with
  | Hs : (bufferIndexOf buffer (bytes "stream") ?p =? -1) = false |- _ =>
      set (idx := bufferIndexOf buffer (bytes "stream") p) in *
  end.
  set (dataStart := skipStreamEol buffer (idx + len (bytes "stream"))) in *.
  set (endIdx := bufferIndexOf buffer (bytes "endstream") dataStart) in *.
  destruct (bufferIndexOf_first buffer (bytes "stream") _ idx eq_refl ltac:(lia))
    as (Hidx & _).
  destruct (skipStreamEol_loop_spec (Z.to_nat (len buffer - (idx + len (bytes "stream"))))
              buffer (idx + len (bytes "stream")) ltac:(lia)
              ltac:(change (len (bytes "stream")) with 6; lia)) as [Hds Hnows].
  fold (skipStreamEol buffer (idx + len (bytes "stream"))) in Hds, Hnows.
  fold dataStart in Hds, Hnows. change (len (bytes "stream")) with 6 in Hds.
  destruct (bufferIndexOf_first buffer (bytes "endstream") dataStart endIdx eq_refl
              ltac:(lia)) as (_ & Hle & Hfit & Hat & Hno).
  specialize (Hle ltac:(lia)). change (len (bytes "endstream")) with 9 in Hfit.
  rewrite slice_inside by lia.
  split; [|split].
  - apply startsWith_app in Hat as [post Hpost].
    exists (take (Z.to_nat dataStart) buffer), post.
    rewrite <- Hpost.
    rewrite <- (take_drop (Z.to_nat dataStart) buffer) at 1. f_equal.
    rewrite <- (take_drop (Z.to_nat (endIdx - dataStart)) (drop (Z.to_nat dataStart) buffer))
      at 1.
    f_equal. rewrite drop_drop. f_equal. lia.
  - intros i Hi.
    match goal with |- ?t = false => destruct t eqn:Hsw; [|done] end.
    pose proof (startsWith_length _ _ Hsw) as Hlen.
    rewrite length_drop, length_take, length_drop in Hlen.
    change (length (bytes "endstream")) with 9%nat in Hlen.
    rewrite skipn_firstn_comm in Hsw. apply startsWith_take in Hsw.
    rewrite drop_drop in Hsw.
    specialize (Hno (dataStart + i) ltac:(lia) ltac:(unfold len in *; lia)).
    replace (Z.to_nat (dataStart + i)) with (Z.to_nat dataStart + Z.to_nat i)%nat
      in Hno by lia.
    congruence.
  - intros c Hc.
    destruct (decide (endIdx = dataStart)) as [Heq|Hne].
    { rewrite Heq, Z.sub_diag in Hc. by rewrite take_0 in Hc. }
    assert (at_ buffer dataStart = Some c) as Hat'.
    { unfold at_. assert ((dataStart <? 0) = false) as -> by lia.
      destruct (Z.to_nat (endIdx - dataStart)) as [|n] eqn:Hn; [lia|].
      destruct (drop (Z.to_nat dataStart) buffer) as [|c' l] eqn:Hdrop; [done|].
      simpl in Hc. injection Hc as ->.
      rewrite <- (Nat.add_0_r (Z.to_nat dataStart)), <- lookup_drop. by rewrite Hdrop. }
    rewrite Hat' in Hnows. simpl in Hnows.
    apply orb_false_elim in Hnows as [[H1 H2]%orb_false_elim H3]. lia.
Qed.

Lemma readStreamObject_body_ends_at_first_endstream_witness :
  (exists pre post,
      pdfXrefStream
      = pre ++ streamBuffer (streamObjectAt pdfXrefStream 162) ++ bytes "endstream" ++ post)
  /\ (forall i, 0 <= i ->
        startsWith (bytes "endstream")
          (drop (Z.to_nat i) (streamBuffer (streamObjectAt pdfXrefStream 162))) = false)
  /\ (forall c, head (streamBuffer (streamObjectAt pdfXrefStream 162)) = Some c ->
                c <> 0x20 /\ c <> 0x0d /\ c <> 0x0a).
Proof.
  exact (readStreamObject_body_ends_at_first_endstream pdfXrefStream 162
           (streamObjectAt pdfXrefStream 162) eq_refl).
Defined.

(** ** An object read back *)

(** If the rest of a pattern matches after some run of [p], then [p*]
    followed by the rest matches. *)
Lemma greedy_app_success (p : Z -> bool) (k : kont) (xs s' : list Z) :
  Forall (fun c => p c = true) xs ->
  forall (b : option Z) (i : Z) (caps : captures),
    (forall b', exists r, k (Cursor b' s' (i + len xs)) caps = Some r) ->
    exists r, greedy p k b (xs ++ s') i caps = Some r.
Proof.
  induction 1 as [|c xs Hc _ IH]; intros b i caps Hk.
  - simpl in *. change (len []) with 0 in Hk. rewrite Z.add_0_r in Hk.
    destruct (Hk b) as [r Hr].
    destruct s' as [|c s']; simpl; [by exists r|].
    destruct (p c); [|by exists r].
    destruct (greedy p k (Some c) s' (i + 1) caps) as [r'|]; [by exists r'|by exists r].
  - simpl. rewrite Hc.
    destruct (IH (Some c) (i + 1) caps) as [r' ->]; [|by exists r'].
    intros b'. rewrite len_cons in Hk.
    replace (i + 1 + len xs) with (i + (1 + len xs)) by lia. apply Hk.
Qed.

Lemma digitsGroup_success (k : kont) (ds s' : list Z) (b : option Z) (i : Z)
    (caps : captures) :
  ds <> [] -> Forall (fun c => isDigit c = true) ds ->
  (forall b', exists r,
      k (Cursor b' s' (i + len ds)) (Captures None (ds :: groups caps)) = Some r) ->
  exists r, run digitsGroup k (Cursor b (ds ++ s') i) caps = Some r.
Proof.
  intros Hne Hds Hk. destruct ds as [|d ds]; [done|].
  apply Forall_cons in Hds as [Hd Hds].
  unfold digitsGroup. cbn [app run step one rest here before]. rewrite Hd.
  apply greedy_app_success; [done|]. intros b'. cbn [step opened here rest groups].
  replace (Z.to_nat (i + 1 + len ds - i)) with (length (d :: ds)) by (unfold len; simpl; lia).
  change (d :: ds ++ s') with ((d :: ds) ++ s'). rewrite take_app_length.
  rewrite len_cons in Hk. replace (i + 1 + len ds) with (i + (1 + len ds)) by lia. apply Hk.
Qed.

Lemma spaces_one_space (k : kont) (c : Z) (s' : list Z) (b : option Z) (i : Z)
    (caps : captures) :
  isSpace c = false ->
  run spaces k (Cursor b (0x20 :: c :: s') i) caps
  = k (Cursor (Some 0x20) (c :: s') (i + 1)) caps.
Proof.
  intros Hc. unfold spaces. cbn [run step one rest here before].
  change (isSpace 32) with true. cbv iota. cbn [greedy]. by rewrite Hc.
Qed.

(** The header line [N G obj] of an object matches the header pattern. *)
Lemma objHeader_matches (ds gs : list Z) :
  ds <> [] -> Forall (fun c => isDigit c = true) ds ->
  gs <> [] -> Forall (fun c => isDigit c = true) gs ->
  exists m, match_ objHeaderRe (ds ++ [0x20] ++ gs ++ bytes " obj") = Some m.
Proof.
  intros Hne Hds Hne' Hgs. rewrite match_search.
  assert (exists r, run objHeaderRe accept
                      (Cursor None (ds ++ [32] ++ gs ++ bytes " obj") 0)
                      (Captures None []) = Some r) as [[e grp] Hrun].
  { unfold objHeaderRe. rewrite !run_app. cbn [run step before].
    apply digitsGroup_success; [done|done|]. intros b'.
    destruct gs as [|g gs]; [done|]. pose proof (Forall_inv Hgs) as Hg. simpl in Hg.
    cbn [app]. rewrite spaces_one_space by by apply isDigit_not_space.
    change (g :: gs ++ bytes " obj") with ((g :: gs) ++ bytes " obj").
    apply digitsGroup_success; [done|done|]. intros b''.
    eexists. cbn. reflexivity. }
  destruct (ds ++ [32] ++ gs ++ bytes " obj") as [|c s]; cbn [search]; rewrite Hrun; eauto.
Qed.

Lemma trimStart_id (c : Z) (s : list Z) : isSpace c = false -> trimStart (c :: s) = c :: s.
Proof. intros Hc. simpl. by rewrite Hc. Qed.

Lemma objHeader_trim (ds gs : list Z) :
  ds <> [] -> Forall (fun c => isDigit c = true) ds ->
  trim (ds ++ [0x20] ++ gs ++ bytes " obj") = ds ++ [0x20] ++ gs ++ bytes " obj".
Proof.
  intros Hne Hds. destruct ds as [|d ds]; [done|]. pose proof (Forall_inv Hds) as Hd.
  simpl in Hd. unfold trim. cbn [app]. rewrite trimStart_id by by apply isDigit_not_space.
  assert (d :: ds ++ 32 :: gs ++ bytes " obj" = (d :: ds ++ 32 :: gs) ++ bytes " obj") as ->
    by (simpl; by rewrite <- app_assoc).
  rewrite rev_app_distr. change (rev (bytes " obj")) with [106; 98; 111; 32].
  cbn [app]. rewrite trimStart_id by done.
  change (106 :: 98 :: 111 :: 32 :: rev (d :: ds ++ 32 :: gs))
    with (rev (bytes " obj") ++ rev (d :: ds ++ 32 :: gs)).
  by rewrite <- rev_app_distr, rev_involutive.
Qed.

Lemma objHeader_no_eol (ds gs : list Z) :
  Forall (fun c => isDigit c = true) ds -> Forall (fun c => isDigit c = true) gs ->
  Forall (fun c => c <> 0x0a /\ c <> 0x0d) (ds ++ [0x20] ++ gs ++ bytes " obj").
Proof.
  intros Hds Hgs.
  assert (forall l, Forall (fun c => isDigit c = true) l ->
                    Forall (fun c => c <> 0x0a /\ c <> 0x0d) l) as Hdig.
  { intros l Hl. eapply Forall_impl; [exact Hl|]. intros c Hc. unfold isDigit in Hc. lia. }
  rewrite !Forall_app. split; [by apply Hdig|]. split; [repeat constructor; lia|].
  split; [by apply Hdig|]. unfold bytes. simpl. repeat constructor; lia.
Qed.

(** The steps that [readIndirectObject], [readAnyObjectContent] and
    [readStreamObject] share: the header line, and the position where the
    content starts. *)
Lemma object_header_read (pre ds gs eol ws rest : list Z) :
  ds <> [] -> Forall (fun c => isDigit c = true) ds ->
  gs <> [] -> Forall (fun c => isDigit c = true) gs ->
  eol = [0x0a] \/ eol = [0x0d; 0x0a] ->
  Forall (fun c => isPdfWhitespace (Some c) = true) ws ->
  (forall c, head rest = Some c -> isPdfWhitespace (Some c) = false) ->
  let header := ds ++ [0x20] ++ gs ++ bytes " obj" in
  let buffer := pre ++ header ++ eol ++ ws ++ rest in
  trim (readLineAscii buffer (len pre)) = header
  /\ (exists m, match_ objHeaderRe header = Some m)
  /\ skipWhitespace buffer (advanceToNextLine buffer (len pre))
     = len (pre ++ header ++ eol ++ ws).
Proof.
  intros Hne Hds Hne' Hgs Heol Hws Hrest header buffer.
  destruct (readLine_advance_app pre header eol (ws ++ rest)) as [Hline Hnext].
  { by apply objHeader_no_eol. }
  { destruct Heol as [-> | ->]; [by left|by right; left]. }
  fold buffer in Hline, Hnext. rewrite Hline, Hnext.
  split; [by apply objHeader_trim|]. split; [by apply objHeader_matches|].
  subst buffer.
  replace (len pre + len header + len eol) with (len (pre ++ header ++ eol))
    by (rewrite !len_app; lia).
  replace (pre ++ header ++ eol ++ ws ++ rest) with ((pre ++ header ++ eol) ++ ws ++ rest)
    by (by rewrite <- !app_assoc).
  rewrite skipWhitespace_app by done. rewrite <- len_app. f_equal. by rewrite <- !app_assoc.
Qed.

(** An object written as [N G obj], an end of line, optional white space
    and a plainly nested dictionary is read back: [readIndirectObject] and
    [readAnyObjectContent] both return the text of the dictionary, from its
    [<<] to the matching [>>].  The numbers [N] and [G] of the header are not
    compared with the expected ones. *)
Theorem object_dictionary_read_back (pre ds gs eol ws body post : list Z)
    (expectedObj expectedGen : Z) :
  ds <> [] -> Forall (fun c => isDigit c = true) ds ->
  gs <> [] -> Forall (fun c => isDigit c = true) gs ->
  eol = [0x0a] \/ eol = [0x0d; 0x0a] ->
  Forall (fun c => isPdfWhitespace (Some c) = true) ws ->
  dictBody body ->
  let header := ds ++ [0x20] ++ gs ++ bytes " obj" in
  let dict := bytes "<<" ++ body ++ bytes ">>" in
  let buffer := pre ++ header ++ eol ++ ws ++ dict ++ post in
  (exists raw, readIndirectObject buffer (len pre) expectedObj expectedGen
               = Ok (IndirectObject header dict raw))
  /\ readAnyObjectContent buffer (len pre) expectedObj expectedGen = Ok dict.
Proof.
  intros Hne Hds Hne' Hgs Heol Hws Hbody header dict buffer.
  destruct (object_header_read pre ds gs eol ws (dict ++ post) Hne Hds Hne' Hgs Heol Hws)
    as (Hline & [m Hm] & Hpos).
  { subst dict. simpl. by intros c [= <-]. }
  fold header in Hline, Hm, Hpos. fold buffer in Hline, Hpos.
  assert (buffer = (pre ++ header ++ eol ++ ws) ++ bytes "<<" ++ body ++ bytes ">>" ++ post)
    as Hbuf by (subst buffer dict; by rewrite <- !app_assoc).
  assert (readDictString buffer (len (pre ++ header ++ eol ++ ws))
          = Ok (dict, len (pre ++ header ++ eol ++ ws) + len body + 4)) as Hdict
    by (rewrite Hbuf; by apply readDictString_nested).
  assert (isPair buffer (len (pre ++ header ++ eol ++ ws)) 0x3c = true) as Hpair
    by (rewrite Hbuf; apply (isPair_app _ 60 60 60)).
  split.
  - unfold readIndirectObject. rewrite Hline, Hm, Hpos, Hpair, Hdict. cbn [negb bind fst].
    eauto.
  - unfold readAnyObjectContent. rewrite Hline, Hm, Hpos.
    unfold isPair in Hpair. rewrite Hpair, Hdict. done.
Qed.

Lemma object_dictionary_read_back_witness :
  (exists raw,
      readIndirectObject (bytes "%PDF" ++ [0x0a] ++ bytes "12 0 obj" ++ [0x0d; 0x0a]
                          ++ bytes "<</Count 3>>" ++ [0x0a] ++ bytes "endobj") 5 7 0
      = Ok (IndirectObject (bytes "12 0 obj") (bytes "<</Count 3>>") raw))
  /\ readAnyObjectContent (bytes "%PDF" ++ [0x0a] ++ bytes "12 0 obj" ++ [0x0d; 0x0a]
                           ++ bytes "<</Count 3>>" ++ [0x0a] ++ bytes "endobj") 5 7 0
     = Ok (bytes "<</Count 3>>").
Proof.
  exact (object_dictionary_read_back (bytes "%PDF" ++ [0x0a]) (bytes "12") (bytes "0")
           [0x0d; 0x0a] [] (bytes "/Count 3") ([0x0a] ++ bytes "endobj") 7 0
           ltac:(discriminate) ltac:(unfold bytes; simpl; repeat constructor)
           ltac:(discriminate) ltac:(unfold bytes; simpl; repeat constructor)
           (or_intror eq_refl) ltac:(constructor)
           (dictBody_plain (bytes "/Count 3") eq_refl)).
Defined.

(** ** Matches of the global patterns *)

Lemma times_inv (n : nat) (p : Z -> bool) (k : kont) (cur : cursor) (caps : captures)
    (r : Z * list (list Z)) :
  times n p k cur caps = Some r ->
  exists xs s' b', rest cur = xs ++ s' /\ length xs = n
                   /\ k (Cursor b' s' (here cur + len xs)) caps = Some r.
Proof.
  revert cur. induction n as [|n IH]; intros cur; simpl.
  - intros Hk. exists [], (rest cur), (before cur). change (len []) with 0.
    rewrite Z.add_0_r. repeat split. by destruct cur.
  - intros (c & s1 & Hrest & _ & Hk)%one_inv.
    apply IH in Hk as (xs & s' & b' & Hr & Hlen & Hk). cbn [rest here] in Hr, Hk.
    exists (c :: xs), s', b'. rewrite len_cons.
    replace (here cur + (1 + len xs)) with (here cur + 1 + len xs) by lia.
    repeat split; [by rewrite Hrest, Hr|by rewrite <- Hlen|done].
Qed.

(** Whatever an atom does, the continuation runs on a suffix of the text,
    at the index that goes with it. *)
Lemma step_suffix (a : atom) (k : kont) (cur : cursor) (caps : captures)
    (r : Z * list (list Z)) :
  step a k cur caps = Some r ->
  exists xs cur' caps', rest cur = xs ++ rest cur' /\ here cur' = here cur + len xs
                        /\ k cur' caps' = Some r.
Proof.
  destruct a as [p|p|p|p|n p| | | |]; cbn [step].
  - intros (c & s' & Hrest & _ & Hk)%one_inv.
    exists [c]. eexists _, _. split; [|split; [|exact Hk]]; done.
  - intros (xs & s' & b' & Hrest & _ & _ & Hk)%greedy_inv.
    exists xs. eexists _, _. split; [|split; [|exact Hk]]; done.
  - intros (xs & s' & b' & Hrest & _ & _ & Hk)%plus_inv.
    exists xs. eexists _, _. split; [|split; [|exact Hk]]; done.
  - intros (xs & s' & b' & Hrest & _ & _ & Hk)%lazy_inv.
    exists xs. eexists _, _. split; [|split; [|exact Hk]]; done.
  - intros (xs & s' & b' & Hrest & _ & Hk)%times_inv.
    exists xs. eexists _, _. split; [|split; [|exact Hk]]; done.
  - destruct (before cur); [done|]. intros Hk. exists []. eexists _, _.
    split; [|split; [|exact Hk]]; [done|]. change (len []) with 0. lia.
  - destruct (xorb _ _); [|done]. intros Hk. exists []. eexists _, _.
    split; [|split; [|exact Hk]]; [done|]. change (len []) with 0. lia.
  - intros Hk. exists []. eexists _, _.
    split; [|split; [|exact Hk]]; [done|]. change (len []) with 0. lia.
  - destruct (opened caps); intros Hk; exists []; eexists _, _;
      (split; [|split; [|exact Hk]]; [done|]); change (len []) with 0; lia.
Qed.

Lemma run_suffix (re : list atom) (k : kont) (cur : cursor) (caps : captures)
    (r : Z * list (list Z)) :
  run re k cur caps = Some r ->
  exists xs cur' caps', rest cur = xs ++ rest cur' /\ here cur' = here cur + len xs
                        /\ k cur' caps' = Some r.
Proof.
  revert k cur caps. induction re as [|a re IH]; intros k cur caps; cbn [run].
  - intros Hk. exists [], cur, caps. change (len []) with 0. by rewrite Z.add_0_r.
  - intros (xs & cur1 & caps1 & Hr1 & Hh1 & Hk)%step_suffix.
    apply IH in Hk as (ys & cur2 & caps2 & Hr2 & Hh2 & Hk).
    exists (xs ++ ys), cur2, caps2. rewrite len_app, Hr1, Hr2, Hh2, Hh1, <- app_assoc.
    repeat split; [lia|done].
Qed.

(** A match ends inside the text. *)
Lemma run_stop_inside (re : list atom) (cur : cursor) (caps : captures)
    (r : Z * list (list Z)) :
  run re accept cur caps = Some r ->
  here cur <= fst r <= here cur + len (rest cur).
Proof.
  intros (xs & cur' & caps' & Hr & Hh & Hk)%run_suffix. unfold accept in Hk.
  injection Hk as <-. cbn [fst]. rewrite Hh, Hr, len_app.
  pose proof (len_nonneg xs). pose proof (len_nonneg (rest cur')). lia.
Qed.

(** A pattern that starts with a literal character consumes it. *)
Lemma run_lit_first (c : Z) (t : list Z) (re : list atom) (cur : cursor)
    (caps : captures) (r : Z * list (list Z)) :
  run (map (fun c => One (Z.eqb c)) (c :: t) ++ re) accept cur caps = Some r ->
  here cur < fst r.
Proof.
  cbn [map app run step]. intros (c' & s' & _ & _ & Hk)%one_inv.
  apply run_stop_inside in Hk. cbn [here] in Hk. lia.
Qed.

Lemma exec_inv_at (re : list atom) (s : list Z) (from : Z) (m : found) :
  exec re s from = Some m ->
  exists pre s' b', s = pre ++ s' /\ index m = len pre /\ from <= index m
                    /\ run re accept (Cursor b' s' (index m)) (Captures None [])
                       = Some (stop m, group m).
Proof.
  unfold exec. destruct (len s <? from) eqn:Hfrom; [done|].
  intros (pre & s' & b' & Hs & Hi & Hrun)%search_inv.
  exists (take (Z.to_nat from) s ++ pre), s', b'.
  split; [by rewrite <- app_assoc, <- Hs, take_drop|].
  split; [|split; [pose proof (len_nonneg pre); lia|done]].
  rewrite Hi, len_app. f_equal. unfold len in *. rewrite length_take. lia.
Qed.

Lemma global_pattern_not_empty (re : list atom) (cur : cursor) (caps : captures)
    (r : Z * list (list Z)) :
  In re globalPatterns -> run re accept cur caps = Some r -> here cur < fst r.
Proof.
  intros [<-|[<-|[<-|[<-|[]]]]].
  - apply (run_lit_first 0x2f).
  - apply (run_lit_first 0x2f).
  - apply (run_lit_first 0x2f).
  - unfold refRe. rewrite run_app.
    intros (ds & s' & b' & _ & Hne & _ & Hk)%digitsGroup_inv.
    apply run_stop_inside in Hk. cbn [here] in Hk.
    destruct ds as [|d ds]; [done|]. rewrite len_cons in Hk. pose proof (len_nonneg ds). lia.
Qed.

Lemma exec_global_bounds (re : list atom) (s : list Z) (from : Z) (m : found) :
  In re globalPatterns -> exec re s from = Some m ->
  0 <= index m /\ from <= index m /\ index m < stop m /\ stop m <= len s.
Proof.
  intros Hre (pre & s' & b' & -> & Hi & Hfrom & Hrun)%exec_inv_at.
  pose proof (global_pattern_not_empty _ _ _ _ Hre Hrun) as Hlt.
  apply run_stop_inside in Hrun. cbn [fst here rest] in *.
  rewrite len_app. pose proof (len_nonneg pre). lia.
Qed.

Lemma execLoop_fuel (re : list atom) (s : list Z) :
  In re globalPatterns ->
  forall (n1 n2 : nat) (from : Z),
    0 <= from -> len s - from <= Z.of_nat n1 -> len s - from <= Z.of_nat n2 ->
    execLoop n1 re s from = execLoop n2 re s from.
Proof.
  intros Hre. induction n1 as [|n1 IH]; intros n2 from Hfrom H1 H2.
  - destruct n2 as [|n2]; [done|]. simpl.
    destruct (exec re s from) as [m|] eqn:Hm; [|done].
    pose proof (exec_global_bounds _ _ _ _ Hre Hm). lia.
  - simpl. destruct (exec re s from) as [m|] eqn:Hm.
    + pose proof (exec_global_bounds _ _ _ _ Hre Hm) as (? & ? & ? & ?).
      destruct n2 as [|n2]; [lia|]. simpl. rewrite Hm. f_equal. apply IH; lia.
    + destruct n2 as [|n2]; [done|]. simpl. by rewrite Hm.
Qed.

(** The [exec] loops of the scanners end on every text: none of the four
    patterns they run matches the empty string, so every match ends after it
    starts and the next search starts further on; the matches lie inside the
    text. *)
Theorem exec_loops_end (re : list atom) (s : list Z) (n : nat) :
  In re globalPatterns -> (length s <= n)%nat ->
  execLoop n re s 0 = execAll re s
  /\ Forall (fun m => 0 <= index m < stop m /\ stop m <= len s) (execAll re s).
Proof.
  intros Hre Hn. split.
  - apply execLoop_fuel; [done|done|unfold len; lia|unfold len; lia].
  - eapply Forall_impl; [apply execLoop_exec|]. intros m [from Hm]. simpl in Hm.
    pose proof (exec_global_bounds _ _ _ _ Hre Hm). lia.
Qed.

Lemma exec_loops_end_witness :
  execLoop 40 typePageRe (bytes "<< /Type /Page >> << /Type /Pages >>") 0
  = execAll typePageRe (bytes "<< /Type /Page >> << /Type /Pages >>")
  /\ Forall (fun m => 0 <= index m < stop m
                      /\ stop m <= len (bytes "<< /Type /Page >> << /Type /Pages >>"))
       (execAll typePageRe (bytes "<< /Type /Page >> << /Type /Pages >>")).
Proof.
  exact (exec_loops_end typePageRe (bytes "<< /Type /Page >> << /Type /Pages >>") 40
           (or_intror (or_introl eq_refl)) ltac:(vm_compute; lia)).
Defined.

Lemma wordBoundary_inv (k : kont) (cur : cursor) (caps : captures)
    (r : Z * list (list Z)) :
  step WordBoundary k cur caps = Some r ->
  xorb (wordAt (before cur)) (wordAt (head (rest cur))) = true.
Proof. cbn [step]. by destruct (xorb _ _). Qed.

(** Every match that the page-object counter counts is a [/Type] key,
    optional white space and the name [/Page], and the name ends there: what
    follows is not a letter, a digit or an underscore.  So [/Type /Pages] is
    never counted as a page. *)
Theorem page_hits_are_page_types (s : list Z) (m : found) :
  In m (execAll typePageRe s) ->
  exists pre ws post,
    s = pre ++ bytes "/Type" ++ ws ++ bytes "/Page" ++ post
    /\ index m = len pre
    /\ Forall (fun c => isSpace c = true) ws
    /\ (forall c, head post = Some c -> isWord c = false).
Proof.
  intros Hin. pose proof (execLoop_exec (length s) typePageRe s 0) as Hall.
  rewrite List.Forall_forall in Hall. destruct (Hall m Hin) as [from Hm].
  apply exec_inv_at in Hm as (pre & s' & b' & -> & Hi & _ & Hrun).
  unfold typePageRe, lit, optSpaces in Hrun. rewrite !run_app in Hrun. cbn [run] in Hrun.
  apply run_lit_inv in Hrun as (s1 & Hr1 & Hrun). cbn [rest] in Hr1.
  apply star_inv in Hrun as (ws & s2 & b2 & Hr2 & Hws & _ & Hrun). cbn [rest] in Hr2.
  apply run_lit_inv in Hrun as (post & Hr3 & Hrun). cbn [rest] in Hr3.
  apply wordBoundary_inv in Hrun. cbn [before rest] in Hrun.
  change (last (bytes "/Page")) with (Some 101) in Hrun. cbn [wordAt] in Hrun.
  change (isWord 101) with true in Hrun. cbn [xorb] in Hrun.
  exists pre, ws, post. rewrite Hr1, Hr2, Hr3. repeat split; [done|done|].
  intros c Hc. rewrite Hc in Hrun. simpl in Hrun. by destruct (isWord c).
Qed.

Lemma page_hits_are_page_types_witness :
  exists pre ws post,
    bytes "<< /Type /Pages >> << /Type  /Page >>"
    = pre ++ bytes "/Type" ++ ws ++ bytes "/Page" ++ post
    /\ index (Found 22 34 []) = len pre
    /\ Forall (fun c => isSpace c = true) ws
    /\ (forall c, head post = Some c -> isWord c = false).
Proof.
  exact (page_hits_are_page_types (bytes "<< /Type /Pages >> << /Type  /Page >>")
           (Found 22 34 []) (or_introl eq_refl)).
Defined.

(** ** The loops over a cross-reference table *)

Lemma advanceToNextLine_loop_ge (n : nat) (buffer : list Z) (p : Z) :
  p <= advanceToNextLine_loop n buffer p.
Proof.
  revert p. induction n as [|n IH]; intros p; simpl; [lia|].
  destruct (p <? len buffer); [|lia].
  destruct (is_ (at_ buffer p) 10); [lia|].
  destruct (is_ (at_ buffer p) 13).
  - destruct (is_ (at_ buffer (p + 1)) 10); lia.
  - specialize (IH (p + 1)). lia.
Qed.

Lemma advanceToNextLine_ge (buffer : list Z) (pos : Z) : pos <= advanceToNextLine buffer pos.
Proof. apply advanceToNextLine_loop_ge. Qed.

Lemma advanceToNextLine_progress (buffer : list Z) (pos : Z) :
  pos < len buffer -> pos < advanceToNextLine buffer pos.
Proof.
  intros Hlt. unfold advanceToNextLine.
  destruct (Z.to_nat (len buffer - pos)) as [|n] eqn:Hn; [lia|]. simpl.
  assert ((pos <? len buffer) = true) as -> by lia.
  destruct (is_ (at_ buffer pos) 10); [lia|].
  destruct (is_ (at_ buffer pos) 13).
  - destruct (is_ (at_ buffer (pos + 1)) 10); lia.
  - pose proof (advanceToNextLine_loop_ge n buffer (pos + 1)). lia.
Qed.

Lemma skipWhitespace_ge (buffer : list Z) (pos : Z) : pos <= skipWhitespace buffer pos.
Proof.
  by destruct (skipWhitespace_loop_spec (Z.to_nat (len buffer - pos)) buffer pos
                 ltac:(lia)) as (H & _).
Qed.

Lemma classicEntries_loop_ge (n : nat) (buffer : list Z) (firstObj i pos : Z)
    (m : gmap (option Z) entry) (r : gmap (option Z) entry * Z) :
  classicEntries_loop n buffer firstObj i pos m = Ok r -> pos <= snd r.
Proof.
  revert i pos m. induction n as [|n IH]; intros i pos m; simpl.
  - intros [= <-]. simpl. lia.
  - destruct (readLineAscii buffer pos); [done|]. intros H%IH.
    pose proof (advanceToNextLine_ge buffer pos). lia.
Qed.

Lemma chainEntries_loop_ge (n : nat) (buffer : list Z) (firstObj : option Z) (i pos : Z)
    (m : gmap (option Z) entry) :
  pos <= snd (chainEntries_loop n buffer firstObj i pos m).
Proof.
  revert i pos m. induction n as [|n IH]; intros i pos m; simpl; [lia|].
  specialize (IH (i + 1) (advanceToNextLine buffer pos)
                (chainRecord (readLineAscii buffer pos) ((fun f => f + i) <$> firstObj) m)).
  pose proof (advanceToNextLine_ge buffer pos). lia.
Qed.

Lemma classicSections_loop_fuel (buffer : list Z) :
  forall (n1 n2 : nat) (pos : Z) (m : gmap (option Z) entry),
    len buffer - pos <= Z.of_nat n1 -> len buffer - pos <= Z.of_nat n2 ->
    classicSections_loop n1 buffer pos m = classicSections_loop n2 buffer pos m.
Proof.
  induction n1 as [|n1 IH]; intros n2 pos m H1 H2.
  - destruct n2 as [|n2]; [done|]. simpl.
    by assert ((pos <? len buffer) = false) as -> by lia.
  - simpl. destruct (pos <? len buffer) eqn:Hlt;
      [|destruct n2; [done|simpl; by rewrite Hlt]].
    destruct n2 as [|n2]; [lia|]. simpl. rewrite Hlt.
    destruct (peekKeyword buffer pos "trailer"); [done|].
    destruct (readLineAscii buffer pos) as [|c line]; [done|].
    destruct (length (splitSpaces (trim (c :: line))) <? 2)%nat; [done|].
    destruct (parseInt (nth 0 (splitSpaces (trim (c :: line))) [])) as [firstObj|]; [|done].
    destruct (parseInt (nth 1 (splitSpaces (trim (c :: line))) [])) as [count|]; [|done].
    destruct (count <? 0); [done|].
    destruct (classicEntries_loop (Z.to_nat count) buffer firstObj 0
                (advanceToNextLine buffer pos) m) as [r|e] eqn:Hr; [|done].
    cbn [bind]. apply classicEntries_loop_ge in Hr.
    pose proof (advanceToNextLine_progress buffer pos ltac:(lia)).
    pose proof (skipWhitespace_ge buffer (snd r)).
    apply IH; lia.
Qed.

Lemma chainSections_loop_fuel (buffer : list Z) :
  forall (n1 n2 : nat) (pos : Z) (m : gmap (option Z) entry),
    len buffer - pos <= Z.of_nat n1 -> len buffer - pos <= Z.of_nat n2 ->
    chainSections_loop n1 buffer pos m = chainSections_loop n2 buffer pos m.
Proof.
  induction n1 as [|n1 IH]; intros n2 pos m H1 H2.
  - destruct n2 as [|n2]; [done|]. simpl.
    by assert ((pos <? len buffer) = false) as -> by lia.
  - simpl. destruct (pos <? len buffer) eqn:Hlt;
      [|destruct n2; [done|simpl; by rewrite Hlt]].
    destruct n2 as [|n2]; [lia|]. simpl. rewrite Hlt.
    destruct (peekKeyword buffer pos "trailer"); [done|].
    destruct (readLineAscii buffer pos) as [|c line]; [done|].
    destruct (length (splitSpaces (trim (c :: line))) <? 2)%nat; [done|].
    match goal with |- chainSections_loop _ _ (skipWhitespace _ (snd ?r)) _ = _ =>
      pose proof (chainEntries_loop_ge
                    (rounds (parseInt (nth 1 (splitSpaces (trim (c :: line))) []))) buffer
                    (parseInt (nth 0 (splitSpaces (trim (c :: line))) [])) 0
                    (advanceToNextLine buffer pos) m) as Hge;
      pose proof (skipWhitespace_ge buffer (snd r)) as Hsk
    end.
    pose proof (advanceToNextLine_progress buffer pos ltac:(lia)).
    apply IH; lia.
Qed.



(** *** A subsection that is written as the format says *)

Lemma entry_line_read (pre rest : list Z) (eol : list Z) (e : writtenEntry) :
  fixedWidth e -> eol = [0x20; 0x0a] \/ eol = [0x0d; 0x0a] ->
  let buffer := pre ++ entryBytes eol e ++ rest in
  exists line,
    readLineAscii buffer (len pre) = line /\ line <> []
    /\ advanceToNextLine buffer (len pre) = len pre + 20
    /\ matchXrefEntry line
       = Some (digitsValue (offsetDigits e), digitsValue (genDigits e), [flagByte e]).
Proof.
  intros (Hl & Hds & Hl' & Hgs & Hflag) Heol buffer.
  set (core := offsetDigits e ++ [0x20] ++ genDigits e ++ [0x20] ++ [flagByte e]).
  assert (Forall (fun c => c <> 0x0a /\ c <> 0x0d) core) as Hcore.
  { assert (forall l, Forall (fun c => isDigit c = true) l ->
                      Forall (fun c => c <> 0x0a /\ c <> 0x0d) l) as Hdig.
    { intros l Hl0. eapply Forall_impl; [exact Hl0|]. intros c Hc. unfold isDigit in Hc. lia. }
    subst core. rewrite !Forall_app. split; [by apply Hdig|].
    split; [repeat constructor; lia|]. split; [by apply Hdig|].
    split; [repeat constructor; lia|]. repeat constructor; lia. }
  assert (len core = 18) as Hlen.
  { subst core. rewrite !len_app. unfold len. rewrite Hl, Hl'. simpl. lia. }
  destruct Heol as [-> | ->].
  - destruct (readLine_advance_app pre (core ++ [0x20]) [0x0a] rest) as [Hline Hnext].
    { rewrite Forall_app. split; [done|]. repeat constructor; lia. }
    { by left. }
    assert (buffer = pre ++ (core ++ [32]) ++ [10] ++ rest) as Hbuf
      by (subst buffer core; unfold entryBytes; by rewrite <- !app_assoc).
    rewrite <- Hbuf in Hline, Hnext.
    exists (core ++ [0x20]). split; [done|]. split; [by destruct core|].
    split; [rewrite Hnext, len_app, Hlen; change (len [32]) with 1;
            change (len [10]) with 1; lia|].
    subst core. rewrite <- !app_assoc. by apply matchXrefEntry_fixed_width.
  - destruct (readLine_advance_app pre core [0x0d; 0x0a] rest) as [Hline Hnext];
      [done|by right; left|].
    assert (buffer = pre ++ core ++ [13; 10] ++ rest) as Hbuf
      by (subst buffer core; unfold entryBytes; by rewrite <- !app_assoc).
    rewrite <- Hbuf in Hline, Hnext.
    exists core. split; [done|]. split; [subst core; by destruct (offsetDigits e)|].
    split; [rewrite Hnext, Hlen; change (len [13; 10]) with 2; lia|].
    subst core. rewrite <- (app_nil_r [flagByte e]).
    by apply matchXrefEntry_fixed_width.
Qed.

Lemma classicRecord_written (line : list Z) (e : writtenEntry) (objNum : Z)
    (m : gmap (option Z) entry) :
  fixedWidth e ->
  matchXrefEntry line
  = Some (digitsValue (offsetDigits e), digitsValue (genDigits e), [flagByte e]) ->
  classicRecord line objNum m
  = (if flagByte e =? 0x6e then <[Some objNum := entryOf e]> m else m).
Proof.
  intros (_ & _ & _ & _ & Hflag) Hm. unfold classicRecord. rewrite Hm.
  by destruct Hflag as [-> | ->].
Qed.

Lemma chainRecord_written (line : list Z) (e : writtenEntry) (objNum : Z)
    (m : gmap (option Z) entry) :
  fixedWidth e -> line <> [] ->
  matchXrefEntry line
  = Some (digitsValue (offsetDigits e), digitsValue (genDigits e), [flagByte e]) ->
  chainRecord line (Some objNum) m
  = (if flagByte e =? 0x6e
     then if m !! Some objNum is Some _ then m else <[Some objNum := entryOf e]> m
     else m).
Proof.
  intros (_ & _ & _ & _ & Hflag) Hne Hm. unfold chainRecord.
  destruct line; [done|]. rewrite Hm. by destruct Hflag as [-> | ->].
Qed.

Lemma subsection_entries_read (es : list writtenEntry) (eol : list Z) :
  Forall fixedWidth es -> eol = [0x20; 0x0a] \/ eol = [0x0d; 0x0a] ->
  forall (pre post : list Z) (firstObj i : Z) (m : gmap (option Z) entry),
    let buffer := pre ++ flat_map (entryBytes eol) es ++ post in
    classicEntries_loop (length es) buffer firstObj i (len pre) m
    = Ok (putEntries (firstObj + i) es m, len pre + 20 * Z.of_nat (length es))
    /\ chainEntries_loop (length es) buffer (Some firstObj) i (len pre) m
       = (putMissingEntries (firstObj + i) es m, len pre + 20 * Z.of_nat (length es)).
Proof.
  intros Hes Heol. induction Hes as [|e es He _ IH]; intros pre post firstObj i m buffer.
  - simpl. rewrite Z.add_0_r. done.
  - subst buffer. cbn [flat_map length]. rewrite <- app_assoc.
    destruct (entry_line_read pre (flat_map (entryBytes eol) es ++ post) eol e He Heol)
      as (line & Hline & Hne & Hnext & Hm).
    specialize (IH (pre ++ entryBytes eol e) post firstObj (i + 1)).
    rewrite <- app_assoc in IH.
    assert (len (pre ++ entryBytes eol e) = len pre + 20) as Hlen.
    { rewrite len_app. destruct He as (Hl & _ & Hl' & _ & _).
      unfold entryBytes. rewrite !len_app. unfold len. rewrite Hl, Hl'.
      destruct Heol as [-> | ->]; simpl; lia. }
    rewrite Hlen in IH.
    replace (firstObj + (i + 1)) with (firstObj + i + 1) in IH by lia.
    replace (len pre + 20 * Z.of_nat (S (length es)))
      with (len pre + 20 + 20 * Z.of_nat (length es)) by lia.
    split.
    + cbn [classicEntries_loop]. rewrite Hline, Hnext.
      destruct line as [|c line]; [done|].
      rewrite (classicRecord_written _ e) by done. apply IH.
    + cbn [chainEntries_loop]. rewrite Hline, Hnext. cbn [fmap option_fmap option_map].
      rewrite (chainRecord_written _ e) by done. apply IH.
Qed.


Lemma forallb_true_Forall (f : Z -> bool) (l : list Z) :
  forallb f l = true -> Forall (fun c => f c = true) l.
Proof.
  induction l as [|c l IH]; [constructor|]. simpl. intros [Hc Hl]%andb_prop.
  constructor; [done|by apply IH].
Qed.

Lemma fixedWidth_checked (e : writtenEntry) :
  (length (offsetDigits e) =? 10)%nat && forallb isDigit (offsetDigits e)
  && (length (genDigits e) =? 5)%nat && forallb isDigit (genDigits e)
  && ((flagByte e =? 0x6e) || (flagByte e =? 0x66)) = true ->
  fixedWidth e.
Proof.
  intros [[[[H1 H2]%andb_prop H3]%andb_prop H4]%andb_prop H5]%andb_prop.
  split; [by apply Nat.eqb_eq|]. split; [by apply forallb_true_Forall|].
  split; [by apply Nat.eqb_eq|]. split; [by apply forallb_true_Forall|].
  apply orb_prop in H5 as [H5|H5]; lia.
Qed.


(** ** Reading an array *)

Lemma readArrayString_loop_body (body : list Z) :
  arrayBody body ->
  forall (buffer l r : list Z) (d : Z),
    buffer = l ++ body ++ r -> 1 <= d ->
    exists m : nat,
      (m <= length body)%nat
      /\ forall n : nat,
           readArrayString_loop (m + n) buffer (len l) d
           = readArrayString_loop n buffer (len l + len body) d.
Proof.
  induction 1 as [|c s Hc1 Hc2 _ IH|inner s _ IHinner _ IHs]; intros buffer l r d Hbuf Hd.
  - exists 0%nat. split; [done|]. intros n. change (len []) with 0. by rewrite Z.add_0_r.
  - destruct (IH buffer (l ++ [c]) r d) as (m & Hm & Hrun); [by rewrite Hbuf, <- app_assoc|done|].
    exists (S m). split; [simpl; lia|]. intros n. cbn [Nat.add readArrayString_loop].
    pose proof (len_nonneg l). pose proof (len_nonneg s). pose proof (len_nonneg r).
    assert ((len l <? len buffer) = true) as ->.
    { apply Z.ltb_lt. rewrite Hbuf, len_app. simpl app. rewrite len_cons, len_app. lia. }
    assert (at_ buffer (len l) = Some c) as -> by (rewrite Hbuf; simpl app; apply at_app_here).
    simpl is_. assert ((c =? 91) = false) as -> by lia. assert ((c =? 93) = false) as -> by lia.
    rewrite len_app in Hrun. change (len [c]) with 1 in Hrun.
    rewrite Hrun, len_cons. f_equal. lia.
  - pose proof (len_nonneg l). pose proof (len_nonneg s). pose proof (len_nonneg r).
    pose proof (len_nonneg inner).
    destruct (IHinner buffer (l ++ bytes "[") (bytes "]" ++ s ++ r) (d + 1))
      as (m1 & Hm1 & Hrun1); [by rewrite Hbuf, <- !app_assoc|lia|].
    destruct (IHs buffer (l ++ bytes "[" ++ inner ++ bytes "]") r d)
      as (m2 & Hm2 & Hrun2); [by rewrite Hbuf, <- !app_assoc|done|].
    exists (S (m1 + S m2)). split.
    { rewrite !length_app. change (length (bytes "[")) with 1%nat.
      change (length (bytes "]")) with 1%nat. lia. }
    intros n. cbn [Nat.add readArrayString_loop].
    assert ((len l <? len buffer) = true) as ->.
    { apply Z.ltb_lt. rewrite Hbuf, !len_app. change (len (bytes "[")) with 1.
      change (len (bytes "]")) with 1. lia. }
    assert (at_ buffer (len l) = Some 0x5b) as -> by (rewrite Hbuf; apply at_app_here).
    simpl is_. cbv iota.
    rewrite len_app in Hrun1. change (len (bytes "[")) with 1 in Hrun1.
    rewrite <- Nat.add_assoc, Hrun1. cbn [Nat.add readArrayString_loop].
    assert ((len l + 1 + len inner <? len buffer) = true) as ->.
    { apply Z.ltb_lt. rewrite Hbuf, !len_app. change (len (bytes "[")) with 1.
      change (len (bytes "]")) with 1. lia. }
    assert (buffer = (l ++ bytes "[" ++ inner) ++ 0x5d :: s ++ r) as Hbuf'
      by (by rewrite Hbuf, <- !app_assoc).
    assert (len l + 1 + len inner = len (l ++ bytes "[" ++ inner)) as Hpos
      by (rewrite !len_app; change (len (bytes "[")) with 1; lia).
    rewrite Hpos.
    assert (at_ buffer (len (l ++ bytes "[" ++ inner)) = Some 0x5d) as ->
      by (rewrite Hbuf'; apply at_app_here).
    simpl is_. cbv iota.
    assert ((d + 1 - 1 =? 0) = false) as -> by lia.
    replace (d + 1 - 1) with d by lia.
    rewrite !len_app in Hrun2. change (len (bytes "[")) with 1 in Hrun2.
    change (len (bytes "]")) with 1 in Hrun2.
    replace (len (l ++ bytes "[" ++ inner) + 1) with (len l + (1 + (len inner + 1)))
      by (rewrite <- Hpos; lia).
    rewrite Hrun2. f_equal. rewrite !len_app. change (len (bytes "[")) with 1.
    change (len (bytes "]")) with 1. lia.
Qed.

Lemma readArrayString_nested (pre body post : list Z) :
  arrayBody body ->
  readArrayString (pre ++ bytes "[" ++ body ++ bytes "]" ++ post) (len pre)
  = Ok (bytes "[" ++ body ++ bytes "]", len pre + len body + 2).
Proof.
  intros Hbody. unfold readArrayString.
  pose proof (len_nonneg pre). pose proof (len_nonneg body). pose proof (len_nonneg post).
  set (buffer := pre ++ bytes "[" ++ body ++ bytes "]" ++ post).
  assert (at_ buffer (len pre) = Some 0x5b) as Hopen by (subst buffer; apply at_app_here).
  rewrite Hopen. simpl is_. cbn [negb].
  destruct (readArrayString_loop_body body Hbody buffer (pre ++ bytes "[")
              (bytes "]" ++ post) 1) as (m & Hm & Hrun);
    [subst buffer; by rewrite <- !app_assoc|done|].
  assert (len buffer = len pre + 1 + len body + 1 + len post) as Hlen.
  { subst buffer. rewrite !len_app. change (len (bytes "[")) with 1.
    change (len (bytes "]")) with 1. lia. }
  assert (exists n, Z.to_nat (len buffer - len pre) = S (m + S n)) as [n ->].
  { exists (Z.to_nat (len buffer - len pre) - m - 2)%nat. unfold len in *. lia. }
  cbn [readArrayString_loop].
  assert ((len pre <? len buffer) = true) as -> by lia.
  rewrite Hopen. simpl is_. cbv iota.
  rewrite len_app in Hrun. change (len (bytes "[")) with 1 in Hrun.
  change (0 + 1) with 1. rewrite Hrun. cbn [readArrayString_loop].
  assert ((len pre + 1 + len body <? len buffer) = true) as -> by lia.
  assert (buffer = (pre ++ bytes "[" ++ body) ++ 0x5d :: post) as Hbuf'
    by (subst buffer; by rewrite <- !app_assoc).
  assert (len pre + 1 + len body = len (pre ++ bytes "[" ++ body)) as Hpos
    by (rewrite !len_app; change (len (bytes "[")) with 1; lia).
  rewrite Hpos.
  assert (at_ buffer (len (pre ++ bytes "[" ++ body)) = Some 0x5d) as ->
    by (rewrite Hbuf'; apply at_app_here).
  simpl is_. cbv iota. change (1 - 1 =? 0) with true. cbv iota. rewrite <- Hpos.
  f_equal. f_equal; [|lia].
  subst buffer.
  replace (len pre + 1 + len body + 1) with (len pre + len (bytes "[" ++ body ++ bytes "]"))
    by (rewrite !len_app; change (len (bytes "[")) with 1; change (len (bytes "]")) with 1; lia).
  replace (pre ++ bytes "[" ++ body ++ bytes "]" ++ post)
    with (pre ++ (bytes "[" ++ body ++ bytes "]") ++ post) by (by rewrite <- !app_assoc).
  apply toString_app.
Qed.

Lemma arrayBody_plain (s : list Z) :
  forallb (fun c => negb (c =? 0x5b) && negb (c =? 0x5d)) s = true -> arrayBody s.
Proof.
  induction s as [|c s IH]; [constructor|]. simpl.
  intros [[H1 H2]%andb_prop Hs]%andb_prop. apply arrayBody_byte; [lia|lia|by apply IH].
Qed.

(** An array object is read back with its opening bracket doubled:
    [readArrayString] returns the text of a plainly nested array from its
    opening bracket to the bracket that closes it, and [readAnyObjectContent]
    on an object whose content is such an array returns that text behind one
    more opening bracket. *)
Theorem array_object_read_back (pre ds gs eol ws body post : list Z)
    (expectedObj expectedGen : Z) :
  ds <> [] -> Forall (fun c => isDigit c = true) ds ->
  gs <> [] -> Forall (fun c => isDigit c = true) gs ->
  eol = [0x0a] \/ eol = [0x0d; 0x0a] ->
  Forall (fun c => isPdfWhitespace (Some c) = true) ws ->
  arrayBody body ->
  let header := ds ++ [0x20] ++ gs ++ bytes " obj" in
  let array := bytes "[" ++ body ++ bytes "]" in
  let buffer := pre ++ header ++ eol ++ ws ++ array ++ post in
  readArrayString buffer (len (pre ++ header ++ eol ++ ws))
  = Ok (array, len (pre ++ header ++ eol ++ ws) + len body + 2)
  /\ readAnyObjectContent buffer (len pre) expectedObj expectedGen
     = Ok (bytes "[" ++ array).
Proof.
  intros Hne Hds Hne' Hgs Heol Hws Hbody header array buffer.
  destruct (object_header_read pre ds gs eol ws (array ++ post) Hne Hds Hne' Hgs Heol Hws)
    as (Hline & [m Hm] & Hpos).
  { subst array. simpl. by intros c [= <-]. }
  fold header in Hline, Hm, Hpos. fold buffer in Hline, Hpos.
  assert (buffer = (pre ++ header ++ eol ++ ws) ++ bytes "[" ++ body ++ bytes "]" ++ post)
    as Hbuf by (subst buffer array; by rewrite <- !app_assoc).
  assert (readArrayString buffer (len (pre ++ header ++ eol ++ ws))
          = Ok (array, len (pre ++ header ++ eol ++ ws) + len body + 2)) as Harr
    by (rewrite Hbuf; by apply readArrayString_nested).
  split; [done|].
  unfold readAnyObjectContent. rewrite Hline, Hm, Hpos.
  assert (at_ buffer (len (pre ++ header ++ eol ++ ws)) = Some 0x5b) as ->
    by (rewrite Hbuf; apply at_app_here).
  simpl is_. cbn [andb]. by rewrite Harr.
Qed.

Lemma array_object_read_back_witness :
  readArrayString (bytes "5 0 obj" ++ [0x0a] ++ bytes "[3 0 R 4 0 R]" ++ [0x0a]
                   ++ bytes "endobj") 8
  = Ok (bytes "[3 0 R 4 0 R]", 21)
  /\ readAnyObjectContent (bytes "5 0 obj" ++ [0x0a] ++ bytes "[3 0 R 4 0 R]" ++ [0x0a]
                           ++ bytes "endobj") 0 5 0
     = Ok (bytes "[[3 0 R 4 0 R]").
Proof.
  exact (array_object_read_back [] (bytes "5") (bytes "0") [0x0a] [] (bytes "3 0 R 4 0 R")
           ([0x0a] ++ bytes "endobj") 5 0
           ltac:(discriminate) ltac:(unfold bytes; simpl; repeat constructor)
           ltac:(discriminate) ltac:(unfold bytes; simpl; repeat constructor)
           (or_introl eq_refl) ltac:(constructor)
           (arrayBody_plain (bytes "3 0 R 4 0 R") eq_refl)).
Defined.

(** ** The scan of inflated streams *)

Section InflatedScan.

Variable inflateSync : list Z -> result (list Z).

Lemma scanStreams_loop_written (n : nat) (buffer : list Z) (pos : Z) :
  let v := scanStreams_loop inflateSync n buffer pos 0 in
  v = 0
  \/ 0 < v
     /\ exists idx body inflated,
          flateStreamBody buffer idx = Some body /\ inflateSync body = Ok inflated
          /\ countWritten inflated v.
Proof.
  revert pos. induction n as [|n IH]; intros pos; cbn [scanStreams_loop]; [by left|].
  destruct (indexOf buffer (bytes "stream") pos =? -1); [by left|].
  set (idx := indexOf buffer (bytes "stream") pos).
  unfold streamLocalMax.
  destruct (flateStreamBody buffer idx) as [body|] eqn:Hbody; [|apply IH].
  destruct (inflateSync body) as [inflated|e] eqn:Hinf; [|apply IH].
  destruct (maxNearestCount_written inflated) as [H0|[Hpos Hw]].
  - rewrite H0. change (0 <? 0) with false. cbv iota. apply IH.
  - assert ((0 <? maxNearestCount inflated) = true) as Hlt by lia.
    cbv zeta. rewrite !Hlt. right. split; [exact Hpos|]. by exists idx, body, inflated.
Qed.


End InflatedScan.

(** ** Kids read back *)

(** A greedy repetition stops where the run of [p] ends, when the rest of
    the pattern matches there. *)
Lemma greedy_app_exact (p : Z -> bool) (k : kont) (xs s' : list Z)
    (r : Z * list (list Z)) :
  Forall (fun c => p c = true) xs ->
  (forall c, head s' = Some c -> p c = false) ->
  forall (b : option Z) (i : Z) (caps : captures),
    (forall b', k (Cursor b' s' (i + len xs)) caps = Some r) ->
    greedy p k b (xs ++ s') i caps = Some r.
Proof.
  intros Hxs Hstop. induction Hxs as [|c xs Hc _ IH]; intros b i caps Hk.
  - simpl in *. change (len []) with 0 in Hk. rewrite Z.add_0_r in Hk.
    destruct s' as [|c s']; simpl; [apply Hk|]. rewrite (Hstop c eq_refl). apply Hk.
  - simpl. rewrite Hc. rewrite (IH (Some c) (i + 1) caps); [done|].
    intros b'. rewrite len_cons in Hk.
    replace (i + 1 + len xs) with (i + (1 + len xs)) by lia. apply Hk.
Qed.

Lemma digitsGroup_exact (k : kont) (ds s' : list Z) (b : option Z) (i : Z)
    (caps : captures) (r : Z * list (list Z)) :
  ds <> [] -> Forall (fun c => isDigit c = true) ds ->
  (forall c, head s' = Some c -> isDigit c = false) ->
  (forall b', k (Cursor b' s' (i + len ds)) (Captures None (ds :: groups caps)) = Some r) ->
  run digitsGroup k (Cursor b (ds ++ s') i) caps = Some r.
Proof.
  intros Hne Hds Hstop Hk. destruct ds as [|d ds]; [done|].
  apply Forall_cons in Hds as [Hd Hds].
  unfold digitsGroup. cbn [app run step one rest here before]. rewrite Hd.
  apply greedy_app_exact; [done|done|]. intros b'. cbn [step opened here rest groups].
  replace (Z.to_nat (i + 1 + len ds - i)) with (length (d :: ds)) by (unfold len; simpl; lia).
  change (d :: ds ++ s') with ((d :: ds) ++ s'). rewrite take_app_length.
  rewrite len_cons in Hk. replace (i + 1 + len ds) with (i + (1 + len ds)) by lia. apply Hk.
Qed.

Lemma run_lit_app (t s' : list Z) (k : kont) (caps : captures) :
  forall (b : option Z) (i : Z),
    exists b', run (map (fun c => One (Z.eqb c)) t) k (Cursor b (t ++ s') i) caps
               = k (Cursor b' s' (i + len t)) caps.
Proof.
  induction t as [|c t IH]; intros b i.
  - exists b. simpl. change (len []) with 0. by rewrite Z.add_0_r.
  - cbn [map app run step one rest here]. rewrite Z.eqb_refl.
    destruct (IH (Some c) (i + 1)) as [b' ->]. exists b'.
    by replace (i + len (c :: t)) with (i + 1 + len t) by (rewrite len_cons; lia).
Qed.

(** A reference [N G R] matches the reference pattern, whole. *)
Lemma refRe_written (od gd s' : list Z) (b : option Z) (i : Z) :
  od <> [] -> Forall (fun c => isDigit c = true) od ->
  gd <> [] -> Forall (fun c => isDigit c = true) gd ->
  run refRe accept (Cursor b (od ++ [0x20] ++ gd ++ bytes " R" ++ s') i) (Captures None [])
  = Some (i + len od + 1 + len gd + 2, [od; gd]).
Proof.
  intros Hne Hod Hne' Hgd. unfold refRe. rewrite !run_app.
  apply digitsGroup_exact; [done|done|intros c [= <-]; reflexivity|]. intros b'.
  destruct gd as [|g gd]; [done|]. pose proof (Forall_inv Hgd) as Hg. simpl in Hg.
  cbn [app]. rewrite spaces_one_space by by apply isDigit_not_space.
  change (g :: gd ++ bytes " R" ++ s') with ((g :: gd) ++ bytes " R" ++ s').
  apply digitsGroup_exact; [done|done|intros c [= <-]; reflexivity|]. intros b''.
  change (bytes " R" ++ s') with (0x20 :: 0x52 :: s').
  rewrite spaces_one_space by reflexivity.
  unfold lit. change (bytes "R") with [0x52]. cbn [map run step one rest here before].
  change (82 =? 82) with true. cbv iota. unfold accept. cbn [here groups rev app].
  f_equal. f_equal. lia.
Qed.

(** The search for a match walks over every position where the pattern does
    not match. *)
Lemma search_skip (re : list atom) (lead s : list Z) :
  (forall a c t, lead = a ++ c :: t ->
     forall b j, run re accept (Cursor b (c :: t ++ s) j) (Captures None []) = None) ->
  forall (b : option Z) (i : Z),
    exists b', search re b (lead ++ s) i = search re b' s (i + len lead).
Proof.
  induction lead as [|c lead IH]; intros Hno b i.
  - exists b. simpl. change (len []) with 0. by rewrite Z.add_0_r.
  - cbn [app search]. rewrite (Hno [] c lead eq_refl).
    destruct (IH (fun a c' t E => Hno (c :: a) c' t (f_equal (cons c) E)) (Some c) (i + 1))
      as [b' ->].
    exists b'. rewrite len_cons. f_equal. lia.
Qed.

Lemma search_refRe_skip (lead s : list Z) (b : option Z) (i : Z) :
  Forall (fun c => isDigit c = false) lead ->
  exists b', search refRe b (lead ++ s) i = search refRe b' s (i + len lead).
Proof.
  intros Hlead. apply search_skip. intros a c t -> b0 j.
  apply Forall_app in Hlead as [_ Hc]. apply Forall_cons in Hc as [Hc _].
  unfold refRe, digitsGroup. cbn [app run step one rest]. by rewrite Hc.
Qed.

Lemma exec_at_prefix (re : list atom) (prefix s : list Z) :
  exists b, exec re (prefix ++ s) (len prefix) = search re b s (len prefix).
Proof.
  unfold exec. pose proof (len_nonneg prefix). pose proof (len_nonneg s).
  assert ((len (prefix ++ s) <? len prefix) = false) as -> by (rewrite len_app; lia).
  exists (if len prefix <=? 0 then None else (prefix ++ s) !! (Z.to_nat (len prefix) - 1)%nat).
  assert (Z.to_nat (len prefix) = length prefix) as -> by (unfold len; lia).
  rewrite drop_app_length. by replace (Z.max 0 (len prefix)) with (len prefix) by lia.
Qed.

Lemma omap_cons {A B : Type} (f : A -> option B) (x : A) (l : list A) :
  omap f (x :: l) = match f x with Some y => y :: omap f l | None => omap f l end.
Proof. done. Qed.

Lemma kidsBytes_length (ks : list writtenKid) :
  Forall kidWritten ks -> (length ks <= length (kidsBytes ks))%nat.
Proof.
  induction 1 as [|k ks (_ & Hne & _) _ IH]; [done|].
  unfold kidsBytes in *. cbn [flat_map]. unfold kidBytes at 1. rewrite !length_app.
  destruct (kidObj k); [done|]. simpl. lia.
Qed.

Lemma execLoop_kids (ks : list writtenKid) (tail : list Z) :
  Forall kidWritten ks -> Forall (fun c => isDigit c = false) tail ->
  forall (n : nat) (prefix : list Z),
    (length ks <= n)%nat ->
    omap refOfMatch (execLoop n refRe (prefix ++ kidsBytes ks ++ tail) (len prefix))
    = map kidRef ks.
Proof.
  intros Hks Htail. induction Hks as [|k ks (Hlead & Hne & Hod & Hne' & Hgd) _ IH];
    intros n prefix Hn.
  - destruct n as [|n]; [done|]. cbn [execLoop kidsBytes flat_map app].
    destruct (exec_at_prefix refRe prefix tail) as [b ->].
    destruct (search_refRe_skip tail [] b (len prefix) Htail) as [b' Hs].
    rewrite app_nil_r in Hs. rewrite Hs. done.
  - destruct n as [|n]; [simpl in Hn; lia|]. cbn [execLoop].
    assert (prefix ++ kidsBytes (k :: ks) ++ tail
            = prefix ++ kidLead k
              ++ (kidObj k ++ [0x20] ++ kidGen k ++ bytes " R" ++ (kidsBytes ks ++ tail)))
      as Hs.
    { unfold kidsBytes. cbn [flat_map]. unfold kidBytes at 1. by rewrite <- !app_assoc. }
    rewrite Hs at 1.
    destruct (exec_at_prefix refRe prefix
                (kidLead k ++ kidObj k ++ [0x20] ++ kidGen k ++ bytes " R"
                 ++ (kidsBytes ks ++ tail))) as [b ->].
    destruct (search_refRe_skip (kidLead k)
                (kidObj k ++ [0x20] ++ kidGen k ++ bytes " R" ++ (kidsBytes ks ++ tail))
                b (len prefix) Hlead) as [b' ->].
    pose proof (refRe_written (kidObj k) (kidGen k) (kidsBytes ks ++ tail) b'
                  (len prefix + len (kidLead k)) Hne Hod Hne' Hgd) as Hrun.
    assert (search refRe b'
              (kidObj k ++ [0x20] ++ kidGen k ++ bytes " R" ++ (kidsBytes ks ++ tail))
              (len prefix + len (kidLead k))
            = Some (Found (len prefix + len (kidLead k))
                      (len prefix + len (kidLead k) + len (kidObj k) + 1 + len (kidGen k) + 2)
                      [kidObj k; kidGen k])) as ->.
    { revert Hrun.
      generalize (kidObj k ++ [0x20] ++ kidGen k ++ bytes " R" ++ (kidsBytes ks ++ tail)).
      intros l Hrun. destruct l; cbn [search]; by rewrite Hrun. }
    cbn [stop]. rewrite omap_cons.
    assert (refOfMatch
              (Found (len prefix + len (kidLead k))
                 (len prefix + len (kidLead k) + len (kidObj k) + 1 + len (kidGen k) + 2)
                 [kidObj k; kidGen k]) = Some (kidRef k)) as ->.
    { unfold refOfMatch, groupInt. cbn [group nth Nat.sub].
      by rewrite !digitsValue_parseInt by done. }
    cbn [map]. f_equal.
    assert (prefix ++ kidsBytes (k :: ks) ++ tail
            = (prefix ++ kidBytes k) ++ kidsBytes ks ++ tail) as ->.
    { unfold kidsBytes. cbn [flat_map]. by rewrite <- !app_assoc. }
    replace (len prefix + len (kidLead k) + len (kidObj k) + 1 + len (kidGen k) + 2)
      with (len (prefix ++ kidBytes k)).
    { apply IH. simpl in Hn. lia. }
    unfold kidBytes. rewrite !len_app. change (len [32]) with 1.
    change (len (bytes " R")) with 2. lia.
Qed.

(** What the loop over the reference pattern collects from a text of
    written references. *)
Lemma refsOf_written (lead tail : list Z) (ks : list writtenKid) :
  Forall (fun c => isDigit c = false) lead ->
  Forall kidWritten ks -> Forall (fun c => isDigit c = false) tail ->
  refsOf (lead ++ kidsBytes ks ++ tail) = map kidRef ks.
Proof.
  intros Hlead Hks Htail. unfold refsOf, execAll.
  destruct ks as [|k ks].
  - apply (execLoop_kids [] (lead ++ tail) (Forall_nil_2 _) (proj2 (Forall_app _ _ _) (conj Hlead Htail))
             (length (lead ++ tail)) []). simpl. lia.
  - apply Forall_cons in Hks as [(Hl & Hk) Hks].
    set (k' := WrittenKid (lead ++ kidLead k) (kidObj k) (kidGen k)).
    assert (lead ++ kidsBytes (k :: ks) ++ tail = [] ++ kidsBytes (k' :: ks) ++ tail) as ->.
    { unfold kidsBytes. cbn [flat_map app]. unfold kidBytes. subst k'.
      cbn [kidLead kidObj kidGen]. by rewrite <- !app_assoc. }
    assert (Forall kidWritten (k' :: ks)) as Hks'.
    { apply Forall_cons_2; [|done]. split; [|done]. subst k'. cbn [kidLead].
      by apply Forall_app. }
    change (map kidRef (k :: ks)) with (map kidRef (k' :: ks)).
    apply (execLoop_kids (k' :: ks) tail Hks' Htail _ []).
    cbn [app]. rewrite length_app. pose proof (kidsBytes_length _ Hks'). lia.
Qed.

Lemma startsWith_self_app (needle post : list Z) : startsWith needle (needle ++ post) = true.
Proof. induction needle as [|c needle IH]; [done|]. simpl. by rewrite Z.eqb_refl, IH. Qed.

Lemma startsWith_inside (needle l more s' : list Z) :
  l ++ more = needle ++ s' -> (length needle <= length l)%nat ->
  startsWith needle l = true.
Proof.
  intros Heq Hlen.
  assert (take (length needle) l = needle) as Htake.
  { rewrite <- (take_app_le l more) by done. rewrite Heq. apply take_app_length. }
  rewrite <- (take_drop (length needle) l), Htake. apply startsWith_self_app.
Qed.

(** A lazy repetition of any character stops at the first position where
    the rest of the pattern matches. *)
Lemma lazy_app_skip (k : kont) (xs s' : list Z) (caps : captures) :
  (forall a c t, xs = a ++ c :: t ->
     forall b j, k (Cursor b (c :: t ++ s') j) caps = None) ->
  forall (b : option Z) (i : Z),
    exists b', lazy anyChar k b (xs ++ s') i caps = lazy anyChar k b' s' (i + len xs) caps.
Proof.
  induction xs as [|c xs IH]; intros Hno b i.
  - exists b. simpl. change (len []) with 0. by rewrite Z.add_0_r.
  - cbn [app lazy]. rewrite (Hno [] c xs eq_refl). unfold anyChar at 1. cbv iota.
    destruct (IH (fun a c' t E => Hno (c :: a) c' t (f_equal (cons c) E)) (Some c) (i + 1))
      as [b' ->].
    exists b'. rewrite len_cons. f_equal. lia.
Qed.

(** The array that follows [/Kids]: the pattern captures what stands before
    the first closing bracket. *)
Lemma kidsRe_written (ws inner post : list Z) (b : option Z) (i : Z) :
  Forall (fun c => isSpace c = true) ws ->
  Forall (fun c => c <> 0x5d) inner ->
  exists e,
    run kidsRe accept
      (Cursor b (bytes "/Kids" ++ ws ++ bytes "[" ++ inner ++ bytes "]" ++ post) i)
      (Captures None [])
    = Some (e, [inner]).
Proof.
  intros Hws Hinner. unfold kidsRe, lit, optSpaces. rewrite !run_app.
  destruct (run_lit_app (bytes "/Kids") (ws ++ bytes "[" ++ inner ++ bytes "]" ++ post)
              (run [Star isSpace]
                 (run (map (fun c => One (Z.eqb c)) (bytes "["))
                    (run [GroupOpen; StarLazy anyChar; GroupClose]
                       (run (map (fun c => One (Z.eqb c)) (bytes "]")) accept))))
              (Captures None []) b i) as [b1 ->].
  set (i1 := i + len (bytes "/Kids")).
  exists (i1 + len ws + 1 + len inner + 1).
  cbn [run step before rest here].
  apply greedy_app_exact; [done|intros c [= <-]; reflexivity|]. intros b2.
  change (bytes "[" ++ inner ++ bytes "]" ++ post) with (0x5b :: inner ++ 0x5d :: post).
  change (bytes "[") with [0x5b]. change (bytes "]") with [0x5d].
  cbn [map run step one rest here before opened groups]. change (91 =? 91) with true. cbv iota.
  lazymatch goal with
  | |- lazy anyChar ?k ?b0 _ ?i0 ?caps = _ =>
      assert (forall a c t, inner = a ++ c :: t ->
                forall b j, k (Cursor b (c :: t ++ 0x5d :: post) j) caps = None) as Hno;
      [|destruct (lazy_app_skip k inner (0x5d :: post) caps Hno b0 i0) as [b3 Hlazy]]
  end.
  { intros a c t -> b0 j. cbn [opened one rest].
    apply Forall_app in Hinner as [_ Hc]. apply Forall_cons in Hc as [Hc _].
    assert ((93 =? c) = false) as -> by lia. done. }
  rewrite Hlazy. cbn [lazy opened one rest here groups]. change (93 =? 93) with true. cbv iota.
  unfold accept. cbn [here groups rev app]. f_equal. f_equal.
  f_equal. rewrite take_len_app. done.
Qed.

Lemma kidsRe_not_before (pre s : list Z) :
  (forall i, (i < length pre)%nat ->
     startsWith (bytes "/Kids") (drop i (pre ++ bytes "/Kids")) = false) ->
  forall a c t, pre = a ++ c :: t ->
    forall b j, run kidsRe accept (Cursor b (c :: t ++ bytes "/Kids" ++ s) j) (Captures None [])
                = None.
Proof.
  intros Hpre a c t -> b j.
  destruct (run kidsRe accept _ _) as [r|] eqn:Hrun; [|done]. exfalso.
  unfold kidsRe, lit in Hrun. rewrite run_app in Hrun.
  apply run_lit_inv in Hrun as (s' & Hrest & _). cbn [rest] in Hrest.
  specialize (Hpre (length a)).
  assert (drop (length a) ((a ++ c :: t) ++ bytes "/Kids") = (c :: t) ++ bytes "/Kids") as Hd
    by (rewrite <- app_assoc; apply drop_app_length).
  rewrite Hd in Hpre.
  assert (startsWith (bytes "/Kids") ((c :: t) ++ bytes "/Kids") = true) as Hsw.
  { apply (startsWith_inside _ _ s s').
    - rewrite <- Hrest. simpl. by rewrite <- app_assoc.
    - rewrite length_app. change (length (bytes "/Kids")) with 5%nat. simpl. lia. }
  rewrite Hpre in Hsw; [done|]. rewrite length_app. simpl. lia.
Qed.

Lemma noEarlier_checked (needle pre : list Z) :
  forallb (fun i => negb (startsWith needle (drop i (pre ++ needle)))) (seq 0 (length pre))
  = true ->
  forall i, (i < length pre)%nat -> startsWith needle (drop i (pre ++ needle)) = false.
Proof.
  intros Hall i Hi. rewrite forallb_forall in Hall.
  specialize (Hall i). apply negb_true_iff, Hall, in_seq. lia.
Qed.

Lemma kidWritten_checked (lead od gd : list Z) :
  forallb (fun c => negb (isDigit c)) lead = true ->
  negb (sameString od []) && forallb isDigit od = true ->
  negb (sameString gd []) && forallb isDigit gd = true ->
  kidWritten (WrittenKid lead od gd).
Proof.
  intros Hl [Hne Hod]%andb_prop [Hne' Hgd]%andb_prop.
  unfold kidWritten. cbn [kidLead kidObj kidGen].
  split; [|split; [|split; [|split]]].
  - apply forallb_true_Forall in Hl. eapply Forall_impl; [exact Hl|].
    intros c Hc. by apply negb_true_iff.
  - by destruct od.
  - by apply forallb_true_Forall.
  - by destruct gd.
  - by apply forallb_true_Forall.
Qed.


